(** * BusTub storage and concurrency core: a shallow embedding

    The development follows the layering of the C++ sources:

    - [LRUReplacer]      src/buffer/lru_replacer.cpp
    - [BufferPool]       src/buffer/buffer_pool_manager.cpp
    - [LockManager]      src/concurrency/lock_manager.cpp
    - [SeqScan]          src/execution/seq_scan_executor.cpp
    - [BPlusTree]        src/storage/index/b_plus_tree.cpp
    - [IndexIterator]    src/storage/index/index_iterator.cpp

    Conventions.  [page_id_t], [frame_id_t] and [txn_id_t] are C++ [int]s and
    are modelled by [Z]; the values that occur are far from the 32-bit bounds,
    so no wrap-around is written out.  A [Page *] is the index of its frame in
    [pages_]; [nullptr] is [None].  Indexing [pages_] out of range is
    undefined behaviour in C++ and is [None] at the level of a whole
    operation.  Every operation runs under the component's coarse mutex, so an
    operation is one atomic state transformer; the only places where a thread
    can be suspended inside an operation are the condition-variable waits of
    the lock manager, which are modelled as explicit blocked states. *)

From Stdlib Require Import ZArith Lia Bool.
From stdpp Require Import gmap list strings sorting.

#[local] Set Warnings "-clear-no-such-hyp".

Open Scope Z_scope.

Definition INVALID_PAGE_ID : Z := -1.
Definition HEADER_PAGE_ID : Z := 0.

(* ===================================================================== *)
(** ** LRU replacer *)
(* ===================================================================== *)

Module LRUReplacer.

(** [list_] is the [std::list<frame_id_t>] (front = most recently
    unpinned); [map_] is the key set of the
    [unordered_map<frame_id_t, list::iterator>]: the iterator stored for a
    key designates the list node holding that key. *)
Record t := mk {
  num_pages_ : nat;
  list_ : list Z;
  map_ : gset Z
}.

Definition create (num_pages : nat) : t :=
  {| num_pages_ := num_pages; list_ := []; map_ := ∅ |}.

Definition Size (r : t) : nat := length (list_ r).

(** Erase the list node an iterator stored under key [f] points to. *)
Fixpoint erase_node (f : Z) (l : list Z) : list Z :=
  match l with
  | [] => []
  | x :: l' => if decide (x = f) then l' else x :: erase_node f l'
  end.

(** [Victim(&frame_id)]: the out-parameter is left untouched on failure. *)
Definition Victim (r : t) (frame_id : Z) : bool * Z * t :=
  if decide (Size r = 0%nat) then (false, frame_id, r)
  else
    let f := List.last (list_ r) frame_id in
    (true, f,
     {| num_pages_ := num_pages_ r;
        list_ := removelast (list_ r);
        map_ := map_ r ∖ {[f]} |}).

Definition Pin (r : t) (frame_id : Z) : t :=
  if decide (frame_id ∈ map_ r) then
    {| num_pages_ := num_pages_ r;
       list_ := erase_node frame_id (list_ r);
       map_ := map_ r ∖ {[frame_id]} |}
  else r.

Definition Unpin (r : t) (frame_id : Z) : t :=
  if decide (Size r = num_pages_ r ∨ frame_id ∈ map_ r) then r
  else
    {| num_pages_ := num_pages_ r;
       list_ := frame_id :: list_ r;
       map_ := {[frame_id]} ∪ map_ r |}.

(** Representation invariant: the map indexes exactly the list nodes, and
    no frame is listed twice. *)
Definition wf (r : t) : Prop :=
  NoDup (list_ r) ∧ ∀ f, f ∈ map_ r ↔ f ∈ list_ r.

(** The frames that [n] calls of [Victim] in a row return; the run ends
    early at the first call that finds nothing. *)
Fixpoint victims (n : nat) (r : t) : list Z :=
  match n with
  | O => []
  | S n =>
      let '(ok, f, r') := Victim r INVALID_PAGE_ID in
      if ok : bool then f :: victims n r' else []
  end.

End LRUReplacer.

(* ===================================================================== *)
(** ** Disk manager *)
(* ===================================================================== *)

Section Disk.
Context {D : Type}.

Inductive disk_event :=
  | EvWritePage (p : Z) (d : D)
  | EvReadPage (p : Z)
  | EvAllocatePage (p : Z)
  | EvDeallocatePage (p : Z).

(** Modelled from the spec: disk_manager.cpp is not among the sources.
    Section 4.1: pages are read and written at offset page_id * page_size,
    page ids are allocated in increasing order, deallocation is a
    bookkeeping no-op, and a read past the end of the file yields a zeroed
    buffer.  [disk_log] records the calls in program order (newest last). *)
Record DiskManager := mkDisk {
  disk_pages : gmap Z D;
  next_page_id_ : Z;
  disk_log : list disk_event
}.

Definition WritePage (dm : DiskManager) (p : Z) (d : D) : DiskManager :=
  {| disk_pages := <[p := d]> (disk_pages dm);
     next_page_id_ := next_page_id_ dm;
     disk_log := disk_log dm ++ [EvWritePage p d] |}.

Definition ReadPage (zero : D) (dm : DiskManager) (p : Z) : D * DiskManager :=
  (default zero (disk_pages dm !! p),
   {| disk_pages := disk_pages dm;
      next_page_id_ := next_page_id_ dm;
      disk_log := disk_log dm ++ [EvReadPage p] |}).

Definition AllocatePage (dm : DiskManager) : Z * DiskManager :=
  (next_page_id_ dm,
   {| disk_pages := disk_pages dm;
      next_page_id_ := next_page_id_ dm + 1;
      disk_log := disk_log dm ++ [EvAllocatePage (next_page_id_ dm)] |}).

Definition DeallocatePage (dm : DiskManager) (p : Z) : DiskManager :=
  {| disk_pages := disk_pages dm;
     next_page_id_ := next_page_id_ dm;
     disk_log := disk_log dm ++ [EvDeallocatePage p] |}.
End Disk.

Arguments disk_event : clear implicits.
Arguments DiskManager : clear implicits.

(* ===================================================================== *)
(** ** Buffer pool manager *)
(* ===================================================================== *)

Module BufferPool.
Section WithData.
Context {D : Type}.
(** The all-zero page image. *)
Variable zero : D.

Record Page := mkPage {
  page_id_ : Z;
  pin_count_ : Z;
  is_dirty_ : bool;
  data_ : D
}.

(** Modelled from the spec: [Page::update] is declared in page.h, which is
    not among the sources.  Its call sites pass (page id, pin count, dirty
    flag) and, in [NewPageImpl] only, a fourth argument [true] under the
    comment "zero out memory"; section 4.3 has NewPage "zero the frame". *)
Definition update (pg : Page) (page_id pin_count : Z) (is_dirty reset_memory : bool) : Page :=
  {| page_id_ := page_id;
     pin_count_ := pin_count;
     is_dirty_ := is_dirty;
     data_ := if reset_memory then zero else data_ pg |}.

Definition set_pin_count (pg : Page) (n : Z) : Page :=
  {| page_id_ := page_id_ pg; pin_count_ := n; is_dirty_ := is_dirty_ pg; data_ := data_ pg |}.

Definition set_dirty (pg : Page) (d : bool) : Page :=
  {| page_id_ := page_id_ pg; pin_count_ := pin_count_ pg; is_dirty_ := d; data_ := data_ pg |}.

Record t := mk {
  pool_size_ : nat;
  pages_ : list Page;
  free_list_ : list Z;
  page_table_ : gmap Z Z;
  replacer_ : LRUReplacer.t;
  disk_manager_ : DiskManager D
}.

Definition fresh_page : Page :=
  {| page_id_ := INVALID_PAGE_ID; pin_count_ := 0; is_dirty_ := false; data_ := zero |}.

(** The constructor: every frame starts in the free list. *)
Definition create (pool_size : nat) (dm : DiskManager D) : t :=
  {| pool_size_ := pool_size;
     pages_ := replicate pool_size fresh_page;
     free_list_ := Z.of_nat <$> seq 0 pool_size;
     page_table_ := ∅;
     replacer_ := LRUReplacer.create pool_size;
     disk_manager_ := dm |}.

(** [pages_[frame_id]]. *)
Definition frame_at (b : t) (f : Z) : option Page :=
  if decide (0 ≤ f) then pages_ b !! Z.to_nat f else None.

Definition set_frame (b : t) (f : Z) (pg : Page) : t :=
  {| pool_size_ := pool_size_ b;
     pages_ := <[Z.to_nat f := pg]> (pages_ b);
     free_list_ := free_list_ b;
     page_table_ := page_table_ b;
     replacer_ := replacer_ b;
     disk_manager_ := disk_manager_ b |}.

Definition set_free_list (b : t) (fl : list Z) : t :=
  {| pool_size_ := pool_size_ b; pages_ := pages_ b; free_list_ := fl;
     page_table_ := page_table_ b; replacer_ := replacer_ b;
     disk_manager_ := disk_manager_ b |}.

Definition set_page_table (b : t) (pt : gmap Z Z) : t :=
  {| pool_size_ := pool_size_ b; pages_ := pages_ b; free_list_ := free_list_ b;
     page_table_ := pt; replacer_ := replacer_ b;
     disk_manager_ := disk_manager_ b |}.

Definition set_replacer (b : t) (r : LRUReplacer.t) : t :=
  {| pool_size_ := pool_size_ b; pages_ := pages_ b; free_list_ := free_list_ b;
     page_table_ := page_table_ b; replacer_ := r;
     disk_manager_ := disk_manager_ b |}.

Definition set_disk (b : t) (dm : DiskManager D) : t :=
  {| pool_size_ := pool_size_ b; pages_ := pages_ b; free_list_ := free_list_ b;
     page_table_ := page_table_ b; replacer_ := replacer_ b;
     disk_manager_ := dm |}.

Definition GetVictimFrameId (b : t) : Z * t :=
  match free_list_ b with
  | f :: rest => (f, set_free_list b rest)
  | [] =>
      let '(_, f, r) := LRUReplacer.Victim (replacer_ b) INVALID_PAGE_ID in
      (f, set_replacer b r)
  end.

(** Write the frame's bytes back when it is dirty (step 2 of FetchPageImpl
    and of NewPageImpl). *)
Definition write_back_if_dirty (b : t) (pg : Page) : t :=
  if is_dirty_ pg
  then set_disk b (WritePage (disk_manager_ b) (page_id_ pg) (data_ pg))
  else b.

(** The result is the returned [Page *] ([None] = nullptr) and the new
    state; the outer [option] is [None] on undefined behaviour. *)
Definition FetchPageImpl (b : t) (page_id : Z) : option (option Z * t) :=
  match page_table_ b !! page_id with
  | Some frame_id =>
      page ← frame_at b frame_id;
      let b := set_replacer b (LRUReplacer.Pin (replacer_ b) frame_id) in
      let b := set_frame b frame_id (set_pin_count page (pin_count_ page + 1)) in
      Some (Some frame_id, b)
  | None =>
      let '(frame_id, b) := GetVictimFrameId b in
      if decide (frame_id = INVALID_PAGE_ID) then Some (None, b)
      else
        page ← frame_at b frame_id;
        let b := write_back_if_dirty b page in
        let b := set_page_table b (<[page_id := frame_id]> (delete (page_id_ page) (page_table_ b))) in
        let '(bytes, dm) := ReadPage zero (disk_manager_ b) page_id in
        let b := set_disk b dm in
        let b := set_frame b frame_id
                   {| page_id_ := page_id; pin_count_ := 1; is_dirty_ := false; data_ := bytes |} in
        let b := set_replacer b (LRUReplacer.Pin (replacer_ b) frame_id) in
        Some (Some frame_id, b)
  end.

Definition UnpinPageImpl (b : t) (page_id : Z) (is_dirty : bool) : option (bool * t) :=
  match page_table_ b !! page_id with
  | None => Some (false, b)
  | Some frame_id =>
      page ← frame_at b frame_id;
      if decide (pin_count_ page ≤ 0) then Some (false, b)
      else
        let page := set_dirty page (is_dirty_ page || is_dirty) in
        let page := set_pin_count page (pin_count_ page - 1) in
        let b := set_frame b frame_id page in
        let b := if decide (pin_count_ page = 0)
                 then set_replacer b (LRUReplacer.Unpin (replacer_ b) frame_id)
                 else b in
        Some (true, b)
  end.

Definition FlushPageImpl (b : t) (page_id : Z) : option (bool * t) :=
  match page_table_ b !! page_id with
  | None => Some (false, b)
  | Some frame_id =>
      page ← frame_at b frame_id;
      let b := set_disk b (WritePage (disk_manager_ b) page_id (data_ page)) in
      let b := set_frame b frame_id (set_dirty page false) in
      Some (true, b)
  end.

(** The result carries the returned [Page *] together with the value
    stored through the [page_id] out-parameter. *)
Definition NewPageImpl (b : t) : option (option (Z * Z) * t) :=
  let '(frame_id, b) := GetVictimFrameId b in
  if decide (frame_id = INVALID_PAGE_ID) then Some (None, b)
  else
    page ← frame_at b frame_id;
    let b := write_back_if_dirty b page in
    let '(new_id, dm) := AllocatePage (disk_manager_ b) in
    let b := set_disk b dm in
    let b := set_page_table b (<[new_id := frame_id]> (delete (page_id_ page) (page_table_ b))) in
    let b := set_frame b frame_id (update page new_id 1 false true) in
    let b := set_replacer b (LRUReplacer.Pin (replacer_ b) frame_id) in
    Some (Some (frame_id, new_id), b).

Definition DeletePageImpl (b : t) (page_id : Z) : option (bool * t) :=
  match page_table_ b !! page_id with
  | None => Some (true, b)
  | Some frame_id =>
      page ← frame_at b frame_id;
      if decide (pin_count_ page > 0) then Some (false, b)
      else
        let b := set_disk b (DeallocatePage (disk_manager_ b) page_id) in
        let b := set_page_table b (delete (page_id_ page) (page_table_ b)) in
        let b := set_free_list b (free_list_ b ++ [frame_id]) in
        let b := set_frame b frame_id (update page INVALID_PAGE_ID 0 false false) in
        Some (true, b)
  end.

(** One iteration of the loop of [FlushAllPagesImpl]. *)
Definition flush_one (b : t) (entry : Z * Z) : option t :=
  page ← frame_at b entry.2;
  if is_dirty_ page then
    let b := set_disk b (WritePage (disk_manager_ b) entry.1 (data_ page)) in
    Some (set_frame b entry.2 (set_dirty page false))
  else Some b.

Definition FlushAllPagesImpl (b : t) : option t :=
  foldl (λ acc e, b ← acc; flush_one b e) (Some b) (map_to_list (page_table_ b)).

(** The holder of a pinned page writes [bytes] through [GetData()]. *)
Definition write_bytes (b : t) (f : Z) (bytes : D) : t :=
  match frame_at b f with
  | Some pg =>
      set_frame b f {| page_id_ := page_id_ pg; pin_count_ := pin_count_ pg;
                       is_dirty_ := is_dirty_ pg; data_ := bytes |}
  | None => b
  end.

(** [page_id] is resident in frame [f], whose metadata and bytes are [pg]. *)
Definition resident (b : t) (page_id f : Z) (pg : Page) : Prop :=
  page_table_ b !! page_id = Some f ∧ frame_at b f = Some pg.

(** Representation invariant of the pool: the replacer was created for
    [pool_size_] frames and lists frames of the pool, and the page table
    points at frames of the pool, whose pin counts are not negative. *)
Definition wf (b : t) : Prop :=
  LRUReplacer.wf (replacer_ b) ∧
  LRUReplacer.num_pages_ (replacer_ b) = length (pages_ b) ∧
  (∀ f, f ∈ LRUReplacer.list_ (replacer_ b) → 0 ≤ f < Z.of_nat (length (pages_ b))) ∧
  (∀ p f, page_table_ b !! p = Some f →
        ∃ pg, frame_at b f = Some pg ∧ 0 ≤ pin_count_ pg).

(** The invariant of the states the pool reaches when only allocated pages
    are fetched.  Beside [wf]: the page table and the page ids stored in the
    frames agree in both directions, and every resident page id has been
    allocated; the frames the replacer lists are unpinned, and it lists
    every unpinned frame that holds a page; the free list names no frame
    twice, its frames hold no page, are unpinned and clean, and it names
    every frame that holds no page. *)
Definition inv (b : t) : Prop :=
  wf b ∧
  0 ≤ next_page_id_ (disk_manager_ b) ∧
  (∀ p f, page_table_ b !! p = Some f →
     0 ≤ p < next_page_id_ (disk_manager_ b) ∧
     ∃ pg, frame_at b f = Some pg ∧ page_id_ pg = p) ∧
  (∀ f pg, frame_at b f = Some pg → page_id_ pg ≠ INVALID_PAGE_ID →
     page_table_ b !! page_id_ pg = Some f) ∧
  (∀ f, f ∈ LRUReplacer.list_ (replacer_ b) →
     ∃ pg, frame_at b f = Some pg ∧ pin_count_ pg = 0) ∧
  (∀ f pg, frame_at b f = Some pg → page_id_ pg ≠ INVALID_PAGE_ID →
     pin_count_ pg = 0 → f ∈ LRUReplacer.list_ (replacer_ b)) ∧
  NoDup (free_list_ b) ∧
  (∀ f, f ∈ free_list_ b →
     ∃ pg, frame_at b f = Some pg ∧ page_id_ pg = INVALID_PAGE_ID ∧
           pin_count_ pg = 0 ∧ is_dirty_ pg = false) ∧
  (∀ f pg, frame_at b f = Some pg → page_id_ pg = INVALID_PAGE_ID →
     f ∈ free_list_ b).

End WithData.
End BufferPool.


(* ===================================================================== *)
(** ** Lock manager *)
(* ===================================================================== *)

Module LockManager.

Inductive LockMode := SHARED | EXCLUSIVE.
Inductive TransactionState := GROWING | SHRINKING | COMMITTED | ABORTED.
Inductive IsolationLevel := READ_UNCOMMITTED | REPEATABLE_READ | READ_COMMITTED.
Inductive AbortReason :=
  | LOCK_ON_SHRINKING
  | UNLOCK_ON_SHRINKING
  | UPGRADE_CONFLICT
  | DEADLOCK
  | LOCKSHARED_ON_READ_UNCOMMITTED.

#[global] Instance LockMode_eq_dec : EqDecision LockMode.
Proof. solve_decision. Defined.
#[global] Instance TransactionState_eq_dec : EqDecision TransactionState.
Proof. solve_decision. Defined.
#[global] Instance IsolationLevel_eq_dec : EqDecision IsolationLevel.
Proof. solve_decision. Defined.
#[global] Instance AbortReason_eq_dec : EqDecision AbortReason.
Proof. solve_decision. Defined.

(** A record identifier: (page id, slot number). *)
Abbreviation RID := (Z * Z)%type.

(** The default-constructed [RID()], which [wait_rids_[t]] yields for a
    transaction without an entry. *)
Definition default_rid : RID := (INVALID_PAGE_ID, 0).

(** The part of [Transaction] the lock manager reads and writes. *)
Record Transaction := mkTxn {
  txn_id_ : Z;
  isolation_level_ : IsolationLevel;
  state_ : TransactionState;
  shared_lock_set_ : gset RID;
  exclusive_lock_set_ : gset RID
}.

Definition SetState (t : Transaction) (s : TransactionState) : Transaction :=
  {| txn_id_ := txn_id_ t; isolation_level_ := isolation_level_ t; state_ := s;
     shared_lock_set_ := shared_lock_set_ t;
     exclusive_lock_set_ := exclusive_lock_set_ t |}.

Definition set_shared (t : Transaction) (s : gset RID) : Transaction :=
  {| txn_id_ := txn_id_ t; isolation_level_ := isolation_level_ t; state_ := state_ t;
     shared_lock_set_ := s; exclusive_lock_set_ := exclusive_lock_set_ t |}.

Definition set_exclusive (t : Transaction) (s : gset RID) : Transaction :=
  {| txn_id_ := txn_id_ t; isolation_level_ := isolation_level_ t; state_ := state_ t;
     shared_lock_set_ := shared_lock_set_ t; exclusive_lock_set_ := s |}.

Definition IsSharedLocked (t : Transaction) (rid : RID) : bool :=
  bool_decide (rid ∈ shared_lock_set_ t).
Definition IsExclusiveLocked (t : Transaction) (rid : RID) : bool :=
  bool_decide (rid ∈ exclusive_lock_set_ t).
Definition IsAborted (t : Transaction) : bool :=
  bool_decide (state_ t = ABORTED).

(** The field [txn_id_] of the C++ [LockRequest] is [txn_id] here, since
    [txn_id_] names the field of [Transaction]. *)
Record LockRequest := mkReq {
  txn_id : Z;
  lock_mode_ : LockMode;
  granted_ : bool
}.

(** [request_queue_] is a [std::list]: references and iterators to a node
    stay valid while other nodes come and go.  Each node therefore carries
    the identity it was allocated with; a [LockRequest &] or a list iterator
    is that identity. *)
Record LockRequestQueue := mkQueue {
  request_queue_ : list (nat * LockRequest);
  reader_count_ : Z;
  writer_enter_ : bool;
  upgrading_ : bool
}.

Definition empty_queue : LockRequestQueue :=
  {| request_queue_ := []; reader_count_ := 0; writer_enter_ := false; upgrading_ := false |}.

(** [std::set<txn_id_t>]: a strictly ascending list. *)
Fixpoint set_insert (x : Z) (s : list Z) : list Z :=
  match s with
  | [] => [x]
  | y :: s' =>
      if decide (x < y) then x :: s
      else if decide (x = y) then s
      else y :: set_insert x s'
  end.

Definition set_count (x : Z) (s : list Z) : bool := bool_decide (x ∈ s).

Definition set_erase (x : Z) (s : list Z) : list Z := filter (λ y, y ≠ x) s.

(** [*s.rbegin()]; dereferencing [rbegin()] of an empty set is undefined. *)
Definition set_rbegin (s : list Z) : option Z := last s.

Record t := mk {
  lock_table_ : gmap RID LockRequestQueue;
  waits_for_ : gmap Z (list Z);
  txns_ : list Z;
  on_stack_txns_ : list Z;
  has_cycle_ : bool;
  wait_rids_ : gmap Z RID
}.

Definition empty : t :=
  {| lock_table_ := ∅; waits_for_ := ∅; txns_ := []; on_stack_txns_ := [];
     has_cycle_ := false; wait_rids_ := ∅ |}.

(** The lock manager together with the transactions it is handed pointers
    to ([TransactionManager::txn_map]) and the allocator of list nodes. *)
Record World := mkWorld {
  lm : t;
  txn_map : gmap Z Transaction;
  next_node : nat
}.

Definition set_lock_table (l : t) (lt : gmap RID LockRequestQueue) : t :=
  {| lock_table_ := lt; waits_for_ := waits_for_ l; txns_ := txns_ l;
     on_stack_txns_ := on_stack_txns_ l; has_cycle_ := has_cycle_ l;
     wait_rids_ := wait_rids_ l |}.

Definition set_waits_for (l : t) (g : gmap Z (list Z)) : t :=
  {| lock_table_ := lock_table_ l; waits_for_ := g; txns_ := txns_ l;
     on_stack_txns_ := on_stack_txns_ l; has_cycle_ := has_cycle_ l;
     wait_rids_ := wait_rids_ l |}.

Definition set_txns (l : t) (s : list Z) : t :=
  {| lock_table_ := lock_table_ l; waits_for_ := waits_for_ l; txns_ := s;
     on_stack_txns_ := on_stack_txns_ l; has_cycle_ := has_cycle_ l;
     wait_rids_ := wait_rids_ l |}.

Definition set_on_stack (l : t) (s : list Z) : t :=
  {| lock_table_ := lock_table_ l; waits_for_ := waits_for_ l; txns_ := txns_ l;
     on_stack_txns_ := s; has_cycle_ := has_cycle_ l;
     wait_rids_ := wait_rids_ l |}.

Definition set_has_cycle (l : t) (b : bool) : t :=
  {| lock_table_ := lock_table_ l; waits_for_ := waits_for_ l; txns_ := txns_ l;
     on_stack_txns_ := on_stack_txns_ l; has_cycle_ := b;
     wait_rids_ := wait_rids_ l |}.

Definition set_wait_rids (l : t) (m : gmap Z RID) : t :=
  {| lock_table_ := lock_table_ l; waits_for_ := waits_for_ l; txns_ := txns_ l;
     on_stack_txns_ := on_stack_txns_ l; has_cycle_ := has_cycle_ l;
     wait_rids_ := m |}.

Definition set_lm (w : World) (l : t) : World :=
  {| lm := l; txn_map := txn_map w; next_node := next_node w |}.

Definition set_txn (w : World) (tx : Transaction) : World :=
  {| lm := lm w; txn_map := <[txn_id_ tx := tx]> (txn_map w); next_node := next_node w |}.

(** [lock_table_[rid]]: [operator[]] default-constructs a missing entry. *)
Definition queue_at (l : t) (rid : RID) : LockRequestQueue :=
  default empty_queue (lock_table_ l !! rid).

Definition set_queue (w : World) (rid : RID) (q : LockRequestQueue) : World :=
  set_lm w (set_lock_table (lm w) (<[rid := q]> (lock_table_ (lm w)))).

Definition set_requests (q : LockRequestQueue) (rs : list (nat * LockRequest)) : LockRequestQueue :=
  {| request_queue_ := rs; reader_count_ := reader_count_ q;
     writer_enter_ := writer_enter_ q; upgrading_ := upgrading_ q |}.

Definition set_reader_count (q : LockRequestQueue) (n : Z) : LockRequestQueue :=
  {| request_queue_ := request_queue_ q; reader_count_ := n;
     writer_enter_ := writer_enter_ q; upgrading_ := upgrading_ q |}.

Definition set_writer_enter (q : LockRequestQueue) (b : bool) : LockRequestQueue :=
  {| request_queue_ := request_queue_ q; reader_count_ := reader_count_ q;
     writer_enter_ := b; upgrading_ := upgrading_ q |}.

Definition set_upgrading (q : LockRequestQueue) (b : bool) : LockRequestQueue :=
  {| request_queue_ := request_queue_ q; reader_count_ := reader_count_ q;
     writer_enter_ := writer_enter_ q; upgrading_ := b |}.

(** Update the node with identity [node] through a reference to it. *)
Definition update_node (f : LockRequest → LockRequest) (node : nat)
    (rs : list (nat * LockRequest)) : list (nat * LockRequest) :=
  (λ e : nat * LockRequest, if decide (e.1 = node) then (e.1, f e.2) else e) <$> rs.

Definition set_granted (b : bool) (r : LockRequest) : LockRequest :=
  {| txn_id := txn_id r; lock_mode_ := lock_mode_ r; granted_ := b |}.

Definition set_mode (m : LockMode) (r : LockRequest) : LockRequest :=
  {| txn_id := txn_id r; lock_mode_ := m; granted_ := granted_ r |}.

(** [request_queue_.emplace_back(txn_id, mode)]: a fresh, ungranted node. *)
Definition emplace_back (w : World) (rid : RID) (tid : Z) (mode : LockMode) : nat * World :=
  let q := queue_at (lm w) rid in
  let node := next_node w in
  let q := set_requests q (request_queue_ q ++ [(node, mkReq tid mode false)]) in
  let w := set_queue w rid q in
  (node, {| lm := lm w; txn_map := txn_map w; next_node := S node |}).

(** How a call leaves the calling thread: it returned, it raised
    [TransactionAbortException(txn, reason)], or it sleeps on the queue's
    condition variable holding a reference to its request node. *)
Inductive outcome :=
  | Returns (b : bool)
  | Throws (txn : Z) (reason : AbortReason)
  | Blocks (node : nat).

#[global] Instance outcome_eq_dec : EqDecision outcome.
Proof. solve_decision. Defined.

(** *** Lock acquisition and release

    Each function is the code executed under [latch_] from the call (or from
    the wake-up) to the point where the thread returns, throws or goes to
    sleep in [cv_.wait].  [cv_.wait(lock, pred)] evaluates [pred] first and
    sleeps only when it is false; a sleeping thread that is notified
    re-evaluates [pred] with [latch_] held, which is what the [_wait]
    functions do. *)

Definition CheckShrinking (w : World) (txn : Transaction) : option (Z * AbortReason * World) :=
  if decide (state_ txn = SHRINKING)
  then Some (txn_id_ txn, LOCK_ON_SHRINKING, set_txn w (SetState txn ABORTED))
  else None.

Definition CheckAborted (txn : Transaction) : option (Z * AbortReason) :=
  if IsAborted txn then Some (txn_id_ txn, DEADLOCK) else None.

(** From [queue.cv_.wait] of [LockShared] to its [return true]. *)
Definition LockShared_wait (w : World) (tid : Z) (rid : RID) (node : nat) : option (outcome * World) :=
  txn ← txn_map w !! tid;
  let queue := queue_at (lm w) rid in
  if negb (writer_enter_ queue) || IsAborted txn then
    match CheckAborted txn with
    | Some (t, r) => Some (Throws t r, w)
    | None =>
        let queue := set_reader_count queue (reader_count_ queue + 1) in
        let queue := set_requests queue (update_node (set_granted true) node (request_queue_ queue)) in
        let w := set_queue w rid queue in
        let w := set_txn w (set_shared txn ({[rid]} ∪ shared_lock_set_ txn)) in
        Some (Returns true, w)
    end
  else Some (Blocks node, w).

Definition LockShared (w : World) (tid : Z) (rid : RID) : option (outcome * World) :=
  txn ← txn_map w !! tid;
  match CheckShrinking w txn with
  | Some (t, r, w) => Some (Throws t r, w)
  | None =>
      if IsSharedLocked txn rid then Some (Returns true, w)
      else
        let txn_id := txn_id_ txn in
        if decide (isolation_level_ txn = READ_UNCOMMITTED) then
          Some (Throws txn_id LOCKSHARED_ON_READ_UNCOMMITTED, set_txn w (SetState txn ABORTED))
        else
          let '(node, w) := emplace_back w rid txn_id SHARED in
          LockShared_wait w tid rid node
  end.

(** From [queue.cv_.wait] of [LockExclusive] to its [return true]. *)
Definition LockExclusive_wait (w : World) (tid : Z) (rid : RID) (node : nat) : option (outcome * World) :=
  txn ← txn_map w !! tid;
  let queue := queue_at (lm w) rid in
  if (negb (writer_enter_ queue) && bool_decide (reader_count_ queue = 0)) || IsAborted txn then
    match CheckAborted txn with
    | Some (t, r) => Some (Throws t r, w)
    | None =>
        let queue := set_writer_enter queue true in
        let queue := set_requests queue (update_node (set_granted true) node (request_queue_ queue)) in
        let w := set_queue w rid queue in
        let w := set_txn w (set_exclusive txn ({[rid]} ∪ exclusive_lock_set_ txn)) in
        Some (Returns true, w)
    end
  else Some (Blocks node, w).

Definition LockExclusive (w : World) (tid : Z) (rid : RID) : option (outcome * World) :=
  txn ← txn_map w !! tid;
  match CheckShrinking w txn with
  | Some (t, r, w) => Some (Throws t r, w)
  | None =>
      if IsExclusiveLocked txn rid then Some (Returns true, w)
      else
        let '(node, w) := emplace_back w rid (txn_id_ txn) EXCLUSIVE in
        LockExclusive_wait w tid rid node
  end.

(** The iterator to the first request of [txn_id] in the queue of [rid];
    [None] is [queue.end()]. *)
Definition GetRequest (l : t) (txn_id : Z) (rid : RID) : option nat :=
  fst <$> head (filter (λ e : nat * LockRequest, LockManager.txn_id e.2 = txn_id)
                  (request_queue_ (queue_at l rid))).

(** From [queue.cv_.wait] of [LockUpgrade] to its [return true]. *)
Definition LockUpgrade_wait (w : World) (tid : Z) (rid : RID) (node : nat) : option (outcome * World) :=
  txn ← txn_map w !! tid;
  let queue := queue_at (lm w) rid in
  if (negb (writer_enter_ queue) && bool_decide (reader_count_ queue = 0)) || IsAborted txn then
    match CheckAborted txn with
    | Some (t, r) => Some (Throws t r, w)
    | None =>
        let queue := set_upgrading queue false in
        let queue := set_writer_enter queue true in
        let queue := set_requests queue (update_node (set_granted true) node (request_queue_ queue)) in
        let w := set_queue w rid queue in
        let w := set_txn w (set_exclusive txn ({[rid]} ∪ exclusive_lock_set_ txn)) in
        Some (Returns true, w)
    end
  else Some (Blocks node, w).

(** Dereferencing [queue.end()] is undefined: the outer [None]. *)
Definition LockUpgrade (w : World) (tid : Z) (rid : RID) : option (outcome * World) :=
  txn ← txn_map w !! tid;
  let txn := set_shared txn (shared_lock_set_ txn ∖ {[rid]}) in
  let w := set_txn w txn in
  let queue := queue_at (lm w) rid in
  let queue := set_reader_count queue (reader_count_ queue - 1) in
  let w := set_queue w rid queue in
  node ← GetRequest (lm w) (txn_id_ txn) rid;
  let queue := set_requests queue
                 (update_node (λ r, set_granted false (set_mode EXCLUSIVE r)) node
                    (request_queue_ queue)) in
  let w := set_queue w rid queue in
  if upgrading_ queue then
    Some (Throws (txn_id_ txn) UPGRADE_CONFLICT, set_txn w (SetState txn ABORTED))
  else
    let w := set_queue w rid (set_upgrading queue true) in
    LockUpgrade_wait w tid rid node.

Definition Unlock (w : World) (tid : Z) (rid : RID) : option (bool * World) :=
  txn ← txn_map w !! tid;
  let txn := set_shared txn (shared_lock_set_ txn ∖ {[rid]}) in
  let txn := set_exclusive txn (exclusive_lock_set_ txn ∖ {[rid]}) in
  node ← GetRequest (lm w) (txn_id_ txn) rid;
  req ← snd <$> head (filter (λ e : nat * LockRequest, e.1 = node)
                        (request_queue_ (queue_at (lm w) rid)));
  let lock_mode := lock_mode_ req in
  let txn :=
    if bool_decide (state_ txn = GROWING) &&
       negb (bool_decide (lock_mode = SHARED) &&
             bool_decide (isolation_level_ txn = READ_COMMITTED))
    then SetState txn SHRINKING else txn in
  let w := set_txn w txn in
  let queue := queue_at (lm w) rid in
  let queue := set_requests queue
                 (filter (λ e : nat * LockRequest, e.1 ≠ node) (request_queue_ queue)) in
  let queue :=
    match lock_mode with
    | SHARED => set_reader_count queue (reader_count_ queue - 1)
    | EXCLUSIVE => set_writer_enter queue false
    end in
  Some (true, set_queue w rid queue).

(** Every lock the transaction records in its lock sets is backed by a
    request of the transaction in the queue of that Rid. *)
Definition backed (w : World) (tid : Z) : Prop :=
  ∀ txn rid, txn_map w !! tid = Some txn →
    rid ∈ shared_lock_set_ txn ∪ exclusive_lock_set_ txn →
    is_Some (GetRequest (lm w) tid rid).

(** *** Deadlock detection *)

Definition neighbors_of (g : gmap Z (list Z)) (t1 : Z) : list Z :=
  default [] (g !! t1).

(** [neighbors.erase(std::find(neighbors.begin(), neighbors.end(), t2))]. *)
Fixpoint erase_first (t2 : Z) (ns : list Z) : list Z :=
  match ns with
  | [] => []
  | x :: ns' => if decide (x = t2) then ns' else x :: erase_first t2 ns'
  end.

Definition AddEdge (l : t) (t1 t2 : Z) : t :=
  let l := set_txns l (set_insert t2 (set_insert t1 (txns_ l))) in
  let neighbors := neighbors_of (waits_for_ l) t1 in
  let neighbors :=
    if bool_decide (t2 ∈ neighbors) then neighbors else neighbors ++ [t2] in
  set_waits_for l (<[t1 := neighbors]> (waits_for_ l)).

Definition RemoveEdge (l : t) (t1 t2 : Z) : t :=
  let neighbors := neighbors_of (waits_for_ l) t1 in
  set_waits_for l (<[t1 := erase_first t2 neighbors]> (waits_for_ l)).

(** The recursion of [DFS] is bounded by [fuel]: [None] means the bound was
    too small.  Every recursive call is on a vertex that is not on the
    stack, so the depth never exceeds the number of vertices. *)
Fixpoint DFS (fuel : nat) (l : t) (txn_id : Z) : option t :=
  match fuel with
  | O => None
  | S fuel =>
      if has_cycle_ l then Some l
      else
        let l := set_on_stack l (set_insert txn_id (on_stack_txns_ l)) in
        let neighbors := merge_sort Z.le (neighbors_of (waits_for_ l) txn_id) in
        let l := set_waits_for l (<[txn_id := neighbors]> (waits_for_ l)) in
        (fix loop (ns : list Z) (l : t) {struct ns} : option t :=
           match ns with
           | [] => Some (set_on_stack l (set_erase txn_id (on_stack_txns_ l)))
           | t2 :: ns =>
               if set_count t2 (on_stack_txns_ l)
               then Some (set_has_cycle l true)
               else
                 match DFS fuel l t2 with
                 | Some l => loop ns l
                 | None => None
                 end
           end) neighbors l
  end.

(** [HasCycle(&txn_id)]: the result is the returned flag, the value of the
    out-parameter afterwards, and the new state. *)
Definition HasCycle (fuel : nat) (l : t) (txn_id : Z) : option (bool * Z * t) :=
  (fix loop (ts : list Z) (l : t) {struct ts} : option (bool * Z * t) :=
     match ts with
     | [] => Some (false, txn_id, set_on_stack l [])
     | t1 :: ts =>
         match DFS fuel l t1 with
         | None => None
         | Some l =>
             if has_cycle_ l then
               victim ← set_rbegin (on_stack_txns_ l);
               Some (true, victim, set_has_cycle (set_on_stack l []) false)
             else loop ts l
         end
     end) (txns_ l) l.

Definition GetEdgeList (l : t) : list (Z * Z) :=
  '(t1, neighbors) ← map_to_list (waits_for_ l);
  (λ t2, (t1, t2)) <$> neighbors.

(** The two [while] loops over one request queue in [RunCycleDetection]:
    the first collects the granted requests at the head of the queue, the
    second visits every request from the first ungranted one on. *)
Fixpoint leading_grants (rs : list (nat * LockRequest)) : list Z * list (nat * LockRequest) :=
  match rs with
  | [] => ([], [])
  | r :: rs' =>
      if granted_ r.2
      then let '(grants, rest) := leading_grants rs' in (txn_id r.2 :: grants, rest)
      else ([], rs)
  end.

Definition scan_queue (l : t) (rid : RID) (queue : LockRequestQueue) : t :=
  let '(grants, rest) := leading_grants (request_queue_ queue) in
  foldl (λ l (it : nat * LockRequest),
           let l := foldl (λ l t2, AddEdge l (txn_id it.2) t2) l grants in
           set_wait_rids l (<[txn_id it.2 := rid]> (wait_rids_ l)))
        l rest.

(** "构建等待图": the graph construction at the head of a detection round.
    The iteration order of the [unordered_map] is the order of
    [map_to_list]. *)
Definition build_waits_for (l : t) : t :=
  foldl (λ l (e : RID * LockRequestQueue), scan_queue l e.1 e.2) l
        (map_to_list (lock_table_ l)).

(** The inner loops of [AbortTransaction] over one lock set. *)
Definition remove_waiters (l : t) (txn_id : Z) (rids : list RID) : t :=
  foldl (λ l rid,
           let l := set_lock_table l (<[rid := queue_at l rid]> (lock_table_ l)) in
           foldl (λ l (req : nat * LockRequest),
                    if granted_ req.2 then l
                    else RemoveEdge l (LockManager.txn_id req.2) txn_id)
                 l (request_queue_ (queue_at l rid)))
        l rids.

Definition AbortTransaction (w : World) (txn_id : Z) : option World :=
  txn ← txn_map w !! txn_id;
  let w := set_txn w (SetState txn ABORTED) in
  let l := lm w in
  let l := set_waits_for l (delete txn_id (waits_for_ l)) in
  let l := remove_waiters l txn_id (elements (exclusive_lock_set_ txn)) in
  let l := remove_waiters l txn_id (elements (shared_lock_set_ txn)) in
  let rid := default default_rid (wait_rids_ l !! txn_id) in
  let l := set_wait_rids l (<[txn_id := rid]> (wait_rids_ l)) in
  let l := set_lock_table l (<[rid := queue_at l rid]> (lock_table_ l)) in
  Some (set_lm w l).

(** [while (HasCycle(&txn_id)) AbortTransaction(txn_id);] with at most
    [rounds] iterations. *)
Fixpoint abort_victims (rounds fuel : nat) (w : World) (txn_id : Z) : option World :=
  match rounds with
  | O => None
  | S rounds =>
      '(found, txn_id, l) ← HasCycle fuel (lm w) txn_id;
      let w := set_lm w l in
      if found : bool then
        w ← AbortTransaction w txn_id;
        abort_victims rounds fuel w txn_id
      else Some w
  end.

(** One pass through the body of the [while (enable_cycle_detection_)] loop
    of [RunCycleDetection], after the sleep.  [txn_id] is the initial value
    of the uninitialised local. *)
Definition RunCycleDetection (rounds fuel : nat) (w : World) (txn_id : Z) : option World :=
  let w := set_lm w (build_waits_for (lm w)) in
  w ← abort_victims rounds fuel w txn_id;
  let l := lm w in
  let l := set_waits_for l ∅ in
  let l := set_wait_rids l ∅ in
  let l := set_txns l [] in
  Some (set_lm w l).

(** *** The wait-for relation of the specification *)

(** [t2] is a neighbour of [t1] in the graph. *)
Definition has_edge (l : t) (t1 t2 : Z) : bool :=
  bool_decide (t2 ∈ neighbors_of (waits_for_ l) t1).

(** Follows the spec's words (section 3): "t1 has an ungranted request
    behind a granted request of t2", within one queue. *)
Fixpoint waits_behind_in (rs : list (nat * LockRequest)) (t1 t2 : Z) : bool :=
  match rs with
  | [] => false
  | r :: rest =>
      (granted_ r.2 && bool_decide (txn_id r.2 = t2) &&
       existsb (λ r' : nat * LockRequest,
                  negb (granted_ r'.2) && bool_decide (txn_id r'.2 = t1)) rest)
      || waits_behind_in rest t1 t2
  end.

(** ... "on some Rid". *)
Definition waits_behind (lt : gmap RID LockRequestQueue) (t1 t2 : Z) : bool :=
  existsb (λ e : RID * LockRequestQueue, waits_behind_in (request_queue_ e.2) t1 t2)
          (map_to_list lt).

(** The shape of queue [RunCycleDetection] is written for: no granted
    request stands behind an ungranted one. *)
Definition grants_first (rs : list (nat * LockRequest)) : Prop :=
  Forall (λ r : nat * LockRequest, granted_ r.2 = false) (leading_grants rs).2.

(** *** Invariants of the lock table *)

(** The request is granted in mode [m]. *)
Definition granted_with (m : LockMode) (e : nat * LockRequest) : Prop :=
  granted_ e.2 = true ∧ lock_mode_ e.2 = m.

#[global] Instance granted_with_dec m e : Decision (granted_with m e).
Proof. unfold granted_with. apply _. Defined.

(** The counters of a queue describe its requests: [reader_count_] is the
    number of granted shared requests, [writer_enter_] says whether there is
    a granted exclusive request, of which there is at most one, and while
    there is one no shared request is granted.  The nodes of the list are
    distinct. *)
Definition queue_ok (q : LockRequestQueue) : Prop :=
  NoDup (request_queue_ q).*1 ∧
  reader_count_ q = Z.of_nat (length (filter (granted_with SHARED) (request_queue_ q))) ∧
  length (filter (granted_with EXCLUSIVE) (request_queue_ q)) =
    (if writer_enter_ q then 1 else 0)%nat ∧
  (writer_enter_ q = true → reader_count_ q = 0).

(** Every queue is [queue_ok] and its nodes were handed out by the
    allocator. *)
Definition table_ok (w : World) : Prop :=
  ∀ rid, queue_ok (queue_at (lm w) rid) ∧
         ∀ e, e ∈ request_queue_ (queue_at (lm w) rid) → (e.1 < next_node w)%nat.

(** The request [GetRequest] finds for the transaction in the queue of
    [rid] is granted in mode [m]. *)
Definition holds (w : World) (tid : Z) (rid : RID) (m : LockMode) : Prop :=
  ∃ txn node r,
    txn_map w !! tid = Some txn ∧
    head (filter (λ e : nat * LockRequest, txn_id e.2 = txn_id_ txn)
            (request_queue_ (queue_at (lm w) rid))) = Some (node, r) ∧
    granted_ r = true ∧ lock_mode_ r = m.

(** The thread sleeping in a lock call refers to an ungranted request of
    mode [m] in the queue of [rid]. *)
Definition waiting (w : World) (rid : RID) (node : nat) (m : LockMode) : Prop :=
  ∃ r, (node, r) ∈ request_queue_ (queue_at (lm w) rid) ∧
       granted_ r = false ∧ lock_mode_ r = m.

(** [t2] is a neighbour of [t1] in the wait-for graph. *)
Definition edge (l : t) (t1 t2 : Z) : Prop := t2 ∈ neighbors_of (waits_for_ l) t1.

End LockManager.

(* ===================================================================== *)
(** ** B+tree pages *)
(* ===================================================================== *)

(** The three page classes (b_plus_tree_page.cpp, b_plus_tree_leaf_page.cpp,
    b_plus_tree_internal_page.cpp) are not among the sources; [b_plus_tree.cpp]
    and [index_iterator.cpp] only call them.  They are modelled from
    sections 3 and 4.4 of the specification.  A page keeps its entries in an
    array of which the first [size] slots are in use; the model keeps exactly
    those slots, so [GetSize] is the length of the list. *)

Module TreePage.
Section WithKeys.
Context {KeyType ValueType : Type}.
(** [comparator_(a, b)]: negative, zero or positive. *)
Variable comparator : KeyType → KeyType → Z.

Record LeafPage := mkLeaf {
  l_page_id : Z;
  l_parent_page_id : Z;
  l_max_size : Z;
  l_next_page_id : Z;
  l_array : list (KeyType * ValueType)
}.

Record InternalPage := mkInternal {
  i_page_id : Z;
  i_parent_page_id : Z;
  i_max_size : Z;
  i_array : list (KeyType * Z)
}.

(** A page image as the tree sees it: the page type tag of the common
    header selects the view. *)
Inductive Node :=
  | Leaf (l : LeafPage)
  | Internal (i : InternalPage).

Definition IsLeafPage (n : Node) : bool :=
  match n with Leaf _ => true | Internal _ => false end.

Definition GetPageId (n : Node) : Z :=
  match n with Leaf l => l_page_id l | Internal i => i_page_id i end.

Definition GetParentPageId (n : Node) : Z :=
  match n with Leaf l => l_parent_page_id l | Internal i => i_parent_page_id i end.

Definition GetMaxSize (n : Node) : Z :=
  match n with Leaf l => l_max_size l | Internal i => i_max_size i end.

Definition GetSize (n : Node) : Z :=
  match n with
  | Leaf l => Z.of_nat (length (l_array l))
  | Internal i => Z.of_nat (length (i_array i))
  end.

Definition IsRootPage (n : Node) : bool :=
  bool_decide (GetParentPageId n = INVALID_PAGE_ID).

(** Modelled from the spec: [BPlusTreePage::GetMinSize] is absent.  Section 3:
    a non-root internal page holds at least ceil(m/2) entries and a non-root
    leaf at least ceil((m-1)/2), where m is the page's max size. *)
Definition GetMinSize (n : Node) : Z :=
  match n with
  | Leaf l => l_max_size l / 2
  | Internal i => (i_max_size i + 1) / 2
  end.

Definition set_leaf_parent (l : LeafPage) (p : Z) : LeafPage :=
  {| l_page_id := l_page_id l; l_parent_page_id := p; l_max_size := l_max_size l;
     l_next_page_id := l_next_page_id l; l_array := l_array l |}.

Definition set_leaf_next (l : LeafPage) (p : Z) : LeafPage :=
  {| l_page_id := l_page_id l; l_parent_page_id := l_parent_page_id l;
     l_max_size := l_max_size l; l_next_page_id := p; l_array := l_array l |}.

Definition set_leaf_array (l : LeafPage) (a : list (KeyType * ValueType)) : LeafPage :=
  {| l_page_id := l_page_id l; l_parent_page_id := l_parent_page_id l;
     l_max_size := l_max_size l; l_next_page_id := l_next_page_id l; l_array := a |}.

Definition set_internal_parent (i : InternalPage) (p : Z) : InternalPage :=
  {| i_page_id := i_page_id i; i_parent_page_id := p; i_max_size := i_max_size i;
     i_array := i_array i |}.

Definition set_internal_array (i : InternalPage) (a : list (KeyType * Z)) : InternalPage :=
  {| i_page_id := i_page_id i; i_parent_page_id := i_parent_page_id i;
     i_max_size := i_max_size i; i_array := a |}.

Definition SetParentPageId (n : Node) (p : Z) : Node :=
  match n with
  | Leaf l => Leaf (set_leaf_parent l p)
  | Internal i => Internal (set_internal_parent i p)
  end.

(** *** Leaf pages *)

(** Modelled from the spec: [LeafPage::Init(page_id, parent_id, max_size)].
    A fresh leaf is empty and ends the sibling chain. *)
Definition LeafInit (page_id parent_id max_size : Z) : LeafPage :=
  {| l_page_id := page_id; l_parent_page_id := parent_id; l_max_size := max_size;
     l_next_page_id := INVALID_PAGE_ID; l_array := [] |}.

(** Modelled from the spec: [LeafPage::KeyIndex], the first slot whose key is
    not below [key] (the lower bound used by [Begin(key)]). *)
Fixpoint key_index (key : KeyType) (a : list (KeyType * ValueType)) : nat :=
  match a with
  | [] => 0%nat
  | (k, _) :: a' => if decide (comparator k key < 0) then S (key_index key a') else 0%nat
  end.

Definition LeafKeyIndex (l : LeafPage) (key : KeyType) : Z :=
  Z.of_nat (key_index key (l_array l)).

(** Modelled from the spec: [LeafPage::Lookup(key, &value, comparator)],
    the search "under the comparator" of section 4.4: the entry at the lower
    bound is the match when its key compares equal. *)
Definition LeafLookup (l : LeafPage) (key : KeyType) : option ValueType :=
  match l_array l !! key_index key (l_array l) with
  | Some (k, v) => if decide (comparator k key = 0) then Some v else None
  | None => None
  end.

(** Modelled from the spec: [LeafPage::Insert(key, value, comparator)] keeps
    the keys ascending and unique and returns the size afterwards. *)
Definition LeafInsert (l : LeafPage) (key : KeyType) (value : ValueType) : Z * LeafPage :=
  let i := key_index key (l_array l) in
  let present :=
    match l_array l !! i with
    | Some (k, _) => bool_decide (comparator k key = 0)
    | None => false
    end in
  let l := if present then l
           else set_leaf_array l (take i (l_array l) ++ (key, value) :: drop i (l_array l)) in
  (Z.of_nat (length (l_array l)), l).

(** Modelled from the spec: [LeafPage::RemoveAndDeleteRecord(key, comparator)]
    deletes the entry of [key] when there is one and returns the size
    afterwards. *)
Definition LeafRemoveAndDeleteRecord (l : LeafPage) (key : KeyType) : Z * LeafPage :=
  let i := key_index key (l_array l) in
  let present :=
    match l_array l !! i with
    | Some (k, _) => bool_decide (comparator k key = 0)
    | None => false
    end in
  let l := if present then set_leaf_array l (take i (l_array l) ++ drop (S i) (l_array l))
           else l in
  (Z.of_nat (length (l_array l)), l).

(** Modelled from the spec: [LeafPage::MoveHalfTo(recipient)].  Section 4.4:
    "move the upper half of the pairs to it, fix up the leaf sibling chain". *)
Definition LeafMoveHalfTo (l recipient : LeafPage) : LeafPage * LeafPage :=
  let keep := (length (l_array l) / 2)%nat in
  let recipient := set_leaf_array recipient (l_array recipient ++ drop keep (l_array l)) in
  let recipient := set_leaf_next recipient (l_next_page_id l) in
  let l := set_leaf_array l (take keep (l_array l)) in
  (set_leaf_next l (l_page_id recipient), recipient).

(** Modelled from the spec: [LeafPage::MoveAllTo(recipient)]: "move all
    entries from the right participant into the left"; the left page takes
    over the right page's successor. *)
Definition LeafMoveAllTo (l recipient : LeafPage) : LeafPage * LeafPage :=
  let recipient := set_leaf_array recipient (l_array recipient ++ l_array l) in
  let recipient := set_leaf_next recipient (l_next_page_id l) in
  (set_leaf_array l [], recipient).

(** Modelled from the spec: [LeafPage::MoveFirstToEndOf(recipient)]. *)
Definition LeafMoveFirstToEndOf (l recipient : LeafPage) : LeafPage * LeafPage :=
  (set_leaf_array l (drop 1 (l_array l)),
   set_leaf_array recipient (l_array recipient ++ take 1 (l_array l))).

(** Modelled from the spec: [LeafPage::MoveLastToFrontOf(recipient)]. *)
Definition LeafMoveLastToFrontOf (l recipient : LeafPage) : LeafPage * LeafPage :=
  let n := length (l_array l) in
  (set_leaf_array l (take (n - 1) (l_array l)),
   set_leaf_array recipient (drop (n - 1) (l_array l) ++ l_array recipient)).

(** *** Internal pages *)

(** Modelled from the spec: [InternalPage::Init]. *)
Definition InternalInit (page_id parent_id max_size : Z) : InternalPage :=
  {| i_page_id := page_id; i_parent_page_id := parent_id; i_max_size := max_size;
     i_array := [] |}.

(** [KeyAt(index)] and [ValueAt(index)]; reading a slot beyond the page is
    undefined. *)
Definition InternalKeyAt (i : InternalPage) (index : Z) : option KeyType :=
  if decide (0 ≤ index) then fst <$> i_array i !! Z.to_nat index else None.

Definition InternalValueAt (i : InternalPage) (index : Z) : option Z :=
  if decide (0 ≤ index) then snd <$> i_array i !! Z.to_nat index else None.

Definition LeafKeyAt (l : LeafPage) (index : Z) : option KeyType :=
  if decide (0 ≤ index) then fst <$> l_array l !! Z.to_nat index else None.

Definition InternalSetKeyAt (i : InternalPage) (index : Z) (key : KeyType) : InternalPage :=
  set_internal_array i
    (alter (λ e : KeyType * Z, (key, e.2)) (Z.to_nat index) (i_array i)).

(** Modelled from the spec: [InternalPage::ValueIndex(value)], the slot whose
    child pointer is [value]; the size when there is none. *)
Fixpoint value_index (value : Z) (a : list (KeyType * Z)) : nat :=
  match a with
  | [] => 0%nat
  | (_, v) :: a' => if decide (v = value) then 0%nat else S (value_index value a')
  end.

Definition InternalValueIndex (i : InternalPage) (value : Z) : Z :=
  Z.of_nat (value_index value (i_array i)).

(** Modelled from the spec: [InternalPage::Lookup(key, comparator)].
    Section 3: the subtree at slot i holds the keys k with
    key(i) <= k < key(i+1), the key of slot 0 being unused: the child is that
    of the last slot (from slot 1 on) whose key is not above [key], else
    that of slot 0. *)
Fixpoint lookup_from (key : KeyType) (child : Z) (a : list (KeyType * Z)) : Z :=
  match a with
  | [] => child
  | (k, v) :: a' => if decide (comparator k key ≤ 0) then lookup_from key v a' else child
  end.

Definition InternalLookup (i : InternalPage) (key : KeyType) : option Z :=
  match i_array i with
  | [] => None
  | (_, v0) :: a => Some (lookup_from key v0 a)
  end.

(** Modelled from the spec: [InternalPage::PopulateNewRoot]: "write
    (child0 = old, key = k, child1 = new)".  The key of slot 0 is unused;
    the model stores [k] there. *)
Definition PopulateNewRoot (i : InternalPage) (old_value : Z) (key : KeyType) (new_value : Z)
    : InternalPage :=
  set_internal_array i [(key, old_value); (key, new_value)].

(** Modelled from the spec: [InternalPage::InsertNodeAfter]: "insert the new
    key/child after the old child's slot"; returns the size afterwards. *)
Definition InsertNodeAfter (i : InternalPage) (old_value : Z) (key : KeyType) (new_value : Z)
    : Z * InternalPage :=
  let at_ := S (value_index old_value (i_array i)) in
  let a := take at_ (i_array i) ++ (key, new_value) :: drop at_ (i_array i) in
  (Z.of_nat (length a), set_internal_array i a).

(** Modelled from the spec: [InternalPage::Remove(index)]. *)
Definition InternalRemove (i : InternalPage) (index : Z) : InternalPage :=
  set_internal_array i (delete (Z.to_nat index) (i_array i)).

(** Modelled from the spec: [InternalPage::RemoveAndReturnOnlyChild]; section
    4.4 (adjust-root): the single remaining child is promoted. *)
Definition RemoveAndReturnOnlyChild (i : InternalPage) : option (Z * InternalPage) :=
  v ← InternalValueAt i 0;
  Some (v, set_internal_array i []).

End WithKeys.
End TreePage.

Arguments TreePage.LeafPage : clear implicits.
Arguments TreePage.InternalPage : clear implicits.
Arguments TreePage.Node : clear implicits.

(* ===================================================================== *)
(** ** B+tree index *)
(* ===================================================================== *)

(** [b_plus_tree.cpp] reaches its pages only through [FetchPage], [NewPage],
    [UnpinPage] and [DeletePage] and always unpins what it fetched.  The tree
    is modelled over the page store the buffer pool implements: the contents
    of every page by page id and the allocation counter of the disk manager.
    In this store [FetchPage] reads the page, [NewPage] allocates the next
    id, [UnpinPage] and the page latches leave every page as it is, and
    [DeletePage] gives the frame back without touching the bytes of any page
    that is still part of the tree.  [NewPage] returning [nullptr] (every
    frame pinned), on which [BPlusTree::NewPage] throws, does not occur in
    the store.  A [Page *] or node pointer is the id under which the page
    was fetched; [GetPageId()] on a node reads the id stored in its header.
    The root latch and the page latches only order concurrent threads and
    are not part of the state; [page_set_] is kept because the code
    maintains it. *)

Module BPlusTree.
Import TreePage.
Section WithKeys.
Context {KeyType ValueType : Type}.
Variable comparator_ : KeyType → KeyType → Z.
(** The value of a declared but unassigned [KeyType] local ([middle_key]). *)
Variable unset_key : KeyType.

Inductive OperationType := READ | INSERT | REMOVE.

(** Modelled from the spec: header_page.cpp is absent.  Section 6: page 0
    holds "a sequence of (name, root_page_id) records used to locate index
    roots by name". *)
Record PageStore := mkStore {
  pages : gmap Z (Node KeyType ValueType);
  next_page_id : Z;
  header_records : list (string * Z)
}.

Record t := mk {
  index_name_ : string;
  root_page_id_ : Z;
  leaf_max_size_ : Z;
  internal_max_size_ : Z;
  store : PageStore
}.

(** The part of [Transaction] the tree uses: the latched ancestors
    ([None] stands for the root latch) and the pages to delete. *)
Record Transaction := mkTxn {
  page_set_ : list (option Z);
  deleted_page_set_ : gset Z
}.

Definition AddIntoPageSet (txn : Transaction) (page : option Z) : Transaction :=
  {| page_set_ := page_set_ txn ++ [page]; deleted_page_set_ := deleted_page_set_ txn |}.

Definition AddIntoDeletedPageSet (txn : Transaction) (page_id : Z) : Transaction :=
  {| page_set_ := page_set_ txn; deleted_page_set_ := {[page_id]} ∪ deleted_page_set_ txn |}.

Definition set_store (tr : t) (st : PageStore) : t :=
  {| index_name_ := index_name_ tr; root_page_id_ := root_page_id_ tr;
     leaf_max_size_ := leaf_max_size_ tr; internal_max_size_ := internal_max_size_ tr;
     store := st |}.

Definition set_root (tr : t) (r : Z) : t :=
  {| index_name_ := index_name_ tr; root_page_id_ := r;
     leaf_max_size_ := leaf_max_size_ tr; internal_max_size_ := internal_max_size_ tr;
     store := store tr |}.

(** [FetchPage(p)] followed by the cast to a tree page. *)
Definition fetch (tr : t) (p : Z) : option (Node KeyType ValueType) :=
  pages (store tr) !! p.

Definition fetch_leaf (tr : t) (p : Z) : option (LeafPage KeyType ValueType) :=
  match fetch tr p with Some (Leaf l) => Some l | _ => None end.

Definition fetch_internal (tr : t) (p : Z) : option (InternalPage KeyType) :=
  match fetch tr p with Some (Internal i) => Some i | _ => None end.

(** A store through a node pointer. *)
Definition put (tr : t) (p : Z) (n : Node KeyType ValueType) : t :=
  set_store tr
    {| pages := <[p := n]> (pages (store tr));
       next_page_id := next_page_id (store tr);
       header_records := header_records (store tr) |}.

Definition NewPage (tr : t) : Z * t :=
  (next_page_id (store tr),
   set_store tr
     {| pages := pages (store tr);
        next_page_id := next_page_id (store tr) + 1;
        header_records := header_records (store tr) |}).

(** Modelled from the spec: [HeaderPage::InsertRecord] adds a record unless
    the name is taken; [HeaderPage::UpdateRecord] rewrites the record of an
    existing name. *)
Definition InsertRecord (h : list (string * Z)) (name : string) (root : Z) : list (string * Z) :=
  if bool_decide (name ∈ h.*1) then h else h ++ [(name, root)].

Definition UpdateRecord (h : list (string * Z)) (name : string) (root : Z) : list (string * Z) :=
  (λ e : string * Z, if decide (e.1 = name) then (name, root) else e) <$> h.

Definition UpdateRootPageId (tr : t) (insert_record : Z) : t :=
  let h := header_records (store tr) in
  let h := if decide (insert_record ≠ 0)
           then InsertRecord h (index_name_ tr) (root_page_id_ tr)
           else UpdateRecord h (index_name_ tr) (root_page_id_ tr) in
  set_store tr
    {| pages := pages (store tr); next_page_id := next_page_id (store tr);
       header_records := h |}.

Definition IsEmpty (tr : t) : bool :=
  bool_decide (root_page_id_ tr = INVALID_PAGE_ID).

Definition IsPageSafe (page : Node KeyType ValueType) (operation : OperationType) : bool :=
  let size := GetSize page in
  match operation with
  | READ => true
  | INSERT => bool_decide (size < GetMaxSize page - 1)
  | REMOVE =>
      if IsRootPage page
      then (if IsLeafPage page then bool_decide (size > 1) else bool_decide (size > 2))
      else bool_decide (size > GetMinSize page)
  end.

(** Releases the latches (and, with [unpin], the pins) of every page in the
    page set and empties it. *)
Definition UnlockAncestors (txn : Transaction) (unpin : bool) : Transaction :=
  {| page_set_ := []; deleted_page_set_ := deleted_page_set_ txn |}.

(** The [while (!node->IsLeafPage())] loop of [FindLeafPage], entered with
    [page] and [node]; [fuel] bounds the number of iterations. *)
Fixpoint descend (fuel : nat) (tr : t) (key : KeyType) (leftMost : bool)
    (operation : OperationType) (txn : Transaction)
    (page : Z) (node : Node KeyType ValueType) : option (Z * Transaction) :=
  match node with
  | Leaf _ => Some (page, txn)
  | Internal inode =>
      match fuel with
      | O => None
      | S fuel =>
          page_id ← (if leftMost then InternalValueAt inode 0
                     else InternalLookup comparator_ inode key);
          child ← fetch tr page_id;
          let txn :=
            match operation with
            | READ => txn
            | _ =>
                let txn := AddIntoPageSet txn (Some page) in
                if IsPageSafe child operation then UnlockAncestors txn true else txn
            end in
          descend fuel tr key leftMost operation txn page_id child
      end
  end.

Definition FindLeafPage (fuel : nat) (tr : t) (key : KeyType) (leftMost : bool)
    (operation : OperationType) (txn : Transaction) : option (Z * Transaction) :=
  let page_id := root_page_id_ tr in
  node ← fetch tr page_id;
  let txn :=
    match operation with
    | READ => txn
    | _ => if negb (IsPageSafe node operation) then AddIntoPageSet txn None else txn
    end in
  descend fuel tr key leftMost operation txn page_id node.

(** [result] is the vector the caller passes; a hit is appended to it. *)
Definition GetValue (fuel : nat) (tr : t) (key : KeyType) (result : list ValueType)
    (txn : Transaction) : option (bool * list ValueType) :=
  if IsEmpty tr then Some (false, result)
  else
    '(leaf_page, _) ← FindLeafPage fuel tr key false READ txn;
    leaf ← fetch_leaf tr leaf_page;
    match LeafLookup comparator_ leaf key with
    | Some value => Some (true, result ++ [value])
    | None => Some (false, result)
    end.

Definition StartNewTree (tr : t) (key : KeyType) (value : ValueType) : t :=
  let '(root_page, tr) := NewPage tr in
  let tr := set_root tr root_page in
  let root := LeafInit (root_page_id_ tr) INVALID_PAGE_ID (leaf_max_size_ tr) in
  let '(_, root) := LeafInsert comparator_ root key value in
  let tr := put tr root_page (Leaf root) in
  UpdateRootPageId tr 1.

(** Modelled from the spec: the entries an internal page hands to another
    page take their children along: each moved child is fetched and its
    parent link set to the recipient (this is what the internal page's move
    functions need their [buffer_pool_manager] argument for). *)
Definition reparent (tr : t) (children : list Z) (parent : Z) : option t :=
  foldl (λ acc c, tr ← acc; n ← fetch tr c; Some (put tr c (SetParentPageId n parent)))
        (Some tr) children.

(** Modelled from the spec: [InternalPage::MoveHalfTo(recipient, bpm)],
    "moving half" of the entries to the new sibling. *)
Definition InternalMoveHalfTo (tr : t) (page recipient : Z) : option t :=
  this ← fetch_internal tr page;
  r ← fetch_internal tr recipient;
  let keep := (length (i_array this) / 2)%nat in
  let moved := drop keep (i_array this) in
  let tr := put tr recipient (Internal (set_internal_array r (i_array r ++ moved))) in
  let tr := put tr page (Internal (set_internal_array this (take keep (i_array this)))) in
  reparent tr moved.*2 (i_page_id r).

(** Modelled from the spec: [InternalPage::MoveAllTo(recipient, middle_key,
    bpm)]: "pull down the parent's separator key when nodes are internal"
    and move every entry to the left participant. *)
Definition InternalMoveAllTo (tr : t) (page recipient : Z) (middle_key : KeyType) : option t :=
  this ← fetch_internal tr page;
  r ← fetch_internal tr recipient;
  let moved := i_array (InternalSetKeyAt this 0 middle_key) in
  let tr := put tr recipient (Internal (set_internal_array r (i_array r ++ moved))) in
  let tr := put tr page (Internal (set_internal_array this [])) in
  reparent tr moved.*2 (i_page_id r).

(** Modelled from the spec: [InternalPage::MoveFirstToEndOf(recipient,
    middle_key, bpm)]: the first child moves to the end of the left page
    under the separator pulled down from the parent. *)
Definition InternalMoveFirstToEndOf (tr : t) (page recipient : Z) (middle_key : KeyType)
    : option t :=
  this ← fetch_internal tr page;
  r ← fetch_internal tr recipient;
  child ← InternalValueAt this 0;
  let tr := put tr recipient (Internal (set_internal_array r (i_array r ++ [(middle_key, child)]))) in
  let tr := put tr page (Internal (set_internal_array this (drop 1 (i_array this)))) in
  reparent tr [child] (i_page_id r).

(** Modelled from the spec: [InternalPage::MoveLastToFrontOf(recipient,
    middle_key, bpm)]: the last entry moves to slot 0 of the right page, whose
    former first child gets the separator pulled down from the parent. *)
Definition InternalMoveLastToFrontOf (tr : t) (page recipient : Z) (middle_key : KeyType)
    : option t :=
  this ← fetch_internal tr page;
  r ← fetch_internal tr recipient;
  lst ← last (i_array this);
  let r := InternalSetKeyAt r 0 middle_key in
  let tr := put tr recipient (Internal (set_internal_array r (lst :: i_array r))) in
  let tr := put tr page
              (Internal (set_internal_array this
                           (take (length (i_array this) - 1) (i_array this)))) in
  reparent tr [lst.2] (i_page_id r).

(** [Split<N>(node)]: the result is the pointer to the new page. *)
Definition Split (tr : t) (node : Z) : option (Z * t) :=
  n ← fetch tr node;
  let '(new_page_id, tr) := NewPage tr in
  match n with
  | Leaf l =>
      let new_node := LeafInit new_page_id (l_parent_page_id l) (l_max_size l) in
      let '(l, new_node) := LeafMoveHalfTo l new_node in
      let tr := put tr new_page_id (Leaf new_node) in
      Some (new_page_id, put tr node (Leaf l))
  | Internal i =>
      let new_node := InternalInit new_page_id (i_parent_page_id i) (i_max_size i) in
      let tr := put tr new_page_id (Internal new_node) in
      tr ← InternalMoveHalfTo tr node new_page_id;
      Some (new_page_id, tr)
  end.

(** [new_node->KeyAt(0)] for either page class. *)
Definition KeyAt0 (n : Node KeyType ValueType) : option KeyType :=
  match n with
  | Leaf l => LeafKeyAt l 0
  | Internal i => InternalKeyAt i 0
  end.

(** The recursion climbs one level per call; [fuel] bounds the height. *)
Fixpoint InsertIntoParent (fuel : nat) (tr : t) (old_node : Z) (key : KeyType) (new_node : Z)
    (txn : Transaction) : option (t * Transaction) :=
  old ← fetch tr old_node;
  new ← fetch tr new_node;
  if IsRootPage old then
    let '(root_page, tr) := NewPage tr in
    let tr := set_root tr root_page in
    let root := InternalInit (root_page_id_ tr) INVALID_PAGE_ID (internal_max_size_ tr) in
    let root := PopulateNewRoot root (GetPageId old) key (GetPageId new) in
    let tr := put tr root_page (Internal root) in
    let tr := put tr old_node (SetParentPageId old (root_page_id_ tr)) in
    new ← fetch tr new_node;
    let tr := put tr new_node (SetParentPageId new (root_page_id_ tr)) in
    let tr := UpdateRootPageId tr 0 in
    Some (tr, UnlockAncestors txn false)
  else
    let parent_id := GetParentPageId old in
    parent ← fetch_internal tr parent_id;
    let '(size, parent) := InsertNodeAfter parent (GetPageId old) key (GetPageId new) in
    let tr := put tr parent_id (Internal parent) in
    if decide (size = internal_max_size_ tr) then
      match fuel with
      | O => None
      | S fuel =>
          '(new_page, tr) ← Split tr parent_id;
          new_parent ← fetch tr new_page;
          key ← KeyAt0 new_parent;
          InsertIntoParent fuel tr parent_id key new_page txn
      end
    else Some (tr, UnlockAncestors txn false).

Definition InsertIntoLeaf (fuel : nat) (tr : t) (key : KeyType) (value : ValueType)
    (txn : Transaction) : option (bool * t * Transaction) :=
  '(leaf_page, txn) ← FindLeafPage fuel tr key false INSERT txn;
  leaf ← fetch_leaf tr leaf_page;
  match LeafLookup comparator_ leaf key with
  | Some _ => Some (false, tr, UnlockAncestors txn true)
  | None =>
      let '(size, leaf) := LeafInsert comparator_ leaf key value in
      let tr := put tr leaf_page (Leaf leaf) in
      if decide (size = leaf_max_size_ tr) then
        '(new_leaf, tr) ← Split tr leaf_page;
        new_node ← fetch tr new_leaf;
        key0 ← KeyAt0 new_node;
        '(tr, txn) ← InsertIntoParent fuel tr leaf_page key0 new_leaf txn;
        Some (true, tr, UnlockAncestors txn true)
      else Some (true, tr, UnlockAncestors txn true)
  end.

Definition Insert (fuel : nat) (tr : t) (key : KeyType) (value : ValueType)
    (txn : Transaction) : option (bool * t * Transaction) :=
  if negb (IsEmpty tr) then InsertIntoLeaf fuel tr key value txn
  else Some (true, StartNewTree tr key value, txn).

Definition AdjustRoot (tr : t) (old_root_node : Z) : option (bool * t) :=
  old_root ← fetch tr old_root_node;
  if negb (IsLeafPage old_root) && bool_decide (GetSize old_root = 1) then
    i ← fetch_internal tr old_root_node;
    '(child_id, i) ← RemoveAndReturnOnlyChild i;
    let tr := put tr old_root_node (Internal i) in
    let tr := set_root tr child_id in
    child ← fetch tr (root_page_id_ tr);
    let tr := put tr (root_page_id_ tr) (SetParentPageId child INVALID_PAGE_ID) in
    Some (true, UpdateRootPageId tr 0)
  else if IsLeafPage old_root && bool_decide (GetSize old_root = 0) then
    let tr := set_root tr INVALID_PAGE_ID in
    Some (true, UpdateRootPageId tr 0)
  else Some (false, tr).

Definition Redistribute (tr : t) (neighbor_node node : Z) (index : Z) : option t :=
  n ← fetch tr node;
  parent ← fetch_internal tr (GetParentPageId n);
  let middle_index := if decide (index = 0) then 1 else index in
  middle_key ← (if IsLeafPage n then Some unset_key else InternalKeyAt parent middle_index);
  tr ← match n with
       | Leaf l =>
           nb ← fetch_leaf tr neighbor_node;
           let '(nb, l) := if decide (index = 0) then LeafMoveFirstToEndOf nb l
                           else LeafMoveLastToFrontOf nb l in
           Some (put (put tr neighbor_node (Leaf nb)) node (Leaf l))
       | Internal _ =>
           if decide (index = 0)
           then InternalMoveFirstToEndOf tr neighbor_node node middle_key
           else InternalMoveLastToFrontOf tr neighbor_node node middle_key
       end;
  key ← (if decide (index = 0) then fetch tr neighbor_node ≫= KeyAt0
         else fetch tr node ≫= KeyAt0);
  n ← fetch tr node;
  parent ← fetch_internal tr (GetParentPageId n);
  Some (put tr (GetParentPageId n) (Internal (InternalSetKeyAt parent middle_index key))).

(** [Coalesce] ends in a call of [CoalesceOrRedistribute] on the parent,
    which is passed in as [recurse]. *)
Definition Coalesce (recurse : t → Z → Transaction → option (bool * t * Transaction))
    (tr : t) (neighbor_node node parent : Z) (index : Z) (txn : Transaction)
    : option (bool * t * Transaction) :=
  let '(node, neighbor_node) :=
    if decide (index = 0) then (neighbor_node, node) else (node, neighbor_node) in
  child ← fetch tr node;
  parent_node ← fetch_internal tr parent;
  let middle_index := if decide (index = 0) then 1 else index in
  middle_key ← (if IsLeafPage child then Some unset_key
                else InternalKeyAt parent_node middle_index);
  tr ← match child with
       | Leaf l =>
           nb ← fetch_leaf tr neighbor_node;
           let '(l, nb) := LeafMoveAllTo l nb in
           Some (put (put tr node (Leaf l)) neighbor_node (Leaf nb))
       | Internal _ => InternalMoveAllTo tr node neighbor_node middle_key
       end;
  parent_node ← fetch_internal tr parent;
  let tr := put tr parent (Internal (InternalRemove parent_node middle_index)) in
  recurse tr parent txn.

Fixpoint CoalesceOrRedistribute (fuel : nat) (tr : t) (node : Z) (txn : Transaction)
    : option (bool * t * Transaction) :=
  n ← fetch tr node;
  if IsRootPage n then
    '(deleted, tr) ← AdjustRoot tr node;
    Some (deleted, tr, txn)
  else
    let parent_id := GetParentPageId n in
    parent ← fetch_internal tr parent_id;
    let index := InternalValueIndex parent (GetPageId n) in
    let sibling_index := if decide (index > 0) then index - 1 else 1 in
    sibling_page ← InternalValueAt parent sibling_index;
    sibling ← fetch tr sibling_page;
    if negb (bool_decide (IsLeafPage sibling = IsLeafPage n)) then None
    else
      let is_merge := bool_decide (GetSize sibling + GetSize n ≤ GetMaxSize n - 1) in
      if is_merge then
        match fuel with
        | O => None
        | S fuel =>
            '(_, tr, txn) ← Coalesce (CoalesceOrRedistribute fuel) tr sibling_page node
                              parent_id index txn;
            Some (is_merge, tr, txn)
        end
      else
        tr ← Redistribute tr sibling_page node index;
        Some (is_merge, tr, txn).

Definition Remove (fuel : nat) (tr : t) (key : KeyType) (txn : Transaction)
    : option (t * Transaction) :=
  if IsEmpty tr then Some (tr, txn)
  else
    '(leaf_page, txn) ← FindLeafPage fuel tr key false REMOVE txn;
    leaf ← fetch_leaf tr leaf_page;
    let '(size, leaf) := LeafRemoveAndDeleteRecord comparator_ leaf key in
    let tr := put tr leaf_page (Leaf leaf) in
    if decide (size < GetMinSize (Leaf leaf)) then
      '(deleted, tr, txn) ← CoalesceOrRedistribute fuel tr leaf_page txn;
      leaf ← fetch tr leaf_page;
      let txn := if deleted : bool then AddIntoDeletedPageSet txn (GetPageId leaf) else txn in
      Some (tr, UnlockAncestors txn true)
    else Some (tr, UnlockAncestors txn true).

Definition DeletePages (txn : Transaction) : Transaction :=
  {| page_set_ := page_set_ txn; deleted_page_set_ := ∅ |}.

(** The keys and values of the leaf chain from page [p] on, in the order of
    the forward iterator; [fuel] bounds the number of leaves. *)
Fixpoint leaf_chain (fuel : nat) (tr : t) (p : Z) : option (list (KeyType * ValueType)) :=
  if decide (p = INVALID_PAGE_ID) then Some []
  else
    match fuel with
    | O => None
    | S fuel =>
        l ← fetch_leaf tr p;
        rest ← leaf_chain fuel tr (l_next_page_id l);
        Some (l_array l ++ rest)
    end.

(** *** The shape of a search tree

    The shape the descent of [FindLeafPage] relies on, for a comparator
    that orders the keys by a [rank].  A subtree is checked against the key
    interval [lo, hi) it is responsible for; [None] is an open end. *)
Variable rank : KeyType → Z.

Definition aboveb (lo : option Z) (r : Z) : bool :=
  match lo with Some l => bool_decide (l ≤ r) | None => true end.

Definition belowb (hi : option Z) (r : Z) : bool :=
  match hi with Some h => bool_decide (r < h) | None => true end.

Definition uptob (hi : option Z) (r : Z) : bool :=
  match hi with Some h => bool_decide (r ≤ h) | None => true end.

(** The keys of a leaf ascend strictly and lie in the leaf's interval. *)
Fixpoint leaf_keys_ok (lo hi : option Z) (a : list (KeyType * ValueType)) : bool :=
  match a with
  | [] => true
  | (k, _) :: a' =>
      aboveb lo (rank k) && belowb hi (rank k) && leaf_keys_ok (Some (rank k + 1)) hi a'
  end.

(** The slots of an internal page after slot 0: the child left of a
    separator [k] is responsible for the keys below [k], the child right of
    it for the keys from [k] on; separators ascend within the interval. *)
Fixpoint children_ok (sub : Z → option Z → option Z → bool)
    (c : Z) (lo : option Z) (a : list (KeyType * Z)) (hi : option Z) : bool :=
  match a with
  | [] => sub c lo hi
  | (k, c') :: a' =>
      sub c lo (Some (rank k)) && aboveb lo (rank k) && uptob hi (rank k) &&
      children_ok sub c' (Some (rank k)) a' hi
  end.

(** A search tree of height [h] at page [p]: every leaf is [h] levels below
    [p]. *)
Fixpoint search_tree (h : nat) (tr : t) (p : Z) (lo hi : option Z) : bool :=
  match h with
  | O =>
      match fetch tr p with
      | Some (Leaf l) => leaf_keys_ok lo hi (l_array l)
      | _ => false
      end
  | S h =>
      match fetch tr p with
      | Some (Internal i) =>
          match i_array i with
          | (_, c0) :: a => children_ok (search_tree h tr) c0 lo a hi
          | [] => false
          end
      | _ => false
      end
  end.

(** The pair ([key], [v]) is stored in a leaf [h] levels below page [p];
    keys of equal rank are the same key to the comparator. *)
Fixpoint stored (h : nat) (tr : t) (p : Z) (key : KeyType) (v : ValueType) : Prop :=
  match h with
  | O =>
      ∃ l k, fetch tr p = Some (Leaf l) ∧ (k, v) ∈ l_array l ∧ rank k = rank key
  | S h =>
      ∃ i c, fetch tr p = Some (Internal i) ∧ c ∈ (i_array i).*2 ∧ stored h tr c key v
  end.

End WithKeys.
End BPlusTree.

(* ===================================================================== *)
(** ** B+tree index iterator *)
(* ===================================================================== *)

(** [index_iterator.cpp] works directly on buffer-pool frames.  The bytes of
    a frame are a tree page when they were written as one ([Some]); zeroed
    or foreign bytes are [None] and reading them as a leaf is undefined. *)

Module IndexIterator.
Import TreePage.
Section WithKeys.
Context {KeyType ValueType : Type}.

Abbreviation Data := (option (Node KeyType ValueType)).

Record t := mk {
  page_ : option Z;
  index_ : Z;
  page_id_ : Z
}.

(** [IndexIterator(buffer_pool_manager, page, index)]. *)
Definition create (b : BufferPool.t (D:=Data)) (page : option Z) (index : Z) : option t :=
  match page with
  | None => Some {| page_ := None; index_ := index; page_id_ := INVALID_PAGE_ID |}
  | Some f =>
      pg ← BufferPool.frame_at b f;
      Some {| page_ := page; index_ := index; page_id_ := BufferPool.page_id_ pg |}
  end.

(** [BPlusTree::end()]: [IndexIterator(buffer_pool_manager_, nullptr, 0)]. *)
Definition end_iterator : t :=
  {| page_ := None; index_ := 0; page_id_ := INVALID_PAGE_ID |}.

Definition isEnd (it : t) : bool := bool_decide (page_id_ it = INVALID_PAGE_ID).

(** [operator==]. *)
Definition eqb (it itr : t) : bool :=
  bool_decide (page_id_ itr = page_id_ it) && bool_decide (index_ itr = index_ it).

(** The leaf page in the frame [page_] points to. *)
Definition leaf_of (b : BufferPool.t (D:=Data)) (page : option Z)
    : option (LeafPage KeyType ValueType) :=
  f ← page;
  pg ← BufferPool.frame_at b f;
  match BufferPool.data_ pg with
  | Some (Leaf l) => Some l
  | _ => None
  end.

(** [operator*]. *)
Definition deref (b : BufferPool.t (D:=Data)) (it : t) : option (KeyType * ValueType) :=
  leaf ← leaf_of b (page_ it);
  if decide (0 ≤ index_ it) then l_array leaf !! Z.to_nat (index_ it) else None.

(** [operator++] of the iterator that keeps its leaf read-latched: the new
    iterator and the buffer pool afterwards.  A [nullptr] from [FetchPage]
    is dereferenced by [page_->RLatch()]. *)
Definition increment (b : BufferPool.t (D:=Data)) (it : t)
    : option (t * BufferPool.t (D:=Data)) :=
  if isEnd it then Some (it, b)
  else
    leaf ← leaf_of b (page_ it);
    if decide (index_ it < Z.of_nat (length (l_array leaf)) - 1) then
      Some ({| page_ := page_ it; index_ := index_ it + 1; page_id_ := page_id_ it |}, b)
    else
      old_page ← page_ it;
      let page_id := l_next_page_id leaf in
      '(page, b) ←
        (if decide (page_id ≠ INVALID_PAGE_ID) then
           '(fetched, b) ← BufferPool.FetchPageImpl None b page_id;
           f ← fetched;
           Some (Some f, b)
         else Some (None, b));
      old ← BufferPool.frame_at b old_page;
      '(_, b) ← BufferPool.UnpinPageImpl b (BufferPool.page_id_ old) false;
      Some ({| page_ := page; index_ := 0; page_id_ := page_id |}, b).

(** [operator++] of the variant that holds no latch: it unpins the current
    page first and then reads its successor from it. *)
Definition increment_unlatched (b : BufferPool.t (D:=Data)) (it : t)
    : option (t * BufferPool.t (D:=Data)) :=
  if isEnd it then Some (it, b)
  else
    leaf ← leaf_of b (page_ it);
    if decide (index_ it < Z.of_nat (length (l_array leaf)) - 1) then
      Some ({| page_ := page_ it; index_ := index_ it + 1; page_id_ := page_id_ it |}, b)
    else
      '(_, b) ← BufferPool.UnpinPageImpl b (page_id_ it) false;
      leaf ← leaf_of b (page_ it);
      let page_id := l_next_page_id leaf in
      if decide (page_id ≠ INVALID_PAGE_ID) then
        '(fetched, b) ← BufferPool.FetchPageImpl None b page_id;
        f ← fetched;
        Some ({| page_ := Some f; index_ := 0; page_id_ := page_id |}, b)
      else Some ({| page_ := None; index_ := 0; page_id_ := page_id |}, b).

End WithKeys.
End IndexIterator.

(* ===================================================================== *)
(** ** Sequential scan executor *)
(* ===================================================================== *)

Module SeqScan.
Import LockManager.
Section Executor.
(** Rows of the table heap and rows of the output schema. *)
Context {Tuple OutTuple : Type}.
(** [plan_->GetPredicate()]; [None] is the null predicate. *)
Variable predicate : option (Tuple → bool).
(** Evaluation of the output columns ("只保留输出列"). *)
Variable project : Tuple → OutTuple.
(** [exec_ctx_->GetTransaction()]. *)
Variable tid : Z.

(** What [Next] does, in program order.  [EvRead] is [*tuple = *it_++] and
    records the transaction as it is at that moment. *)
Inductive event :=
  | EvLockShared (rid : RID)
  | EvRead (rid : RID) (holder : Transaction)
  | EvPredicate (rid : RID) (matched : bool)
  | EvProject (rid : RID)
  | EvUnlock (rid : RID).

(** [it_] is the table iterator: the rows not yet visited. *)
Record state := mkState {
  it_ : list (RID * Tuple);
  trace : list event
}.

Inductive result :=
  | Produced (tuple : OutTuple) (rid : RID)
  | Exhausted
  | Aborted (txn : Z) (reason : AbortReason)
  | Suspended (node : nat).

Definition Init (table : list (RID * Tuple)) (st : state) : state :=
  {| it_ := table; trace := trace st |}.

(** [SeqScanExecutor::Unlock]. *)
Definition Unlock (w : World) (tr : list event) (rid : RID) : option (World * list event) :=
  txn ← txn_map w !! tid;
  if decide (isolation_level_ txn = READ_COMMITTED) then
    '(_, w) ← LockManager.Unlock w tid rid;
    Some (w, tr ++ [EvUnlock rid])
  else Some (w, tr).

(** [!predicate || predicate->Evaluate(tuple, schema).GetAs<bool>()]. *)
Definition passes (tuple : Tuple) : bool :=
  match predicate with None => true | Some p => p tuple end.

(** One iteration of the loop of [Next] from [*tuple = *it_++] on; [continue]
    is the rest of the loop. *)
Definition visit (continue : World → list event → option (result * World * state))
    (w : World) (tr : list event) (rid : RID) (tuple : Tuple) (rest : list (RID * Tuple))
    : option (result * World * state) :=
  txn ← txn_map w !! tid;
  let tr := tr ++ [EvRead rid txn] in
  let matched := passes tuple in
  let tr := tr ++ [EvPredicate rid matched] in
  if matched then
    let out := project tuple in
    let tr := tr ++ [EvProject rid] in
    '(w, tr) ← Unlock w tr rid;
    Some (Produced out rid, w, {| it_ := rest; trace := tr |})
  else
    '(w, tr) ← Unlock w tr rid;
    continue w tr.

(** The [while (it_ != End())] loop of [Next]. *)
Fixpoint scan (its : list (RID * Tuple)) (w : World) (tr : list event)
    : option (result * World * state) :=
  match its with
  | [] => Some (Exhausted, w, {| it_ := []; trace := tr |})
  | (rid, tuple) :: rest =>
      txn ← txn_map w !! tid;
      if negb (bool_decide (isolation_level_ txn = READ_UNCOMMITTED)) &&
         negb (IsExclusiveLocked txn rid)
      then
        '(o, w) ← LockShared w tid rid;
        let tr := tr ++ [EvLockShared rid] in
        match o with
        | Returns _ => visit (scan rest) w tr rid tuple rest
        | Throws t r => Some (Aborted t r, w, {| it_ := its; trace := tr |})
        | Blocks node => Some (Suspended node, w, {| it_ := its; trace := tr |})
        end
      else visit (scan rest) w tr rid tuple rest
  end.

Definition Next (w : World) (st : state) : option (result * World * state) :=
  scan (it_ st) w (trace st).

(** The continuation of a [Next] that was suspended in [LockShared], run
    when the thread is notified. *)
Definition Next_wake (w : World) (st : state) (node : nat) : option (result * World * state) :=
  match it_ st with
  | [] => None
  | (rid, tuple) :: rest =>
      '(o, w) ← LockShared_wait w tid rid node;
      match o with
      | Returns _ => visit (scan rest) w (trace st) rid tuple rest
      | Throws t r => Some (Aborted t r, w, st)
      | Blocks node => Some (Suspended node, w, st)
      end
  end.

(** *** The shape of a trace *)

(** A visited row: whether [LockShared] was called for it, its Rid, the
    transaction as it was when the row was read, and the outcome of the
    predicate. *)
Record row := mkRow {
  locked : bool;
  row_rid : RID;
  holder : Transaction;
  matched : bool
}.

(** The events of one visited row at isolation level [level]. *)
Definition row_events (level : IsolationLevel) (r : row) : list event :=
  (if locked r then [EvLockShared (row_rid r)] else [])
  ++ [EvRead (row_rid r) (holder r); EvPredicate (row_rid r) (matched r)]
  ++ (if matched r then [EvProject (row_rid r)] else [])
  ++ (if decide (level = READ_COMMITTED) then [EvUnlock (row_rid r)] else []).



End Executor.
End SeqScan.

(* ===================================================================== *)
(** ** Concrete states used in examples *)
(* ===================================================================== *)

Module Examples.

(** A pool of one frame over an empty disk; page images are numbers and the
    zeroed image is 0. *)
Definition pool0 : BufferPool.t (D:=Z) :=
  BufferPool.create 0 1 {| disk_pages := ∅; next_page_id_ := 0; disk_log := [] |}.

(** [pool0] after [NewPage] (page 0 in frame 0), a write of the image 7 into
    the page, and [UnpinPage(0, true)]: frame 0 is dirty, unpinned and the
    replacer's only candidate. *)
Definition pool_dirty : BufferPool.t (D:=Z) :=
  {| BufferPool.pool_size_ := 1;
     BufferPool.pages_ :=
       [{| BufferPool.page_id_ := 0; BufferPool.pin_count_ := 0;
           BufferPool.is_dirty_ := true; BufferPool.data_ := 7 |}];
     BufferPool.free_list_ := [];
     BufferPool.page_table_ := {[0 := 0]};
     BufferPool.replacer_ :=
       {| LRUReplacer.num_pages_ := 1; LRUReplacer.list_ := [0]; LRUReplacer.map_ := {[0]} |};
     BufferPool.disk_manager_ :=
       {| disk_pages := ∅; next_page_id_ := 1; disk_log := [EvAllocatePage 0] |} |}.

(** [pool_dirty] with the page fetched again (pin count 1). *)
Definition pool_pinned : BufferPool.t (D:=Z) :=
  {| BufferPool.pool_size_ := 1;
     BufferPool.pages_ :=
       [{| BufferPool.page_id_ := 0; BufferPool.pin_count_ := 1;
           BufferPool.is_dirty_ := true; BufferPool.data_ := 7 |}];
     BufferPool.free_list_ := [];
     BufferPool.page_table_ := {[0 := 0]};
     BufferPool.replacer_ :=
       {| LRUReplacer.num_pages_ := 1; LRUReplacer.list_ := []; LRUReplacer.map_ := ∅ |};
     BufferPool.disk_manager_ :=
       {| disk_pages := ∅; next_page_id_ := 1; disk_log := [EvAllocatePage 0] |} |}.

(** A pool of two frames over an empty disk. *)
Definition pool2 : BufferPool.t (D:=Z) :=
  BufferPool.create 0 2 {| disk_pages := ∅; next_page_id_ := 0; disk_log := [] |}.

(** Pages 0 and 1 are created and unpinned, page 1 after the image 7 was
    written into it; creating page 2 then evicts page 0.  At the end frame 0
    holds page 2, frame 1 holds the dirty page 1, and both are unpinned. *)
Definition pool2_run : option (BufferPool.t (D:=Z)) :=
  '(_, b) ← BufferPool.NewPageImpl 0 pool2;
  '(_, b) ← BufferPool.UnpinPageImpl b 0 false;
  '(_, b) ← BufferPool.NewPageImpl 0 b;
  '(_, b) ← BufferPool.UnpinPageImpl (BufferPool.write_bytes b 1 7) 1 true;
  '(_, b) ← BufferPool.NewPageImpl 0 b;
  '(_, b) ← BufferPool.UnpinPageImpl b 2 false;
  Some b.

(** Transactions as [TransactionManager::Begin] creates them. *)
Definition txn_new (id : Z) (level : LockManager.IsolationLevel) : LockManager.Transaction :=
  LockManager.mkTxn id level LockManager.GROWING ∅ ∅.

Definition world_of (txns : list LockManager.Transaction) : LockManager.World :=
  LockManager.mkWorld LockManager.empty
    (list_to_map ((λ t, (LockManager.txn_id_ t, t)) <$> txns)) 0.

Definition rid_a : Z * Z := (1, 0).
Definition rid_b : Z * Z := (1, 1).

(** Three repeatable-read transactions on one row: 1 takes a shared lock,
    2 asks for the exclusive lock and has to wait for 1, then 3 asks for a
    shared lock, which is granted at once because no writer has entered. *)
Definition interleaved : option LockManager.World :=
  let w := world_of [txn_new 1 LockManager.REPEATABLE_READ;
                     txn_new 2 LockManager.REPEATABLE_READ;
                     txn_new 3 LockManager.REPEATABLE_READ;
                     txn_new 4 LockManager.REPEATABLE_READ] in
  '(_, w) ← LockManager.LockShared w 1 rid_a;
  '(_, w) ← LockManager.LockExclusive w 2 rid_a;
  '(_, w) ← LockManager.LockShared w 3 rid_a;
  Some w.

(** ... and then 4 asks for the exclusive lock as well. *)
Definition interleaved4 : option LockManager.World :=
  w ← interleaved;
  '(_, w) ← LockManager.LockExclusive w 4 rid_a;
  Some w.

(** The wait-for graph with the edges 1 -> 3, 3 -> 2 and 2 -> 1. *)
Definition triangle : LockManager.t :=
  LockManager.AddEdge (LockManager.AddEdge (LockManager.AddEdge LockManager.empty 1 3) 3 2) 2 1.

(** Lock tables that produce [triangle]: on each of three rows one
    transaction holds the exclusive lock and another one waits for it. *)
Definition triangle_world : option LockManager.World :=
  let w := world_of [txn_new 1 LockManager.REPEATABLE_READ;
                     txn_new 2 LockManager.REPEATABLE_READ;
                     txn_new 3 LockManager.REPEATABLE_READ] in
  '(_, w) ← LockManager.LockExclusive w 3 (3, 0);
  '(_, w) ← LockManager.LockExclusive w 2 (2, 0);
  '(_, w) ← LockManager.LockExclusive w 1 (1, 0);
  '(_, w) ← LockManager.LockExclusive w 1 (3, 0);
  '(_, w) ← LockManager.LockExclusive w 3 (2, 0);
  '(_, w) ← LockManager.LockExclusive w 2 (1, 0);
  Some w.

(** A repeatable-read transaction takes shared locks on two rows and
    releases the first one. *)
Definition after_first_unlock : option LockManager.World :=
  let w := world_of [txn_new 1 LockManager.REPEATABLE_READ] in
  '(_, w) ← LockManager.LockShared w 1 rid_a;
  '(_, w) ← LockManager.LockShared w 1 rid_b;
  '(_, w) ← LockManager.Unlock w 1 rid_a;
  Some w.

(** Scenario 5 of the specification up to the last request: 1 holds X on
    row a and 2 holds X on row b, and 1 has asked for row b and waits.  The
    request of 2 for row a closes the cycle. *)
Definition deadlocked : option LockManager.World :=
  let w := world_of [txn_new 1 LockManager.REPEATABLE_READ;
                     txn_new 2 LockManager.REPEATABLE_READ] in
  '(_, w) ← LockManager.LockExclusive w 1 rid_a;
  '(_, w) ← LockManager.LockExclusive w 2 rid_b;
  '(_, w) ← LockManager.LockShared w 1 rid_b;
  Some w.

(** A table of two rows with the values 10 and 20, scanned with the
    predicate "value above 15" by transaction 1. *)
Definition two_rows : list ((Z * Z) * Z) := [(rid_a, 10); (rid_b, 20)].
Definition above_15 : option (Z → bool) := Some (λ v, bool_decide (15 < v)).

(** Transaction 2 holds the exclusive lock on row a when the read-committed
    transaction 1 starts to scan [two_rows]: the scan goes to sleep in
    [LockShared].  Then 2 releases the row, which wakes the scan up. *)
Definition scan_woken : option (LockManager.World * SeqScan.state (Tuple:=Z) * nat) :=
  let w := world_of [txn_new 1 LockManager.READ_COMMITTED;
                     txn_new 2 LockManager.REPEATABLE_READ] in
  '(_, w) ← LockManager.LockExclusive w 2 rid_a;
  '(res, w, st) ← SeqScan.scan above_15 (λ v : Z, v) 1 two_rows w [];
  match res with
  | SeqScan.Suspended node =>
      '(_, w) ← LockManager.Unlock w 2 rid_a;
      Some (w, st, node)
  | _ => None
  end.

(** The comparator of integer keys. *)
Definition int_comparator (a b : Z) : Z :=
  match a ?= b with Lt => -1 | Eq => 0 | Gt => 1 end.

(** A tree as the constructor leaves it; page 0 is the header page, so the
    next page id is 1. *)
Definition empty_tree : BPlusTree.t (KeyType:=Z) (ValueType:=Z * Z) :=
  BPlusTree.mk "index" INVALID_PAGE_ID 4 4 (BPlusTree.mkStore ∅ 1 []).

Definition no_latches : BPlusTree.Transaction := BPlusTree.mkTxn [] ∅.

(** [empty_tree] after the insertion of the keys 5, 3, 8, 1, 4, 7, 9, 2, 6
    (scenario 3 of the specification); the value of key k is the Rid (k, 0). *)
Definition nine_keys : option (BPlusTree.t (KeyType:=Z) (ValueType:=Z * Z)) :=
  foldl (λ acc k, tr ← acc;
                  '(_, tr, _) ← BPlusTree.Insert int_comparator 8 tr k (k, 0) no_latches;
                  Some tr)
        (Some empty_tree) [5; 3; 8; 1; 4; 7; 9; 2; 6].

End Examples.

(* ********************************************************************* *)
(** * Properties *)
(* ********************************************************************* *)

(* ===================================================================== *)
(** ** Buffer pool *)
(* ===================================================================== *)

Section ReplacerFacts.
Import LRUReplacer.

Lemma erase_node_subset (f x : Z) (l : list Z) : x ∈ erase_node f l → x ∈ l.
Proof.
  induction l as [|y l IH]; simpl; [done|].
  case_decide; set_solver.
Qed.

Lemma erase_node_NoDup (f : Z) (l : list Z) : NoDup l → NoDup (erase_node f l).
Proof.
  induction 1 as [|y l Hy Hl IH]; simpl; [constructor|].
  case_decide; [done|]. constructor; [|done].
  intros Hin. apply Hy. by eapply erase_node_subset.
Qed.

Lemma erase_node_gone (f : Z) (l : list Z) : NoDup l → f ∉ erase_node f l.
Proof.
  induction 1 as [|y l Hy Hl IH]; simpl; [set_solver|].
  case_decide; [by subst|]. set_solver.
Qed.

Lemma erase_node_other (f x : Z) (l : list Z) : x ≠ f → x ∈ l → x ∈ erase_node f l.
Proof.
  intros Hne. induction l as [|y l IH]; simpl; [done|].
  case_decide; set_solver.
Qed.

(** A duplicate-free list of frame ids below [n] that misses one of them is
    shorter than [n]. *)
Lemma room_for_absent_frame (n : nat) (f : Z) (l : list Z) :
  NoDup l → (∀ x, x ∈ l → 0 ≤ x < Z.of_nat n) → 0 ≤ f < Z.of_nat n → f ∉ l →
  (length l < n)%nat.
Proof.
  intros Hnd Hrange Hf Hnot.
  assert (Hsub : f :: l ⊆+ (Z.of_nat <$> seq 0 n)).
  { apply NoDup_submseteq; [by constructor|].
    intros x Hx. apply list_elem_of_fmap. exists (Z.to_nat x).
    assert (0 ≤ x < Z.of_nat n) by (set_unfold in Hx; destruct Hx as [->|Hx]; auto).
    split; [lia|]. apply elem_of_seq. lia. }
  apply submseteq_length in Hsub.
  rewrite length_fmap, length_seq in Hsub. simpl in Hsub. lia.
Qed.

Lemma Unpin_wf (r : t) (f : Z) : wf r → wf (Unpin r f).
Proof.
  intros [Hnd Hmap]. unfold Unpin. case_decide as Hc; [done|].
  split; simpl.
  - constructor; [|done]. rewrite <- Hmap. tauto.
  - intros x. rewrite elem_of_union, elem_of_singleton, elem_of_cons, Hmap. done.
Qed.

Lemma Pin_wf (r : t) (f : Z) : wf r → wf (Pin r f).
Proof.
  intros [Hnd Hmap]. unfold Pin. case_decide as Hc; [|done].
  split; simpl.
  - by apply erase_node_NoDup.
  - intros x. rewrite elem_of_difference, elem_of_singleton, Hmap. split.
    + intros [Hx Hne]. by apply erase_node_other.
    + intros Hx. split; [by eapply erase_node_subset|].
      intros ->. by eapply erase_node_gone.
Qed.

Lemma Pin_not_elem (r : t) (f : Z) : wf r → f ∉ list_ (Pin r f).
Proof.
  intros [Hnd Hmap]. unfold Pin. case_decide as Hc; simpl.
  - by apply erase_node_gone.
  - by rewrite <- Hmap.
Qed.

(** After [Unpin(f)] the frame is a candidate for eviction, provided the
    replacer has room for every frame of the pool. *)
Lemma Unpin_elem (r : t) (f : Z) :
  wf r → (∀ x, x ∈ list_ r → 0 ≤ x < Z.of_nat (num_pages_ r)) →
  0 ≤ f < Z.of_nat (num_pages_ r) →
  f ∈ list_ (Unpin r f).
Proof.
  intros [Hnd Hmap] Hrange Hf. unfold Unpin.
  case_decide as Hc; simpl; [|set_solver].
  destruct (decide (f ∈ list_ r)) as [|Hnot]; [done|].
  destruct Hc as [Hfull|Hin]; [|by apply Hmap in Hin].
  pose proof (room_for_absent_frame _ _ _ Hnd Hrange Hf Hnot). unfold Size in Hfull. lia.
Qed.

Lemma Victim_wf (r : t) (f0 : Z) ok f r' :
  wf r → Victim r f0 = (ok, f, r') →
  wf r' ∧ num_pages_ r' = num_pages_ r ∧ (∀ x, x ∈ list_ r' → x ∈ list_ r).
Proof.
  intros [Hnd Hmap]. unfold Victim. case_decide as Hsz.
  { intros [= <- <- <-]. done. }
  intros [= <- <- <-]. simpl.
  assert (Hne : list_ r ≠ []) by (unfold Size in Hsz; by destruct (list_ r)).
  pose proof (app_removelast_last f0 Hne) as Hsplit.
  assert (Hnd' : NoDup (removelast (list_ r) ++ [List.last (list_ r) f0]))
    by (by rewrite <- Hsplit).
  apply NoDup_app in Hnd' as (Hnd1 & Hdisj & _).
  split; [split|split]; [done| |done|].
  - intros x. simpl. rewrite elem_of_difference, elem_of_singleton, Hmap.
    rewrite Hsplit at 1. rewrite elem_of_app, list_elem_of_singleton. split.
    + intros [[?|?] ?]; done.
    + intros Hx. split; [by left|]. intros ->. eapply Hdisj; [done|set_solver].
  - intros x Hx. rewrite Hsplit. set_solver.
Qed.

End ReplacerFacts.

Section BufferPoolFacts.
Import BufferPool.
Context {D : Type}.
Variable zero : D.
Implicit Types (b : BufferPool.t (D:=D)) (pg : Page (D:=D)).

Lemma frame_at_lt b f pg :
  frame_at b f = Some pg → 0 ≤ f < Z.of_nat (length (pages_ b)).
Proof.
  unfold frame_at. case_decide; [|done].
  intros Hlt%lookup_lt_Some. lia.
Qed.

Lemma frame_at_set_frame_eq b f pg pg' :
  frame_at b f = Some pg → frame_at (set_frame b f pg') f = Some pg'.
Proof.
  intros Hf. pose proof (frame_at_lt _ _ _ Hf).
  unfold frame_at, set_frame in *; simpl. case_decide; [|lia].
  apply list_lookup_insert_eq. lia.
Qed.

Lemma frame_at_set_frame_ne b f g pg' :
  0 ≤ f → f ≠ g → frame_at (set_frame b f pg') g = frame_at b g.
Proof.
  intros Hf Hne. unfold frame_at, set_frame; simpl. case_decide; [|done].
  apply list_lookup_insert_ne. lia.
Qed.

Lemma create_wf (n : nat) (dm : DiskManager D) : wf (create zero n dm).
Proof.
  unfold wf, create; simpl. repeat split.
  - constructor.
  - set_solver.
  - set_solver.
  - by rewrite length_replicate.
  - set_solver.
  - set_solver.
  - intros p f. by rewrite lookup_empty.
Qed.

(** C8.  [UnpinPageImpl(page_id, is_dirty)] returns [false], changing
    nothing, precisely when the page is not resident or its pin count is
    already 0.  Otherwise it returns [true], the frame's dirty flag becomes
    its old value or-ed with [is_dirty] (so a dirty frame stays dirty), its
    pin count drops by one, and the replacer is touched exactly when the
    count reaches 0, after which the frame is among its eviction
    candidates. *)
Theorem C8_unpin_page b page_id is_dirty :
  wf b →
  ((∃ b', UnpinPageImpl b page_id is_dirty = Some (false, b')) ↔
   (page_table_ b !! page_id = None ∨
    ∃ f pg, resident b page_id f pg ∧ pin_count_ pg = 0)) ∧
  (∀ b', UnpinPageImpl b page_id is_dirty = Some (false, b') → b' = b) ∧
  (∀ f pg, resident b page_id f pg → pin_count_ pg ≠ 0 →
     ∃ b', UnpinPageImpl b page_id is_dirty = Some (true, b') ∧
       frame_at b' f =
         Some {| page_id_ := page_id_ pg; pin_count_ := pin_count_ pg - 1;
                 is_dirty_ := is_dirty_ pg || is_dirty; data_ := data_ pg |} ∧
       (is_dirty_ pg = true → ∀ pg', frame_at b' f = Some pg' → is_dirty_ pg' = true) ∧
       (pin_count_ pg - 1 = 0 → f ∈ LRUReplacer.list_ (replacer_ b')) ∧
       (pin_count_ pg - 1 ≠ 0 → replacer_ b' = replacer_ b) ∧
       page_table_ b' = page_table_ b ∧
       free_list_ b' = free_list_ b ∧
       disk_manager_ b' = disk_manager_ b).
Proof.
  intros (Hrwf & Hnum & Hrange & Hpt).
  unfold UnpinPageImpl, resident.
  destruct (page_table_ b !! page_id) as [f|] eqn:Hlk.
  - destruct (Hpt _ _ Hlk) as (pg & Hfr & Hpin). rewrite Hfr. simpl.
    pose proof (frame_at_lt _ _ _ Hfr) as Hlt.
    destruct (decide (pin_count_ pg ≤ 0)) as [Hle|Hgt].
    + assert (pin_count_ pg = 0) by lia.
      split; [|split].
      * split; [|by eauto]. intros _. right. exists f, pg. done.
      * by intros b' [= <-].
      * intros f' pg' [[= <-] Hfr'] Hne. congruence.
    + split; [|split].
      * split; [by intros [b' [=]]|].
        intros [[=]|(f' & pg' & [[= <-] Hfr'] & Hz)]. rewrite Hfr in Hfr'. simplify_eq. lia.
      * by intros b' [=].
      * intros f' pg' [[= <-] Hfr'] Hne. rewrite Hfr in Hfr'. simplify_eq.
        eexists. split; [done|].
        assert (Hframe : ∀ r,
          frame_at (set_replacer (set_frame b f
             (set_pin_count (set_dirty pg' (is_dirty_ pg' || is_dirty)) (pin_count_ pg' - 1))) r) f =
          Some {| page_id_ := page_id_ pg'; pin_count_ := pin_count_ pg' - 1;
                  is_dirty_ := is_dirty_ pg' || is_dirty; data_ := data_ pg' |}).
        { intros r. unfold set_replacer, frame_at; simpl. case_decide; [|lia].
          apply list_lookup_insert_eq. lia. }
        simpl. case_decide as Hz; simpl.
        -- split; [apply Hframe|]. split.
           { intros Hd pg2. rewrite Hframe. intros [= <-]. simpl. by rewrite Hd. }
           split; [|split; [lia|done]].
           intros _. apply Unpin_elem; [done|by rewrite Hnum|by rewrite Hnum].
        -- split; [by eapply frame_at_set_frame_eq|]. split.
           { intros Hd pg2. erewrite frame_at_set_frame_eq by done.
             intros [= <-]. simpl. by rewrite Hd. }
           split; [lia|done].
  - split; [|split].
    + split; [by left|by eauto].
    + by intros b' [= <-].
    + by intros f pg [[=] _].
Qed.

Lemma GetVictimFrameId_pages b f b1 :
  GetVictimFrameId b = (f, b1) →
  pages_ b1 = pages_ b ∧ page_table_ b1 = page_table_ b ∧
  disk_manager_ b1 = disk_manager_ b.
Proof.
  unfold GetVictimFrameId. destruct (free_list_ b) as [|g rest].
  - destruct (LRUReplacer.Victim _ _) as [[ok v] r]. by intros [= <- <-].
  - by intros [= <- <-].
Qed.

Lemma GetVictimFrameId_frame_at b f b1 g :
  GetVictimFrameId b = (f, b1) → frame_at b1 g = frame_at b g.
Proof.
  intros (Hp & _ & _)%GetVictimFrameId_pages. unfold frame_at. by rewrite Hp.
Qed.

(** C5, as the code has it.  When [FetchPageImpl] or [NewPageImpl] takes a
    dirty frame for reuse, the frame's bytes are written to disk under the
    frame's old page id, and that write is the disk manager's next call: it
    comes before the read that overwrites the frame (Fetch), respectively
    before the allocation and the zeroing (New).  [DeletePageImpl] writes
    nothing back: deleting an unpinned resident page, dirty or not, only
    deallocates it, takes it out of the page table, and returns the frame
    to the free list marked clean. *)
Theorem C5_write_back_before_reuse b :
  (∀ f b1 pg,
     GetVictimFrameId b = (f, b1) →
     f ≠ INVALID_PAGE_ID →
     frame_at b f = Some pg →
     is_dirty_ pg = true →
     (∀ page_id, page_table_ b !! page_id = None →
        ∃ b', FetchPageImpl zero b page_id = Some (Some f, b') ∧
          disk_log (disk_manager_ b') =
            disk_log (disk_manager_ b)
              ++ [EvWritePage (page_id_ pg) (data_ pg); EvReadPage page_id] ∧
          disk_pages (disk_manager_ b') !! page_id_ pg = Some (data_ pg) ∧
          ∃ bytes, frame_at b' f =
            Some {| page_id_ := page_id; pin_count_ := 1; is_dirty_ := false;
                    data_ := bytes |}) ∧
     (∃ b', NewPageImpl zero b = Some (Some (f, next_page_id_ (disk_manager_ b)), b') ∧
          disk_log (disk_manager_ b') =
            disk_log (disk_manager_ b)
              ++ [EvWritePage (page_id_ pg) (data_ pg);
                  EvAllocatePage (next_page_id_ (disk_manager_ b))] ∧
          disk_pages (disk_manager_ b') !! page_id_ pg = Some (data_ pg) ∧
          frame_at b' f =
            Some {| page_id_ := next_page_id_ (disk_manager_ b); pin_count_ := 1;
                    is_dirty_ := false; data_ := zero |})) ∧
  (∀ page_id fd pgd, resident b page_id fd pgd → pin_count_ pgd ≤ 0 →
     ∃ b', DeletePageImpl zero b page_id = Some (true, b') ∧
       disk_log (disk_manager_ b') =
         disk_log (disk_manager_ b) ++ [EvDeallocatePage page_id] ∧
       disk_pages (disk_manager_ b') = disk_pages (disk_manager_ b) ∧
       page_table_ b' = delete (page_id_ pgd) (page_table_ b) ∧
       free_list_ b' = free_list_ b ++ [fd] ∧
       frame_at b' fd =
         Some {| page_id_ := INVALID_PAGE_ID; pin_count_ := 0; is_dirty_ := false;
                 data_ := data_ pgd |}).
Proof.
  split.
  - intros f b1 pg Hv Hvalid Hfr Hdirty.
    pose proof (GetVictimFrameId_pages _ _ _ Hv) as (Hpages & Hpt & Hdm).
    pose proof (GetVictimFrameId_frame_at _ _ _ f Hv) as Hfr1. rewrite Hfr in Hfr1.
    pose proof (frame_at_lt _ _ _ Hfr) as Hlt.
    assert (Hlt1 : (Z.to_nat f < length (pages_ b1))%nat) by (rewrite Hpages; lia).
    split.
    + intros page_id Hnone. unfold FetchPageImpl. rewrite Hnone, Hv.
      case_decide; [done|]. rewrite Hfr1. simpl.
      unfold write_back_if_dirty. rewrite Hdirty. simpl.
      eexists. split; [done|]. simpl. rewrite Hdm. split; [|split].
      * by rewrite <- app_assoc.
      * apply lookup_insert_eq.
      * eexists. unfold frame_at; simpl. case_decide; [|lia].
        by apply list_lookup_insert_eq.
    + unfold NewPageImpl. rewrite Hv.
      case_decide; [done|]. rewrite Hfr1. simpl.
      unfold write_back_if_dirty. rewrite Hdirty. simpl.
      eexists. rewrite Hdm. split; [done|]. simpl. split; [|split].
      * by rewrite <- app_assoc.
      * apply lookup_insert_eq.
      * unfold frame_at; simpl. case_decide; [|lia].
        by apply list_lookup_insert_eq.
  - intros page_id fd pgd [Hlk Hfd] Hpin. unfold DeletePageImpl.
    rewrite Hlk, Hfd. simpl. case_decide; [lia|].
    pose proof (frame_at_lt _ _ _ Hfd).
    eexists. split; [done|]. simpl. repeat split.
    unfold frame_at; simpl. case_decide; [|lia].
    apply list_lookup_insert_eq. lia.
Qed.

(** *** The invariant is kept *)

Lemma wf_set_replacer b r :
  wf b → LRUReplacer.wf r →
  LRUReplacer.num_pages_ r = LRUReplacer.num_pages_ (replacer_ b) →
  (∀ x, x ∈ LRUReplacer.list_ r → x ∈ LRUReplacer.list_ (replacer_ b)) →
  wf (set_replacer b r).
Proof.
  intros (Hr & Hn & Hrange & Hpt) Hr' Hn' Hsub. unfold wf; simpl.
  split; [done|]. split; [congruence|]. split; [|done].
  intros f Hf. auto.
Qed.

Lemma Pin_subset (r : LRUReplacer.t) (f x : Z) :
  x ∈ LRUReplacer.list_ (LRUReplacer.Pin r f) → x ∈ LRUReplacer.list_ r.
Proof.
  unfold LRUReplacer.Pin. case_decide; simpl; [|done]. apply erase_node_subset.
Qed.

Lemma Pin_num_pages (r : LRUReplacer.t) (f : Z) :
  LRUReplacer.num_pages_ (LRUReplacer.Pin r f) = LRUReplacer.num_pages_ r.
Proof. unfold LRUReplacer.Pin. by case_decide. Qed.

Lemma GetVictimFrameId_wf b f b1 : GetVictimFrameId b = (f, b1) → wf b → wf b1.
Proof.
  unfold GetVictimFrameId. destruct (free_list_ b) as [|g rest].
  - destruct (LRUReplacer.Victim _ _) as [[ok v] r] eqn:Hv. intros [= <- <-] Hwf.
    pose proof Hwf as (Hr & _).
    destruct (Victim_wf _ _ _ _ _ Hr Hv) as (Hr' & Hn & Hsub).
    by apply wf_set_replacer.
  - intros [= <- <-] Hwf. exact Hwf.
Qed.

(** Putting a frame with a non-negative pin count in place, re-targeting
    the page table at it and pinning it in the replacer keeps the
    invariant. *)
Lemma wf_reuse_frame b f pg pg' pt dm :
  wf b → frame_at b f = Some pg → 0 ≤ pin_count_ pg' →
  (∀ p g, pt !! p = Some g → g = f ∨ page_table_ b !! p = Some g) →
  wf (set_replacer
        (set_frame (set_disk (set_page_table b pt) dm) f pg')
        (LRUReplacer.Pin (replacer_ b) f)).
Proof.
  intros (Hr & Hn & Hrange & Hpt) Hfr Hpin Hsub.
  pose proof (frame_at_lt _ _ _ Hfr) as Hlt.
  unfold wf; simpl. rewrite length_insert, Pin_num_pages.
  split; [by apply Pin_wf|]. split; [done|]. split.
  - intros x Hx%Pin_subset. auto.
  - intros p g Hlk. destruct (decide (g = f)) as [->|Hne].
    + exists pg'. split; [|done]. unfold frame_at; simpl. case_decide; [|lia].
      apply list_lookup_insert_eq. lia.
    + destruct (Hsub _ _ Hlk) as [?|Hold]; [done|].
      destruct (Hpt _ _ Hold) as (pg0 & Hfr0 & Hpin0). exists pg0. split; [|done].
      unfold frame_at in *; simpl. case_decide; [|done].
      rewrite list_lookup_insert_ne; [done|]. lia.
Qed.

Lemma lookup_retarget (pt : gmap Z Z) (old new f p g : Z) :
  <[new := f]> (delete old pt) !! p = Some g → g = f ∨ pt !! p = Some g.
Proof.
  destruct (decide (new = p)) as [->|Hne].
  - rewrite lookup_insert_eq. intros [= <-]. by left.
  - rewrite lookup_insert_ne by done. intros Hd. right.
    destruct (decide (old = p)) as [->|Hne2].
    + by rewrite lookup_delete_eq in Hd.
    + by rewrite lookup_delete_ne in Hd.
Qed.

(** Every operation of the pool that completes keeps [wf]; together with
    [create_wf] this makes [wf] hold in every state the pool reaches. *)
Theorem wf_preserved b :
  wf b →
  (∀ page_id r b', FetchPageImpl zero b page_id = Some (r, b') → wf b') ∧
  (∀ page_id d r b', UnpinPageImpl b page_id d = Some (r, b') → wf b') ∧
  (∀ r b', NewPageImpl zero b = Some (r, b') → wf b') ∧
  (∀ page_id r b', DeletePageImpl zero b page_id = Some (r, b') → wf b').
Proof.
  intros Hwf. pose proof Hwf as (Hr & Hn & Hrange & Hpt).
  split; [|split; [|split]].
  - intros page_id r b'. unfold FetchPageImpl.
    destruct (page_table_ b !! page_id) as [f|] eqn:Hlk.
    + destruct (Hpt _ _ Hlk) as (pg & Hfr & Hpin). rewrite Hfr. simpl.
      intros [= <- <-].
      pose proof (wf_reuse_frame b f pg (set_pin_count pg (pin_count_ pg + 1))
                    (page_table_ b) (disk_manager_ b) Hwf Hfr) as Hreuse.
      simpl in Hreuse. destruct b. apply Hreuse; [lia|auto].
    + destruct (GetVictimFrameId b) as [f b1] eqn:Hv.
      pose proof (GetVictimFrameId_wf _ _ _ Hv Hwf) as Hwf1.
      case_decide; [by intros [= <- <-]|].
      destruct (frame_at b1 f) as [pg|] eqn:Hfr; [|done]. simpl.
      intros [= <- <-]. unfold write_back_if_dirty.
      destruct (is_dirty_ pg).
      * pose proof (wf_reuse_frame b1 f pg
                      {| page_id_ := page_id; pin_count_ := 1; is_dirty_ := false;
                         data_ := default zero
                           (<[page_id_ pg := data_ pg]> (disk_pages (disk_manager_ b1)) !! page_id) |}
                      (<[page_id := f]> (delete (page_id_ pg) (page_table_ b1)))
                      (ReadPage zero (WritePage (disk_manager_ b1) (page_id_ pg) (data_ pg))
                         page_id).2 Hwf1 Hfr) as Hreuse.
        apply Hreuse; [simpl; lia|]. intros p g. apply lookup_retarget.
      * pose proof (wf_reuse_frame b1 f pg
                      {| page_id_ := page_id; pin_count_ := 1; is_dirty_ := false;
                         data_ := default zero (disk_pages (disk_manager_ b1) !! page_id) |}
                      (<[page_id := f]> (delete (page_id_ pg) (page_table_ b1)))
                      (ReadPage zero (disk_manager_ b1) page_id).2 Hwf1 Hfr) as Hreuse.
        apply Hreuse; [simpl; lia|]. intros p g. apply lookup_retarget.
  - intros page_id d r b'. unfold UnpinPageImpl.
    destruct (page_table_ b !! page_id) as [f|] eqn:Hlk; [|by intros [= <- <-]].
    destruct (Hpt _ _ Hlk) as (pg & Hfr & Hpin). rewrite Hfr. simpl.
    case_decide; [by intros [= <- <-]|].
    pose proof (frame_at_lt _ _ _ Hfr) as Hlt.
    assert (Hwf2 : wf (set_frame b f
              (set_pin_count (set_dirty pg (is_dirty_ pg || d)) (pin_count_ pg - 1)))).
    { unfold wf; simpl. rewrite length_insert. split; [done|]. split; [done|].
      split; [done|]. intros p g Hlk'. destruct (decide (g = f)) as [->|Hne].
      - eexists. split.
        + unfold frame_at; simpl. case_decide; [|lia]. apply list_lookup_insert_eq. lia.
        + simpl. lia.
      - destruct (Hpt _ _ Hlk') as (pg0 & Hfr0 & Hpin0). exists pg0. split; [|done].
        unfold frame_at in *; simpl. case_decide; [|done].
        rewrite list_lookup_insert_ne; [done|]. lia. }
    simpl. case_decide; intros [= <- <-]; [|done].
    destruct Hwf2 as (Hr2 & Hn2 & Hrange2 & Hpt2). simpl in *.
    unfold wf; simpl. split; [by apply Unpin_wf|]. split.
    { unfold LRUReplacer.Unpin. by case_decide. }
    split; [|done]. intros x. unfold LRUReplacer.Unpin. case_decide; simpl; [auto|].
    rewrite elem_of_cons. intros [->|Hx]; [|auto]. rewrite length_insert. lia.
  - intros r b'. unfold NewPageImpl.
    destruct (GetVictimFrameId b) as [f b1] eqn:Hv.
    pose proof (GetVictimFrameId_wf _ _ _ Hv Hwf) as Hwf1.
    case_decide; [by intros [= <- <-]|].
    destruct (frame_at b1 f) as [pg|] eqn:Hfr; [|done]. simpl.
    intros [= <- <-]. unfold write_back_if_dirty.
    destruct (is_dirty_ pg).
    + pose proof (wf_reuse_frame b1 f pg
                    (update zero pg (next_page_id_ (disk_manager_ b1)) 1 false true)
                    (<[next_page_id_ (disk_manager_ b1) := f]>
                       (delete (page_id_ pg) (page_table_ b1)))
                    (AllocatePage (WritePage (disk_manager_ b1) (page_id_ pg) (data_ pg))).2
                    Hwf1 Hfr) as Hreuse.
      apply Hreuse; [simpl; lia|]. intros p g. apply lookup_retarget.
    + pose proof (wf_reuse_frame b1 f pg
                    (update zero pg (next_page_id_ (disk_manager_ b1)) 1 false true)
                    (<[next_page_id_ (disk_manager_ b1) := f]>
                       (delete (page_id_ pg) (page_table_ b1)))
                    (AllocatePage (disk_manager_ b1)).2 Hwf1 Hfr) as Hreuse.
      apply Hreuse; [simpl; lia|]. intros p g. apply lookup_retarget.
  - intros page_id r b'. unfold DeletePageImpl.
    destruct (page_table_ b !! page_id) as [f|] eqn:Hlk; [|by intros [= <- <-]].
    destruct (Hpt _ _ Hlk) as (pg & Hfr & Hpin). rewrite Hfr. simpl.
    case_decide; [by intros [= <- <-]|]. intros [= <- <-].
    pose proof (frame_at_lt _ _ _ Hfr) as Hlt.
    unfold wf; simpl. rewrite length_insert. split; [done|]. split; [done|].
    split; [done|]. intros p g Hlk'.
    assert (Hold : page_table_ b !! p = Some g).
    { destruct (decide (page_id_ pg = p)) as [Heq|Hne].
      - rewrite Heq in Hlk'. by rewrite lookup_delete_eq in Hlk'.
      - by rewrite lookup_delete_ne in Hlk'. }
    destruct (decide (g = f)) as [->|Hne].
    + eexists. split.
      * unfold frame_at; simpl. case_decide; [|lia]. apply list_lookup_insert_eq. lia.
      * simpl. lia.
    + destruct (Hpt _ _ Hold) as (pg0 & Hfr0 & Hpin0). exists pg0. split; [|done].
      unfold frame_at in *; simpl. case_decide; [|done].
      rewrite list_lookup_insert_ne; [done|]. lia.
Qed.

End BufferPoolFacts.

Section BufferPoolExamples.
Import BufferPool Examples.

(** The example states are reached by the operations themselves. *)
Lemma pool_dirty_reached :
  ∃ b1, NewPageImpl 0 pool0 = Some (Some (0, 0), b1) ∧
        UnpinPageImpl (write_bytes b1 0 7) 0 true = Some (true, pool_dirty) ∧
        FetchPageImpl 0 pool_dirty 0 = Some (Some 0, pool_pinned).
Proof. eexists. repeat split; vm_compute; reflexivity. Qed.

Lemma pool_pinned_wf : wf pool_pinned.
Proof.
  unfold wf, pool_pinned; simpl. repeat split.
  - constructor.
  - set_solver.
  - set_solver.
  - set_solver.
  - set_solver.
  - intros p f [<- <-]%lookup_singleton_Some. eexists. split; [reflexivity|simpl; lia].
Qed.

Lemma C8_unpin_page_witness :
  wf pool_pinned ∧
  ∃ b', UnpinPageImpl pool_pinned 0 false = Some (true, b') ∧
        frame_at b' 0 =
          Some {| page_id_ := 0; pin_count_ := 0; is_dirty_ := true; data_ := 7 |} ∧
        0 ∈ LRUReplacer.list_ (replacer_ b').
Proof.
  split; [exact pool_pinned_wf|].
  destruct (C8_unpin_page pool_pinned 0 false pool_pinned_wf) as (_ & _ & Htrue).
  destruct (Htrue 0 {| page_id_ := 0; pin_count_ := 1; is_dirty_ := true; data_ := 7 |})
    as (b' & Hrun & Hframe & _ & Hrepl & _).
  - split; reflexivity.
  - simpl; lia.
  - exists b'. split; [exact Hrun|]. split; [exact Hframe|]. apply Hrepl. reflexivity.
Defined.

Lemma C5_write_back_before_reuse_witness :
  (∃ b', NewPageImpl 0 pool_dirty = Some (Some (0, 1), b') ∧
         disk_log (disk_manager_ b') = [EvAllocatePage 0; EvWritePage 0 7; EvAllocatePage 1] ∧
         disk_pages (disk_manager_ b') !! 0 = Some 7) ∧
  (∃ b', DeletePageImpl 0 pool_dirty 0 = Some (true, b') ∧
         disk_log (disk_manager_ b') = [EvAllocatePage 0; EvDeallocatePage 0] ∧
         free_list_ b' = [0]).
Proof.
  destruct (C5_write_back_before_reuse 0 pool_dirty) as [Hreuse Hdelete]. split.
  - destruct (Hreuse 0
                (set_replacer pool_dirty
                   {| LRUReplacer.num_pages_ := 1; LRUReplacer.list_ := [];
                      LRUReplacer.map_ := {[0]} ∖ {[0]} |})
                {| page_id_ := 0; pin_count_ := 0; is_dirty_ := true; data_ := 7 |})
      as (_ & (b' & Hrun & Hlog & Hdisk & _)).
    + reflexivity.
    + unfold INVALID_PAGE_ID; lia.
    + reflexivity.
    + reflexivity.
    + exists b'. split; [exact Hrun|]. split; [exact Hlog|exact Hdisk].
  - destruct (Hdelete 0 0
                {| page_id_ := 0; pin_count_ := 0; is_dirty_ := true; data_ := 7 |})
      as (b' & Hrun & Hlog & _ & _ & Hfree & _).
    + split; reflexivity.
    + simpl; lia.
    + exists b'. split; [exact Hrun|]. split; [exact Hlog|exact Hfree].
Defined.

(** C5 fails for [DeletePageImpl]: deleting the dirty, unpinned page 0 of
    [pool_dirty] succeeds, the only disk call it makes is the deallocation,
    and the image 7 the frame held is not on disk afterwards. *)
Lemma C5_delete_dirty_counterexample :
  resident pool_dirty 0 0 {| page_id_ := 0; pin_count_ := 0; is_dirty_ := true; data_ := 7 |} ∧
  ∃ b', DeletePageImpl 0 pool_dirty 0 = Some (true, b') ∧
        disk_log (disk_manager_ b') = [EvAllocatePage 0; EvDeallocatePage 0] ∧
        disk_pages (disk_manager_ b') !! 0 = None ∧
        page_table_ b' !! 0 = None.
Proof.
  split; [split; reflexivity|].
  eexists. split; [vm_compute; reflexivity|]. repeat split.
Qed.

End BufferPoolExamples.

(* ===================================================================== *)
(** ** Lock manager *)
(* ===================================================================== *)

Section DeadlockDetection.
Import LockManager Examples.

Implicit Types (l : LockManager.t) (q : LockRequestQueue) (rs : list (nat * LockRequest)).

Lemma has_edge_true l t1 t2 :
  has_edge l t1 t2 = true ↔ t2 ∈ neighbors_of (waits_for_ l) t1.
Proof. unfold has_edge. apply bool_decide_eq_true. Qed.

Lemma AddEdge_edge l a b t1 t2 :
  t2 ∈ neighbors_of (waits_for_ (AddEdge l a b)) t1 ↔
  t2 ∈ neighbors_of (waits_for_ l) t1 ∨ (t1 = a ∧ t2 = b).
Proof.
  unfold AddEdge, neighbors_of; simpl.
  destruct (decide (a = t1)) as [->|Hne].
  - rewrite lookup_insert_eq. simpl. case_bool_decide as Hin.
    + split; [by left|]. intros [?|[_ ->]]; done.
    + rewrite elem_of_app, list_elem_of_singleton. naive_solver.
  - rewrite lookup_insert_ne by done. naive_solver.
Qed.

Lemma AddEdge_lock_table l a b : lock_table_ (AddEdge l a b) = lock_table_ l.
Proof. reflexivity. Qed.

(** The inner [for (auto &t2 : grants)] loop. *)
Lemma add_edges_edge l a grants t1 t2 :
  t2 ∈ neighbors_of (waits_for_ (foldl (λ l t, AddEdge l a t) l grants)) t1 ↔
  t2 ∈ neighbors_of (waits_for_ l) t1 ∨ (t1 = a ∧ t2 ∈ grants).
Proof.
  revert l. induction grants as [|g grants IH]; intros l; simpl.
  - set_solver.
  - rewrite IH, AddEdge_edge, elem_of_cons. naive_solver.
Qed.

(** The second [while] loop over a queue. *)
Lemma scan_rest_edge l rid grants rest t1 t2 :
  t2 ∈ neighbors_of
         (waits_for_
            (foldl (λ l (it : nat * LockRequest),
                      let l := foldl (λ l t, AddEdge l (txn_id it.2) t) l grants in
                      set_wait_rids l (<[txn_id it.2 := rid]> (wait_rids_ l)))
                   l rest)) t1 ↔
  t2 ∈ neighbors_of (waits_for_ l) t1 ∨
  (t2 ∈ grants ∧ t1 ∈ (λ r : nat * LockRequest, txn_id r.2) <$> rest).
Proof.
  revert l. induction rest as [|r rest IH]; intros l; simpl.
  - set_solver.
  - rewrite IH. simpl. rewrite add_edges_edge, elem_of_cons. naive_solver.
Qed.

Lemma scan_queue_edge l rid q t1 t2 :
  t2 ∈ neighbors_of (waits_for_ (scan_queue l rid q)) t1 ↔
  t2 ∈ neighbors_of (waits_for_ l) t1 ∨
  (t2 ∈ (leading_grants (request_queue_ q)).1 ∧
   t1 ∈ (λ r : nat * LockRequest, txn_id r.2) <$> (leading_grants (request_queue_ q)).2).
Proof.
  unfold scan_queue. destruct (leading_grants _) as [grants rest]. apply scan_rest_edge.
Qed.

Lemma scan_queues_edge l (es : list (RID * LockRequestQueue)) t1 t2 :
  t2 ∈ neighbors_of
         (waits_for_ (foldl (λ l (e : RID * LockRequestQueue), scan_queue l e.1 e.2) l es)) t1 ↔
  t2 ∈ neighbors_of (waits_for_ l) t1 ∨
  ∃ e, e ∈ es ∧
       t2 ∈ (leading_grants (request_queue_ e.2)).1 ∧
       t1 ∈ (λ r : nat * LockRequest, txn_id r.2) <$> (leading_grants (request_queue_ e.2)).2.
Proof.
  revert l. induction es as [|e es IH]; intros l; simpl.
  - split; [by left|]. intros [?|(e & He & _)]; [done|]. by apply elem_of_nil in He.
  - rewrite IH, scan_queue_edge. split.
    + intros [[?|?]|(e' & He' & ?)]; [by left| |].
      * right. exists e. split; [by left|done].
      * right. exists e'. split; [by right|done].
    + intros [?|(e' & He' & ?)]; [by left; left|].
      apply elem_of_cons in He' as [->|He']; [by left; right|].
      right. by exists e'.
Qed.

(** What the graph construction computes.  Started on an empty graph, as in
    every detection round, it yields the edge t1 -> t2 exactly when, in the
    queue of some Rid, t2 has a request in the run of granted requests at
    the head of the queue and t1 has a request, granted or not, behind that
    run. *)
Theorem build_waits_for_edges l t1 t2 :
  waits_for_ l = ∅ →
  has_edge (build_waits_for l) t1 t2 = true ↔
  ∃ rid q, lock_table_ l !! rid = Some q ∧
           t2 ∈ (leading_grants (request_queue_ q)).1 ∧
           t1 ∈ (λ r : nat * LockRequest, txn_id r.2) <$> (leading_grants (request_queue_ q)).2.
Proof.
  intros Hempty. rewrite has_edge_true. unfold build_waits_for.
  rewrite scan_queues_edge. unfold neighbors_of at 1. rewrite Hempty, lookup_empty. simpl.
  split.
  - intros [Hnil|([rid q] & He & ?)]; [by apply elem_of_nil in Hnil|].
    apply elem_of_map_to_list in He. by exists rid, q.
  - intros (rid & q & Hlk & ?). right. exists (rid, q).
    split; [by apply elem_of_map_to_list|done].
Qed.

Lemma existsb_waiting rest t1 :
  existsb (λ r' : nat * LockRequest, negb (granted_ r'.2) && bool_decide (txn_id r'.2 = t1)) rest
    = true ↔
  ∃ r, r ∈ rest ∧ granted_ r.2 = false ∧ txn_id r.2 = t1.
Proof.
  rewrite existsb_exists. split.
  - intros (r & Hin & [Hg Ht]%andb_true_iff). exists r.
    rewrite <- list_elem_of_In in Hin. apply negb_true_iff in Hg.
    apply bool_decide_eq_true in Ht. done.
  - intros (r & Hin & Hg & Ht). exists r. rewrite <- list_elem_of_In.
    split; [done|]. rewrite Hg. simpl. by apply bool_decide_eq_true.
Qed.

(** On a queue whose granted requests all stand at the head, the relation
    of the specification is the one the construction uses. *)
Lemma waits_behind_in_grants_first rs t1 t2 :
  grants_first rs →
  waits_behind_in rs t1 t2 = true ↔
  (t2 ∈ (leading_grants rs).1 ∧
   t1 ∈ (λ r : nat * LockRequest, txn_id r.2) <$> (leading_grants rs).2).
Proof.
  unfold grants_first. induction rs as [|r rs IH]; simpl.
  { intros _. split; [done|]. intros [H _]. by apply elem_of_nil in H. }
  destruct (granted_ r.2) eqn:Hg.
  - destruct (leading_grants rs) as [grants rest] eqn:Hlg. simpl. intros Hall.
    specialize (IH Hall). simpl in IH.
    rewrite orb_true_iff, IH, andb_true_iff, existsb_waiting, elem_of_cons.
    rewrite bool_decide_eq_true. split.
    + intros [[Ht2 (r' & Hin & Hg' & Ht1)]|[? ?]]; [|by auto].
      split; [by left|].
      (* the waiting request is behind the granted run *)
      assert (Hrest : r' ∈ rest).
      { clear IH. revert grants rest Hlg Hall.
        induction rs as [|x rs IHrs]; intros grants rest Hlg Hall; simpl in *.
        - by apply elem_of_nil in Hin.
        - destruct (granted_ x.2) eqn:Hgx.
          + destruct (leading_grants rs) as [g2 r2] eqn:Hlg2.
            injection Hlg as <- <-. apply elem_of_cons in Hin as [->|Hin]; [congruence|].
            by eapply IHrs.
          + injection Hlg as <- <-. done. }
      apply list_elem_of_fmap. by exists r'.
    + intros [[->|Ht2] Ht1]; [|by right].
      left. split; [done|].
      apply list_elem_of_fmap in Ht1 as (r' & -> & Hin).
      exists r'. rewrite Forall_forall in Hall. split; [|by auto].
      clear IH Hall. revert grants rest Hlg Hin.
      induction rs as [|x rs IHrs]; intros grants rest Hlg Hin; simpl in *.
      * injection Hlg as <- <-. done.
      * destruct (granted_ x.2) eqn:Hgx.
        -- destruct (leading_grants rs) as [g2 r2] eqn:Hlg2.
           injection Hlg as <- <-. right. by eapply IHrs.
        -- injection Hlg as <- <-. done.
  - simpl. intros Hall. apply Forall_cons in Hall as [_ Hall].
    split.
    + intros Hw. exfalso. clear IH.
      induction rs as [|x rs IHrs]; simpl in *; [done|].
      apply Forall_cons in Hall as [Hx Hall]. rewrite Hx in Hw. simpl in Hw. auto.
    + intros [H _]. by apply elem_of_nil in H.
Qed.

(** C3 holds on the states the construction is written for: when in every
    queue the granted requests stand at the head, the graph built on an
    empty one has the edge t1 -> t2 exactly when t1 has an ungranted
    request behind a granted request of t2 in some queue. *)
Theorem build_waits_for_on_grants_first l t1 t2 :
  waits_for_ l = ∅ →
  (∀ rid q, lock_table_ l !! rid = Some q → grants_first (request_queue_ q)) →
  has_edge (build_waits_for l) t1 t2 = waits_behind (lock_table_ l) t1 t2.
Proof.
  intros Hempty Hfirst. apply eq_true_iff_eq.
  rewrite (build_waits_for_edges _ _ _ Hempty).
  unfold waits_behind. rewrite existsb_exists. split.
  - intros (rid & q & Hlk & Hedge). exists (rid, q). split.
    + rewrite <- list_elem_of_In. by apply elem_of_map_to_list.
    + simpl. apply waits_behind_in_grants_first; eauto.
  - intros ([rid q] & Hin & Hw). rewrite <- list_elem_of_In in Hin.
    apply elem_of_map_to_list in Hin. exists rid, q. split; [done|].
    simpl in Hw. apply waits_behind_in_grants_first in Hw; eauto.
Qed.

(** C3 at a queue the lock manager produces.  After 1 was granted S, 2
    queued for X and 3 was granted S on the same row, the queue holds a
    granted request behind an ungranted one.  The graph built from it has the
    edge 3 -> 1 although 3 waits for nothing; and once 4 queues for X behind
    3's granted request, the graph has no edge 4 -> 3. *)
Theorem C3_edges_at_interleaved_queue :
  (w ← interleaved; Some (request_queue_ (queue_at (lm w) rid_a))) =
    Some [(0%nat, mkReq 1 SHARED true); (1%nat, mkReq 2 EXCLUSIVE false);
          (2%nat, mkReq 3 SHARED true)] ∧
  (w ← interleaved;
   Some (has_edge (build_waits_for (lm w)) 3 1, waits_behind (lock_table_ (lm w)) 3 1)) =
    Some (true, false) ∧
  (w ← interleaved4;
   Some (has_edge (build_waits_for (lm w)) 4 3, waits_behind (lock_table_ (lm w)) 4 3)) =
    Some (false, true).
Proof. repeat split; vm_compute; reflexivity. Qed.

(** C4 at the cycle 1 -> 3 -> 2 -> 1.  The search started at 1 reaches 3 and
    then 2, where it meets 1 again: at that moment 1, 2 and 3 are on the
    stack.  While the recursion unwinds, 3 and 1 erase themselves, so
    [HasCycle] finds only 2 and reports it; the detection round aborts 2 and
    leaves 3, the largest id that was on the stack, running. *)
Theorem C4_victim_at_triangle :
  (l ← DFS 2 (set_on_stack triangle [1; 3]) 2;
   Some (has_cycle_ l, on_stack_txns_ l)) = Some (true, [1; 2; 3]) ∧
  (l ← DFS 4 triangle 1; Some (has_cycle_ l, on_stack_txns_ l)) = Some (true, [2]) ∧
  (r ← HasCycle 4 triangle 0; Some (r.1.1, r.1.2)) = Some (true, 2) ∧
  (w ← triangle_world;
   Some (GetEdgeList (build_waits_for (lm w)))) = Some [(3, 2); (2, 1); (1, 3)] ∧
  (w ← triangle_world; w ← RunCycleDetection 4 4 w 0;
   Some (state_ <$> txn_map w !! 1, state_ <$> txn_map w !! 2, state_ <$> txn_map w !! 3)) =
    Some (Some GROWING, Some ABORTED, Some GROWING).
Proof. repeat split; vm_compute; reflexivity. Qed.

End DeadlockDetection.

Section TwoPhaseLocking.
Import LockManager Examples.
Implicit Types (w : World) (txn : Transaction) (rid : RID).

Lemma lookup_set_txn w txn : txn_map (set_txn w txn) !! txn_id_ txn = Some txn.
Proof. apply lookup_insert_eq. Qed.

Lemma emplace_back_txn_map w rid tid mode :
  txn_map (emplace_back w rid tid mode).2 = txn_map w.
Proof. reflexivity. Qed.

(** The state a transaction is left in by [Unlock]: growing becomes
    shrinking, except when a shared lock is released under read-committed. *)
Lemma Unlock_state w tid rid txn ok w' :
  txn_map w !! tid = Some txn → txn_id_ txn = tid →
  Unlock w tid rid = Some (ok, w') →
  ∃ txn' mode,
    txn_map w' !! tid = Some txn' ∧
    state_ txn' =
      (if bool_decide (state_ txn = GROWING) &&
          negb (bool_decide (mode = SHARED) &&
                bool_decide (isolation_level_ txn = READ_COMMITTED))
       then SHRINKING else state_ txn).
Proof.
  intros Hlk Hid. unfold Unlock. rewrite Hlk. simpl.
  destruct (GetRequest _ _ _) as [node|]; [|done]. simpl.
  destruct (snd <$> _) as [req|]; [|done]. simpl.
  intros [= <- <-]. eexists _, (lock_mode_ req). split.
  - unfold set_queue. simpl. rewrite <- Hid at 1.
    match goal with |- <[?k := ?v]> _ !! ?k' = _ =>
      replace k with k' by (by destruct (_ && _)) end.
    apply lookup_insert_eq.
  - by destruct (_ && _).
Qed.

(** Under repeatable-read the first [Unlock] ends the growing phase. *)
Lemma Unlock_repeatable_read_shrinks w tid rid txn ok w' :
  txn_map w !! tid = Some txn → txn_id_ txn = tid →
  isolation_level_ txn = REPEATABLE_READ → state_ txn = GROWING →
  Unlock w tid rid = Some (ok, w') →
  ∃ txn', txn_map w' !! tid = Some txn' ∧ state_ txn' = SHRINKING.
Proof.
  intros Hlk Hid Hiso Hst Hun.
  destruct (Unlock_state _ _ _ _ _ _ Hlk Hid Hun) as (txn' & mode & Hlk' & Hst').
  exists txn'. split; [done|]. rewrite Hst', Hiso, Hst.
  rewrite bool_decide_eq_true_2 by done.
  rewrite (bool_decide_eq_false_2 (REPEATABLE_READ = READ_COMMITTED)) by done.
  by rewrite andb_false_r.
Qed.

(** A shrinking transaction gets no lock from [LockShared] or
    [LockExclusive]: both abort it with reason lock-on-shrinking before
    they look at the queue. *)
Lemma Lock_on_shrinking w tid rid txn :
  txn_map w !! tid = Some txn → txn_id_ txn = tid → state_ txn = SHRINKING →
  LockShared w tid rid =
    Some (Throws tid LOCK_ON_SHRINKING, set_txn w (SetState txn ABORTED)) ∧
  LockExclusive w tid rid =
    Some (Throws tid LOCK_ON_SHRINKING, set_txn w (SetState txn ABORTED)).
Proof.
  intros Hlk Hid Hst. unfold LockShared, LockExclusive, CheckShrinking.
  rewrite Hlk. simpl. rewrite Hst, Hid. by case_decide.
Qed.

(** C6 at a transaction that upgrades after its first release.  The
    repeatable-read transaction 1 holds shared locks on rows a and b and
    releases row a, which makes it shrinking.  [LockShared] on a new row is
    then refused, but [LockUpgrade] on row b returns [true] and puts row b
    into the exclusive lock set while the transaction is still shrinking. *)
Theorem C6_upgrade_after_unlock :
  (w ← after_first_unlock; Some (state_ <$> txn_map w !! 1)) = Some (Some SHRINKING) ∧
  (w ← after_first_unlock; '(o, _) ← LockShared w 1 (2, 0); Some o) =
    Some (Throws 1 LOCK_ON_SHRINKING) ∧
  (w ← after_first_unlock; '(o, _) ← LockExclusive w 1 (2, 0); Some o) =
    Some (Throws 1 LOCK_ON_SHRINKING) ∧
  (w ← after_first_unlock;
   '(o, w) ← LockUpgrade w 1 rid_b;
   txn ← txn_map w !! 1;
   Some (o, state_ txn, IsExclusiveLocked txn rid_b,
         snd <$> request_queue_ (queue_at (lm w) rid_b))) =
    Some (Returns true, SHRINKING, true, [mkReq 1 EXCLUSIVE true]).
Proof. repeat split; vm_compute; reflexivity. Qed.

Lemma LockShared_wait_throws w tid rid node txn t r w' :
  txn_map w !! tid = Some txn → txn_id_ txn = tid →
  LockShared_wait w tid rid node = Some (Throws t r, w') ↔
  t = tid ∧ r = DEADLOCK ∧ state_ txn = ABORTED ∧ w' = w.
Proof.
  intros Hlk Hid. unfold LockShared_wait, CheckAborted, IsAborted. rewrite Hlk. simpl.
  destruct (decide (state_ txn = ABORTED)) as [Hab|Hnab].
  - rewrite bool_decide_eq_true_2 by done. rewrite orb_true_r, Hid.
    split; [by intros [= <- <- <-]|]. by intros (-> & -> & _ & ->).
  - rewrite bool_decide_eq_false_2 by done. rewrite orb_false_r.
    destruct (negb _); split; try done; by intros (_ & _ & ? & _).
Qed.

(** C7, as the code has it.  [LockShared(txn, rid)] raises in exactly three
    cases: the transaction is shrinking (lock-on-shrinking); it is not
    shrinking, does not hold the shared lock yet and runs at
    read-uncommitted (shared-on-read-uncommitted); or it is found aborted
    when its wait ends, be it at once or after a sleep (deadlock).  The
    first two set the state to aborted and queue no request; the third
    leaves its ungranted request in the queue.  In all of them the shared
    lock set is what it was. *)
Theorem C7_lock_shared_failures w tid rid txn :
  txn_map w !! tid = Some txn → txn_id_ txn = tid →
  (∀ t r w', LockShared w tid rid = Some (Throws t r, w') ↔
     t = tid ∧
     ((state_ txn = SHRINKING ∧ r = LOCK_ON_SHRINKING ∧
       w' = set_txn w (SetState txn ABORTED)) ∨
      (state_ txn ≠ SHRINKING ∧ (rid ∉ shared_lock_set_ txn) ∧
       isolation_level_ txn = READ_UNCOMMITTED ∧ r = LOCKSHARED_ON_READ_UNCOMMITTED ∧
       w' = set_txn w (SetState txn ABORTED)) ∨
      (state_ txn = ABORTED ∧ (rid ∉ shared_lock_set_ txn) ∧
       isolation_level_ txn ≠ READ_UNCOMMITTED ∧ r = DEADLOCK ∧
       w' = (emplace_back w rid tid SHARED).2))) ∧
  (∀ node t r w', LockShared_wait w tid rid node = Some (Throws t r, w') ↔
     t = tid ∧ r = DEADLOCK ∧ state_ txn = ABORTED ∧ w' = w) ∧
  (∀ t r w', LockShared w tid rid = Some (Throws t r, w') →
     ∃ txn', txn_map w' !! tid = Some txn' ∧ state_ txn' = ABORTED ∧
             shared_lock_set_ txn' = shared_lock_set_ txn ∧
             (r ≠ DEADLOCK → lm w' = lm w)).
Proof.
  intros Hlk Hid.
  assert (Hentry : ∀ t r w', LockShared w tid rid = Some (Throws t r, w') ↔
     t = tid ∧
     ((state_ txn = SHRINKING ∧ r = LOCK_ON_SHRINKING ∧
       w' = set_txn w (SetState txn ABORTED)) ∨
      (state_ txn ≠ SHRINKING ∧ (rid ∉ shared_lock_set_ txn) ∧
       isolation_level_ txn = READ_UNCOMMITTED ∧ r = LOCKSHARED_ON_READ_UNCOMMITTED ∧
       w' = set_txn w (SetState txn ABORTED)) ∨
      (state_ txn = ABORTED ∧ (rid ∉ shared_lock_set_ txn) ∧
       isolation_level_ txn ≠ READ_UNCOMMITTED ∧ r = DEADLOCK ∧
       w' = (emplace_back w rid tid SHARED).2))).
  { intros t r w'. unfold LockShared, CheckShrinking, IsSharedLocked.
    rewrite Hlk. simpl. rewrite Hid.
    destruct (decide (state_ txn = SHRINKING)) as [Hsh|Hnsh].
    { split; [intros [= <- <- <-]; eauto|].
      intros (-> & [(_ & -> & ->)|[(? & _)|(Hab & _)]]); [done|done|congruence]. }
    destruct (decide (rid ∈ shared_lock_set_ txn)) as [Hin|Hnin].
    { rewrite bool_decide_eq_true_2 by done.
      split; [done|]. intros (_ & [(? & _)|[(_ & ? & _)|(_ & ? & _)]]); done. }
    rewrite bool_decide_eq_false_2 by done.
    destruct (decide (isolation_level_ txn = READ_UNCOMMITTED)) as [Hru|Hnru].
    { split; [intros [= <- <- <-]; eauto 10|].
      intros (-> & [(? & _)|[(_ & _ & _ & -> & ->)|(_ & _ & ? & _)]]); done. }
    rewrite (LockShared_wait_throws _ tid rid _ txn) by done.
    split.
    - intros (-> & -> & Hab & ->). split; [done|]. right; right. done.
    - intros (-> & [(? & _)|[(_ & _ & ? & _)|(Hab & _ & _ & -> & ->)]]); done. }
  split; [exact Hentry|]. split.
  { intros node t r w'. by apply LockShared_wait_throws. }
  intros t r w' (-> & Hcases)%Hentry.
  destruct Hcases as [(_ & -> & ->)|[(_ & _ & _ & -> & ->)|(Hab & _ & _ & -> & ->)]].
  - exists (SetState txn ABORTED). split; [|done].
    unfold set_txn; simpl. rewrite Hid. apply lookup_insert_eq.
  - exists (SetState txn ABORTED). split; [|done].
    unfold set_txn; simpl. rewrite Hid. apply lookup_insert_eq.
  - exists txn. rewrite emplace_back_txn_map. done.
Qed.

End TwoPhaseLocking.

(* ===================================================================== *)
(** ** Sequential scan *)
(* ===================================================================== *)

Section LockManagerFrame.
Import LockManager.
Implicit Types (w : World) (txn : Transaction) (rid : RID).

(** A [LockShared] that returns leaves the Rid in the shared lock set. *)
Lemma LockShared_returns w tid rid txn ok w' :
  txn_map w !! tid = Some txn → txn_id_ txn = tid →
  LockShared w tid rid = Some (Returns ok, w') →
  ∃ txn', txn_map w' !! tid = Some txn' ∧ txn_id_ txn' = tid ∧
          isolation_level_ txn' = isolation_level_ txn ∧
          exclusive_lock_set_ txn' = exclusive_lock_set_ txn ∧
          rid ∈ shared_lock_set_ txn'.
Proof.
  intros Hlk Hid. unfold LockShared, CheckShrinking, IsSharedLocked.
  rewrite Hlk. simpl.
  case_decide; [done|].
  destruct (decide (rid ∈ shared_lock_set_ txn)) as [Hin|Hnin].
  { rewrite bool_decide_eq_true_2 by done. intros [= <- <-]. by exists txn. }
  rewrite bool_decide_eq_false_2 by done.
  case_decide; [done|].
  unfold LockShared_wait, CheckAborted. simpl. rewrite Hlk. simpl.
  destruct (_ || _); [|done].
  destruct (IsAborted txn); [done|].
  intros [= <- <-].
  exists (set_shared txn ({[rid]} ∪ shared_lock_set_ txn)). simpl.
  split; [rewrite Hid; apply lookup_insert_eq|]. repeat split; [done|set_solver].
Qed.

Lemma Unlock_keeps_level w tid rid txn ok w' :
  txn_map w !! tid = Some txn → txn_id_ txn = tid →
  Unlock w tid rid = Some (ok, w') →
  ∃ txn', txn_map w' !! tid = Some txn' ∧ txn_id_ txn' = tid ∧
          isolation_level_ txn' = isolation_level_ txn.
Proof.
  intros Hlk Hid. unfold Unlock. rewrite Hlk. simpl.
  destruct (GetRequest _ _ _) as [node|]; [|done]. simpl.
  destruct (snd <$> _) as [req|]; [|done]. simpl.
  intros [= <- <-]. eexists. split.
  - unfold set_queue. simpl. rewrite <- Hid at 1.
    match goal with |- <[?k := ?v]> _ !! ?k' = _ =>
      replace k with k' by (by destruct (_ && _)) end.
    apply lookup_insert_eq.
  - by destruct (_ && _).
Qed.

Lemma queue_at_set_queue w rid q rid' :
  queue_at (lm (set_queue w rid q)) rid' =
  if decide (rid = rid') then q else queue_at (lm w) rid'.
Proof.
  unfold queue_at, set_queue; simpl. case_decide as Heq.
  - subst. by rewrite lookup_insert_eq.
  - by rewrite lookup_insert_ne.
Qed.

Lemma GetRequest_set_queue_ne w rid q tid rid' :
  rid ≠ rid' → GetRequest (lm (set_queue w rid q)) tid rid' = GetRequest (lm w) tid rid'.
Proof.
  intros Hne. unfold GetRequest. rewrite queue_at_set_queue. by rewrite decide_False.
Qed.

Lemma filter_update_node (f : LockRequest → LockRequest) node tid (rs : list (nat * LockRequest)) :
  (∀ r, txn_id (f r) = txn_id r) →
  is_Some (head (filter (λ e : nat * LockRequest, txn_id e.2 = tid) rs)) →
  is_Some (head (filter (λ e : nat * LockRequest, txn_id e.2 = tid) (update_node f node rs))).
Proof.
  intros Hf. unfold update_node. induction rs as [|e rs IH]; simpl; [done|].
  rewrite !filter_cons. simpl.
  assert (Hsame : txn_id (if decide (e.1 = node) then (e.1, f e.2) else e).2 = txn_id e.2).
  { case_decide; [apply Hf|done]. }
  rewrite Hsame. destruct (decide (txn_id e.2 = tid)); simpl; [by eauto|done].
Qed.

Lemma is_Some_fmap_fst {A B} (o : option (A * B)) : is_Some (fst <$> o) ↔ is_Some o.
Proof. apply fmap_is_Some. Qed.

Lemma backed_after w w' tid txn txn' rid :
  txn_map w !! tid = Some txn → backed w tid →
  txn_map w' !! tid = Some txn' →
  (∀ rid', rid' ≠ rid → queue_at (lm w') rid' = queue_at (lm w) rid') →
  (rid ∈ shared_lock_set_ txn' ∪ exclusive_lock_set_ txn' →
   is_Some (GetRequest (lm w') tid rid)) →
  (∀ rid', rid' ≠ rid →
     rid' ∈ shared_lock_set_ txn' ∪ exclusive_lock_set_ txn' →
     rid' ∈ shared_lock_set_ txn ∪ exclusive_lock_set_ txn) →
  backed w' tid.
Proof.
  intros Hlk Hb Hlk' Hq Hrid Hsub txn2 rid'. rewrite Hlk'. intros [= <-] Hin.
  destruct (decide (rid' = rid)) as [->|Hne]; [auto|].
  unfold GetRequest. rewrite Hq by done. apply (Hb txn rid' Hlk). auto.
Qed.



(** The wait of [LockShared] keeps the lock sets backed and the request of
    the transaction in the queue. *)
Lemma LockShared_wait_backed w tid rid node txn o w' :
  txn_map w !! tid = Some txn → txn_id_ txn = tid → backed w tid →
  is_Some (GetRequest (lm w) tid rid) →
  LockShared_wait w tid rid node = Some (o, w') →
  backed w' tid ∧ is_Some (GetRequest (lm w') tid rid).
Proof.
  intros Hlk Hid Hb Hreq. unfold LockShared_wait, CheckAborted. rewrite Hlk.
  cbn -[set_queue set_txn queue_at].
  destruct (_ || _); [|by intros [= <- <-]].
  destruct (IsAborted txn); [by intros [= <- <-]|].
  intros [= <- <-].
  assert (Hreq' : is_Some (GetRequest
            (lm (set_txn
                   (set_queue w rid
                      (set_requests
                         (set_reader_count (queue_at (lm w) rid)
                            (reader_count_ (queue_at (lm w) rid) + 1))
                         (update_node (set_granted true) node
                            (request_queue_ (queue_at (lm w) rid)))))
                   (set_shared txn ({[rid]} ∪ shared_lock_set_ txn)))) tid rid)).
  { unfold GetRequest, queue_at at 1; simpl. rewrite lookup_insert_eq. simpl.
    apply fmap_is_Some. apply filter_update_node; [done|].
    unfold GetRequest in Hreq. by apply fmap_is_Some in Hreq. }
  split; [|done].
  eapply (backed_after w _ tid txn _ rid); [done|done| | |by intros _|].
  - unfold set_txn; simpl. rewrite Hid. apply lookup_insert_eq.
  - intros rid' Hne. unfold queue_at; simpl. by rewrite lookup_insert_ne.
  - simpl. intros rid' Hne. set_solver.
Qed.
(** [LockShared] keeps the lock sets backed, and unless it raises the
    transaction has a request in the queue of the Rid afterwards. *)
Lemma LockShared_backed w tid rid txn o w' :
  txn_map w !! tid = Some txn → txn_id_ txn = tid → backed w tid →
  LockShared w tid rid = Some (o, w') →
  backed w' tid ∧
  ((∀ t r, o ≠ Throws t r) → is_Some (GetRequest (lm w') tid rid)).
Proof.
  intros Hlk Hid Hb. unfold LockShared, CheckShrinking, IsSharedLocked.
  rewrite Hlk. cbn -[emplace_back LockShared_wait].
  assert (Habort : backed (set_txn w (SetState txn ABORTED)) tid).
  { intros txn' rid'. unfold set_txn; simpl. rewrite Hid, lookup_insert_eq.
    intros [= <-]. simpl. by apply Hb. }
  case_decide.
  { intros [= <- <-]. split; [done|]. intros Hno. exfalso. by eapply Hno. }
  destruct (decide (rid ∈ shared_lock_set_ txn)) as [Hin|Hnin].
  { rewrite bool_decide_eq_true_2 by done. intros [= <- <-]. split; [done|].
    intros _. apply (Hb txn); [done|set_solver]. }
  rewrite bool_decide_eq_false_2 by done.
  case_decide.
  { intros [= <- <-]. split; [done|]. intros Hno. exfalso. by eapply Hno. }
  rewrite Hid.
  destruct (emplace_back w rid tid SHARED) as [node w1] eqn:Hemp.
  assert (Hlk1 : txn_map w1 !! tid = Some txn).
  { unfold emplace_back in Hemp. by injection Hemp as <- <-. }
  assert (Hq1 : ∀ rid', rid' ≠ rid → queue_at (lm w1) rid' = queue_at (lm w) rid').
  { intros rid' Hne. unfold emplace_back in Hemp. injection Hemp as <- <-.
    unfold queue_at; simpl. by rewrite lookup_insert_ne. }
  assert (Hreq1 : is_Some (GetRequest (lm w1) tid rid)).
  { unfold emplace_back in Hemp. injection Hemp as <- <-.
    unfold GetRequest. apply fmap_is_Some.
    unfold queue_at at 1; simpl. rewrite lookup_insert_eq. simpl.
    rewrite filter_app, filter_cons. simpl. rewrite decide_True by done.
    destruct (filter _ (request_queue_ (queue_at (lm w) rid))); simpl; eauto. }
  assert (Hb1 : backed w1 tid).
  { apply (backed_after w w1 tid txn txn rid); auto. }
  intros Hwait.
  destruct (LockShared_wait_backed _ _ _ _ _ _ _ Hlk1 Hid Hb1 Hreq1 Hwait) as [Hb' Hreq'].
  split; [done|by intros _].
Qed.

(** A [LockShared] that goes to sleep leaves the transaction as it is. *)
Lemma LockShared_blocks w tid rid txn node w' :
  txn_map w !! tid = Some txn →
  LockShared w tid rid = Some (Blocks node, w') →
  txn_map w' !! tid = Some txn.
Proof.
  intros Hlk. unfold LockShared, CheckShrinking. rewrite Hlk. simpl.
  case_decide; [done|].
  destruct (IsSharedLocked txn rid); [done|].
  case_decide; [done|].
  unfold LockShared_wait, CheckAborted. simpl. rewrite Hlk. simpl.
  destruct (_ || _); [|by intros [= <- <-]].
  by destruct (IsAborted txn).
Qed.

(** [Unlock] keeps the lock sets backed. *)
Lemma Unlock_backed w tid rid txn ok w' :
  txn_map w !! tid = Some txn → txn_id_ txn = tid → backed w tid →
  Unlock w tid rid = Some (ok, w') → backed w' tid.
Proof.
  intros Hlk Hid Hb. unfold Unlock. rewrite Hlk. simpl.
  destruct (GetRequest _ _ _) as [node|]; [|done]. simpl.
  destruct (snd <$> _) as [req|]; [|done]. simpl.
  intros [= <- <-].
  eapply (backed_after w _ tid txn _ rid); [done|done| | | |].
  - unfold set_queue, set_txn; simpl. rewrite <- Hid at 1.
    match goal with |- <[?k := ?v]> _ !! ?k' = _ =>
      replace k with k' by (by destruct (_ && _)) end.
    apply lookup_insert_eq.
  - intros rid' Hne. unfold queue_at; simpl. by rewrite lookup_insert_ne.
  - destruct (_ && _); simpl; set_solver.
  - intros rid' Hne. destruct (_ && _); simpl; set_solver.
Qed.



End LockManagerFrame.

Section SeqScanFacts.
Import LockManager SeqScan.
Context {Tuple OutTuple : Type}.
Variable predicate : option (Tuple → bool).
Variable project : Tuple → OutTuple.
Variable tid : Z.

Local Abbreviation scan := (SeqScan.scan predicate project tid).
Local Abbreviation visit := (SeqScan.visit predicate project tid).
Local Abbreviation state := (SeqScan.state (Tuple:=Tuple)).
Local Abbreviation result := (SeqScan.result (OutTuple:=OutTuple)).
Local Abbreviation predicate_holds := (SeqScan.passes predicate).

Lemma SeqScan_Unlock_spec w tr rid txn w' tr' :
  txn_map w !! tid = Some txn → txn_id_ txn = tid →
  SeqScan.Unlock tid w tr rid = Some (w', tr') →
  tr' = tr ++ (if decide (isolation_level_ txn = READ_COMMITTED)
               then [EvUnlock rid] else []) ∧
  ∃ txn', txn_map w' !! tid = Some txn' ∧ txn_id_ txn' = tid ∧
          isolation_level_ txn' = isolation_level_ txn.
Proof.
  intros Hlk Hid. unfold SeqScan.Unlock. rewrite Hlk. simpl.
  case_decide.
  - destruct (LockManager.Unlock w tid rid) as [[ok w1]|] eqn:Hun; [|done]. simpl.
    intros [= <- <-]. split; [done|]. by eapply Unlock_keeps_level.
  - intros [= <- <-]. rewrite app_nil_r. split; [done|]. by exists txn.
Qed.

(** The loop body from the read of the row on. *)
Lemma visit_spec continue w tr rid tuple rest txn (res : result) w' (st' : state) :
  txn_map w !! tid = Some txn → txn_id_ txn = tid →
  visit continue w tr rid tuple rest = Some (res, w', st') →
  ∃ w2 txn2,
    txn_map w2 !! tid = Some txn2 ∧ txn_id_ txn2 = tid ∧
    isolation_level_ txn2 = isolation_level_ txn ∧
    let tr2 := tr ++ row_events (isolation_level_ txn)
                       (mkRow false rid txn (predicate_holds tuple)) in
    if predicate_holds tuple
    then res = Produced (project tuple) rid ∧ w' = w2 ∧
         st' = {| it_ := rest; trace := tr2 |}
    else continue w2 tr2 = Some (res, w', st').
Proof.
  intros Hlk Hid. unfold SeqScan.visit. rewrite Hlk. simpl.
  unfold row_events. simpl.
  destruct (predicate_holds tuple).
  - destruct (SeqScan.Unlock _ _ _ _) as [[w2 tr2]|] eqn:Hun; [|done]. simpl.
    intros [= <- <- <-].
    destruct (SeqScan_Unlock_spec _ _ _ _ _ _ Hlk Hid Hun) as (-> & txn2 & ? & ? & ?).
    exists w2, txn2. repeat split; try done.
    f_equal. rewrite <- !app_assoc. done.
  - destruct (SeqScan.Unlock _ _ _ _) as [[w2 tr2]|] eqn:Hun; [|done]. simpl.
    intros Hcont.
    destruct (SeqScan_Unlock_spec _ _ _ _ _ _ Hlk Hid Hun) as (-> & txn2 & ? & ? & ?).
    exists w2, txn2. repeat split; try done.
    rewrite <- Hcont. f_equal. rewrite <- !app_assoc. done.
Qed.






(** The loop body on a row that fails the predicate goes on with the rest
    of the loop, the transaction still in place and its lock sets backed. *)
Lemma visit_rest continue w tr rid tuple rest txn (res : result) w' (st' : state) :
  txn_map w !! tid = Some txn → txn_id_ txn = tid → backed w tid →
  predicate_holds tuple = false →
  visit continue w tr rid tuple rest = Some (res, w', st') →
  ∃ w2 tr2 txn2,
    continue w2 tr2 = Some (res, w', st') ∧
    txn_map w2 !! tid = Some txn2 ∧ txn_id_ txn2 = tid ∧ backed w2 tid.
Proof.
  intros Hlk Hid Hb Hm. unfold SeqScan.visit. rewrite Hlk. simpl. rewrite Hm.
  unfold SeqScan.Unlock. rewrite Hlk. simpl. case_decide as Hrc.
  - destruct (LockManager.Unlock w tid rid) as [[ok w2]|] eqn:Hu; [|done]. simpl.
    intros Hcont.
    destruct (Unlock_keeps_level _ _ _ _ _ _ Hlk Hid Hu) as (txn2 & ? & ? & _).
    eexists w2, _, txn2. split; [exact Hcont|]. repeat split; try done.
    exact (Unlock_backed _ _ _ _ _ _ Hlk Hid Hb Hu).
  - simpl. intros Hcont. eexists w, _, txn. split; [exact Hcont|]. done.
Qed.

(** A run of the loop that goes to sleep does so in the call of
    [LockShared] for the row at the iterator: the call ends the trace, the
    request of the transaction is in the queue of the row, and the lock sets
    are backed.  This is what the rest of the run starts from when the
    thread is woken up. *)
Lemma scan_suspended_ready its w tr txn node w' (st' : state) :
  txn_map w !! tid = Some txn → txn_id_ txn = tid → backed w tid →
  scan its w tr = Some (Suspended node, w', st') →
  ∃ txn' rid tuple rest tr0,
    txn_map w' !! tid = Some txn' ∧ txn_id_ txn' = tid ∧ backed w' tid ∧
    it_ st' = (rid, tuple) :: rest ∧ trace st' = tr0 ++ [EvLockShared rid] ∧
    is_Some (GetRequest (lm w') tid rid).
Proof.
  revert w tr txn. induction its as [|[rid tuple] rest IH]; intros w tr txn Hlk Hid Hb.
  { simpl. done. }
  assert (Hvisit : ∀ w1 tr1 txn1,
            txn_map w1 !! tid = Some txn1 → txn_id_ txn1 = tid → backed w1 tid →
            visit (scan rest) w1 tr1 rid tuple rest = Some (Suspended node, w', st') →
            ∃ txn' rid tuple rest tr0,
              txn_map w' !! tid = Some txn' ∧ txn_id_ txn' = tid ∧ backed w' tid ∧
              it_ st' = (rid, tuple) :: rest ∧ trace st' = tr0 ++ [EvLockShared rid] ∧
              is_Some (GetRequest (lm w') tid rid)).
  { intros w1 tr1 txn1 Hlk1 Hid1 Hb1 Hv.
    destruct (predicate_holds tuple) eqn:Hm.
    - destruct (visit_spec _ _ _ _ _ _ _ _ _ _ Hlk1 Hid1 Hv) as (w2 & txn2 & _ & _ & _ & Hrest).
      simpl in Hrest. rewrite Hm in Hrest. by destruct Hrest as [? _].
    - destruct (visit_rest _ _ _ _ _ _ _ _ _ _ Hlk1 Hid1 Hb1 Hm Hv)
        as (w2 & tr2 & txn2 & Hcont & Hlk2 & Hid2 & Hb2).
      by eapply IH. }
  simpl. rewrite Hlk. simpl.
  destruct (negb (bool_decide (isolation_level_ txn = READ_UNCOMMITTED)) &&
            negb (IsExclusiveLocked txn rid)) eqn:Hcond; [|by eapply Hvisit].
  destruct (LockShared w tid rid) as [[o w1]|] eqn:Hls; [|done]. simpl.
  destruct (LockShared_backed _ _ _ _ _ _ Hlk Hid Hb Hls) as [Hb1 Hreq].
  destruct o as [ok|t r|node1].
  - destruct (LockShared_returns _ _ _ _ _ _ Hlk Hid Hls) as (txn1 & Hlk1 & Hid1 & _).
    by eapply Hvisit.
  - done.
  - intros [= -> <- <-].
    exists txn, rid, tuple, rest, tr. simpl. repeat split; try done.
    + by eapply LockShared_blocks.
    + by apply Hreq.
Qed.







End SeqScanFacts.

(* ===================================================================== *)
(** ** Index iterator *)
(* ===================================================================== *)

Section IndexIteratorFacts.
Import IndexIterator.
Context {KeyType ValueType : Type}.
Implicit Types (b : BufferPool.t (D := option (TreePage.Node KeyType ValueType))).

(** An iterator that compares equal to [end()] is an end iterator. *)
Lemma eqb_end_isEnd (it : IndexIterator.t) :
  eqb it end_iterator = true → isEnd it = true.
Proof.
  unfold eqb, isEnd. intros [Hp _]%andb_true_iff.
  apply bool_decide_eq_true in Hp. apply bool_decide_eq_true. by rewrite <- Hp.
Qed.

(** C10.  [operator++] on an iterator for which [isEnd()] holds changes
    neither the iterator nor the buffer pool; in particular an iterator
    equal to [end()] is still equal to [end()] afterwards.  The same holds
    for the variant of the iterator that keeps no latch. *)
Theorem C10_increment_at_end b (it : IndexIterator.t) :
  isEnd it = true →
  increment b it = Some (it, b) ∧
  increment_unlatched b it = Some (it, b) ∧
  (∀ it' b', increment b it = Some (it', b') →
     eqb it' end_iterator = eqb it end_iterator).
Proof.
  intros Hend. unfold increment, increment_unlatched. rewrite Hend.
  repeat split. by intros it' b' [= <- <-].
Qed.

End IndexIteratorFacts.

Section IndexIteratorExamples.
Import IndexIterator.

Lemma C10_increment_at_end_witness :
  increment (KeyType:=Z) (ValueType:=Z) (BufferPool.create None 1 (mkDisk ∅ 0 []))
            end_iterator =
    Some (end_iterator, BufferPool.create None 1 (mkDisk ∅ 0 [])) ∧
  eqb end_iterator end_iterator = true.
Proof.
  split; [|reflexivity].
  refine (proj1 (C10_increment_at_end (KeyType:=Z) (ValueType:=Z)
                   (BufferPool.create None 1 (mkDisk ∅ 0 [])) end_iterator _)).
  reflexivity.
Defined.

End IndexIteratorExamples.

(* ===================================================================== *)
(** ** B+tree *)
(* ===================================================================== *)

Section BPlusTreeFacts.
Import TreePage BPlusTree.
Context {KeyType ValueType : Type}.
Variable comparator_ : KeyType → KeyType → Z.
Variable unset_key : KeyType.
Implicit Types (tr : BPlusTree.t (KeyType:=KeyType) (ValueType:=ValueType)).
Implicit Types (txn : BPlusTree.Transaction) (key : KeyType) (value : ValueType).

Local Abbreviation GetValue := (BPlusTree.GetValue comparator_).
Local Abbreviation Insert := (BPlusTree.Insert comparator_).
Local Abbreviation InsertIntoLeaf := (BPlusTree.InsertIntoLeaf comparator_).
Local Abbreviation Remove := (BPlusTree.Remove comparator_ unset_key).
Local Abbreviation FindLeafPage := (BPlusTree.FindLeafPage comparator_).
Local Abbreviation descend := (BPlusTree.descend comparator_).


Lemma fetch_put_ne tr p q n : p ≠ q → fetch (put tr p n) q = fetch tr q.
Proof. intros. unfold fetch, put; simpl. by apply lookup_insert_ne. Qed.


(** The page the descent ends at does not depend on the operation: the
    operation only decides which latches the transaction keeps. *)
Lemma descend_page fuel tr key leftMost op txn page node leaf txn' op2 txn2 :
  descend fuel tr key leftMost op txn page node = Some (leaf, txn') →
  ∃ txn2', descend fuel tr key leftMost op2 txn2 page node = Some (leaf, txn2').
Proof.
  revert txn txn2 page node.
  induction fuel as [|fuel IH]; intros txn txn2 page node; destruct node as [l|inode]; simpl;
    try (intros [= <- <-]; by eauto); try done.
  destruct (if leftMost then _ else _) as [page_id|]; [|done]. simpl.
  destruct (fetch tr page_id) as [child|]; [|done]. simpl.
  intros Hd. eapply IH. exact Hd.
Qed.

Lemma FindLeafPage_page fuel tr key leftMost op txn leaf txn' op2 txn2 :
  FindLeafPage fuel tr key leftMost op txn = Some (leaf, txn') →
  ∃ txn2', FindLeafPage fuel tr key leftMost op2 txn2 = Some (leaf, txn2').
Proof.
  unfold BPlusTree.FindLeafPage.
  destruct (fetch tr (root_page_id_ tr)) as [node|]; [|done]. simpl.
  intros Hd. eapply descend_page. exact Hd.
Qed.

(** [InsertIntoLeaf] searches the leaf the lookup searches: after a lookup
    of [key] that succeeded, [Insert] of [key] returns [false] before it
    writes anything. *)
Lemma Insert_found_key fuel tr key value result found txn0 txn :
  GetValue fuel tr key result txn0 = Some (true, found) →
  ∃ txn', Insert fuel tr key value txn = Some (false, tr, txn').
Proof.
  unfold BPlusTree.GetValue, BPlusTree.Insert.
  destruct (IsEmpty tr) eqn:Hempty; [done|]. simpl.
  destruct (FindLeafPage fuel tr key false READ txn0) as [[leaf_page t0]|] eqn:Hfind;
    [|done]. simpl.
  destruct (fetch_leaf tr leaf_page) as [leaf|] eqn:Hleaf; [|done]. simpl.
  destruct (LeafLookup comparator_ leaf key) as [v|] eqn:Hlook; [|done].
  intros _.
  destruct (FindLeafPage_page _ _ _ _ _ _ _ _ INSERT txn Hfind) as (txn2 & Hfind2).
  unfold BPlusTree.InsertIntoLeaf. rewrite Hfind2. simpl. rewrite Hleaf. simpl.
  rewrite Hlook. eauto.
Qed.






End BPlusTreeFacts.

(** *** Search correctness *)

Section SearchCorrectness.
Import TreePage BPlusTree.
Context {KeyType ValueType : Type}.
Variable comparator_ : KeyType → KeyType → Z.
Variable rank : KeyType → Z.
Hypothesis comparator_lt : ∀ a b, comparator_ a b < 0 ↔ rank a < rank b.
Hypothesis comparator_eq : ∀ a b, comparator_ a b = 0 ↔ rank a = rank b.
Implicit Types (tr : BPlusTree.t (KeyType:=KeyType) (ValueType:=ValueType)).
Implicit Types (key : KeyType) (v : ValueType) (lo hi : option Z).

Local Abbreviation leaf_keys_ok := (BPlusTree.leaf_keys_ok (ValueType:=ValueType) rank).
Local Abbreviation children_ok := (BPlusTree.children_ok rank).
Local Abbreviation search_tree := (BPlusTree.search_tree rank).
Local Abbreviation stored := (BPlusTree.stored rank).

Lemma aboveb_weaken lo r r' : aboveb lo r → r ≤ r' → aboveb lo r'.
Proof.
  destruct lo as [l|]; simpl; [|done].
  rewrite !bool_decide_spec. lia.
Qed.

Lemma belowb_uptob hi r r' : uptob hi r' → r < r' → belowb hi r.
Proof.
  destruct hi as [h|]; simpl; [|done].
  rewrite !bool_decide_spec. lia.
Qed.

(** The keys of a well-shaped leaf lie in its interval. *)
Lemma leaf_keys_in_range lo hi (a : list (KeyType * ValueType)) k v :
  leaf_keys_ok lo hi a → (k, v) ∈ a → aboveb lo (rank k) ∧ belowb hi (rank k).
Proof.
  revert lo. induction a as [|[k0 v0] a IH]; intros lo Hok Hin.
  - by apply elem_of_nil in Hin.
  - simpl in Hok. apply andb_True in Hok as [Hok Hrest]. apply andb_True in Hok as [Hlo Hhi].
    apply elem_of_cons in Hin as [[= -> ->]|Hin]; [done|].
    destruct (IH _ Hrest Hin) as [Hlo' Hhi']. split; [|done].
    simpl in Hlo'. apply bool_decide_spec in Hlo'.
    eapply aboveb_weaken; [exact Hlo|lia].
Qed.

(** In a well-shaped leaf the lower bound of [key] is the slot of the
    stored key of the same rank. *)
Lemma leaf_lookup_stored lo hi (a : list (KeyType * ValueType)) k v key :
  leaf_keys_ok lo hi a → (k, v) ∈ a → rank k = rank key →
  ∃ k', a !! key_index comparator_ key a = Some (k', v) ∧ comparator_ k' key = 0.
Proof.
  intros Hok Hin Hrank. revert lo Hok.
  induction a as [|[k0 v0] a IH]; intros lo Hok.
  - by apply elem_of_nil in Hin.
  - simpl in Hok. apply andb_True in Hok as [_ Hrest]. simpl.
    apply elem_of_cons in Hin as [[= <- <-]|Hin].
    + rewrite decide_False by (rewrite comparator_lt; lia).
      exists k. split; [done|]. by apply comparator_eq.
    + destruct (leaf_keys_in_range _ _ _ _ _ Hrest Hin) as [Hlo _].
      simpl in Hlo. apply bool_decide_spec in Hlo.
      rewrite decide_True by (rewrite comparator_lt; lia).
      simpl. by eapply IH.
Qed.

Lemma comparator_le a b : comparator_ a b ≤ 0 ↔ rank a ≤ rank b.
Proof.
  pose proof (comparator_lt a b). pose proof (comparator_eq a b). lia.
Qed.

Section Children.
Variable sub : Z → option Z → option Z → bool.
Variable holds : Z → Prop.
Variable r : Z.
Hypothesis sub_in_range : ∀ c lo hi, sub c lo hi → holds c → aboveb lo r ∧ belowb hi r.

(** What one of the children holds lies in the interval of the page. *)
Lemma children_in_range c lo (a : list (KeyType * Z)) hi c' :
  children_ok sub c lo a hi → c' ∈ c :: a.*2 → holds c' → aboveb lo r ∧ belowb hi r.
Proof.
  revert c lo. induction a as [|[k c1] a IH]; intros c lo Hok Hin Hc'.
  - apply list_elem_of_singleton in Hin as ->. by eapply sub_in_range.
  - simpl in Hok. apply andb_True in Hok as [Hok Hrest].
    apply andb_True in Hok as [Hok Hup]. apply andb_True in Hok as [Hsub Hlo].
    simpl in Hin. apply elem_of_cons in Hin as [->|Hin].
    + destruct (sub_in_range _ _ _ Hsub Hc') as [Hlo' Hhi']. split; [done|].
      simpl in Hhi'. apply bool_decide_spec in Hhi'. by eapply belowb_uptob.
    + destruct (IH _ _ Hrest Hin Hc') as [Hlo' Hhi']. split; [|done].
      simpl in Hlo'. apply bool_decide_spec in Hlo'. by eapply aboveb_weaken.
Qed.
End Children.

(** What is stored in a search tree lies in the interval of its root. *)
Lemma search_tree_in_range h tr p lo hi key v :
  search_tree h tr p lo hi → stored h tr p key v →
  aboveb lo (rank key) ∧ belowb hi (rank key).
Proof.
  revert p lo hi. induction h as [|h IH]; intros p lo hi; simpl.
  - intros Hok (l & k & Hf & Hin & Hrank). rewrite Hf in Hok. rewrite <- Hrank.
    by eapply leaf_keys_in_range.
  - intros Hok (i & c & Hf & Hin & Hst). rewrite Hf in Hok.
    destruct (i_array i) as [|[k0 c0] a]; [done|].
    eapply (children_in_range (search_tree h tr) (λ c, stored h tr c key v));
      [|exact Hok|exact Hin|exact Hst].
    intros c1 lo1 hi1. apply IH.
Qed.

(** The child [InternalPage::Lookup] selects is the one responsible for
    the key: if any child holds the key, the selected one does. *)
Lemma lookup_from_stored (sub : Z → option Z → option Z → bool) (holds : Z → Prop)
    key c lo (a : list (KeyType * Z)) hi c' :
  (∀ c lo hi, sub c lo hi → holds c → aboveb lo (rank key) ∧ belowb hi (rank key)) →
  children_ok sub c lo a hi → c' ∈ c :: a.*2 → holds c' →
  (∃ lo' hi', sub (lookup_from comparator_ key c a) lo' hi' = true) ∧
  holds (lookup_from comparator_ key c a).
Proof.
  intros Hrange. revert c lo. induction a as [|[k c1] a IH]; intros c lo Hok Hin Hc'.
  - apply list_elem_of_singleton in Hin as ->. simpl in *.
    split; [|done]. exists lo, hi. by apply Is_true_true.
  - simpl in Hok. apply andb_True in Hok as [Hok Hrest].
    apply andb_True in Hok as [Hok Hup]. apply andb_True in Hok as [Hsub Hlo].
    simpl. simpl in Hin. apply elem_of_cons in Hin as [->|Hin].
    + destruct (Hrange _ _ _ Hsub Hc') as [_ Hhi]. simpl in Hhi.
      apply bool_decide_spec in Hhi.
      rewrite decide_False by (rewrite comparator_le; lia).
      split; [|done]. exists lo, (Some (rank k)). by apply Is_true_true.
    + destruct (children_in_range sub holds (rank key) Hrange _ _ _ _ _ Hrest Hin Hc')
        as [Hlo' _].
      simpl in Hlo'. apply bool_decide_spec in Hlo'.
      rewrite decide_True by (rewrite comparator_le; lia).
      by eapply IH.
Qed.

Lemma search_tree_fetch h tr p lo hi :
  search_tree h tr p lo hi → is_Some (fetch tr p).
Proof. destruct h; simpl; destruct (fetch tr p); done. Qed.

(** The descent for a stored key ends at a leaf in which the lookup finds
    it; [h] steps of fuel are enough. *)
Lemma descend_stored h fuel tr p node lo hi key v op txn :
  (h ≤ fuel)%nat → fetch tr p = Some node →
  search_tree h tr p lo hi → stored h tr p key v →
  ∃ leaf l txn',
    descend comparator_ fuel tr key false op txn p node = Some (leaf, txn') ∧
    fetch tr leaf = Some (Leaf l) ∧ LeafLookup comparator_ l key = Some v.
Proof.
  revert fuel p node lo hi txn.
  induction h as [|h IH]; intros fuel p node lo hi txn Hfuel Hf; simpl; rewrite Hf.
  - destruct node as [l|i]; [|by intros []]. intros Hok (l' & k & [= <-] & Hin & Hrank).
    exists p, l, txn. split; [by destruct fuel|]. split; [done|].
    destruct (leaf_lookup_stored _ _ _ _ _ _ Hok Hin Hrank) as (k' & Hat & Hcmp).
    unfold LeafLookup. rewrite Hat. by rewrite decide_True.
  - destruct node as [l|i]; [by intros []|].
    destruct (i_array i) as [|[k0 c0] a] eqn:Harr; [by intros []|].
    intros Hok (i' & c & [= <-] & Hin & Hst). rewrite Harr in Hin.
    destruct fuel as [|fuel]; [lia|]. simpl.
    unfold InternalLookup. rewrite Harr. simpl.
    assert (Hrange : ∀ c1 lo1 hi1, search_tree h tr c1 lo1 hi1 → stored h tr c1 key v →
                       aboveb lo1 (rank key) ∧ belowb hi1 (rank key)).
    { intros c1 lo1 hi1. apply search_tree_in_range. }
    destruct (lookup_from_stored (search_tree h tr) (λ c, stored h tr c key v)
                key c0 lo a hi c Hrange Hok Hin Hst) as [(lo' & hi' & Hsub) Hheld].
    apply Is_true_true in Hsub.
    destruct (search_tree_fetch _ _ _ _ _ Hsub) as [child Hchild].
    rewrite Hchild. simpl.
    eapply IH; [lia|done..].
Qed.

(** Search correctness: in a search tree the point lookup finds every
    stored pair. *)
Theorem GetValue_stored h fuel tr key v result txn :
  (h ≤ fuel)%nat → IsEmpty tr = false →
  search_tree h tr (root_page_id_ tr) None None →
  stored h tr (root_page_id_ tr) key v →
  GetValue comparator_ fuel tr key result txn = Some (true, result ++ [v]).
Proof.
  intros Hfuel Hne Hok Hst. unfold GetValue, FindLeafPage. rewrite Hne.
  destruct (search_tree_fetch _ _ _ _ _ Hok) as [node Hnode]. rewrite Hnode. simpl.
  destruct (descend_stored h fuel tr (root_page_id_ tr) node None None key v READ txn
              Hfuel Hnode Hok Hst) as (leaf & l & txn' & -> & Hleaf & Hlook).
  simpl. unfold fetch_leaf. rewrite Hleaf. simpl. by rewrite Hlook.
Qed.

(** A key stored in a search tree is refused by [Insert], which leaves the
    tree as it is. *)
Corollary Insert_stored_key h fuel tr key v value txn :
  (h ≤ fuel)%nat → IsEmpty tr = false →
  search_tree h tr (root_page_id_ tr) None None →
  stored h tr (root_page_id_ tr) key v →
  ∃ txn', Insert comparator_ fuel tr key value txn = Some (false, tr, txn').
Proof.
  intros Hfuel Hne Hok Hst.
  eapply Insert_found_key.
  exact (GetValue_stored h fuel tr key v [] txn Hfuel Hne Hok Hst).
Qed.

End SearchCorrectness.

Section Witnesses.
Import Examples.



Lemma C7_lock_shared_failures_witness :
  LockManager.LockShared (world_of [txn_new 1 LockManager.READ_UNCOMMITTED]) 1 rid_a =
    Some (LockManager.Throws 1 LockManager.LOCKSHARED_ON_READ_UNCOMMITTED,
          LockManager.set_txn (world_of [txn_new 1 LockManager.READ_UNCOMMITTED])
            (LockManager.SetState (txn_new 1 LockManager.READ_UNCOMMITTED)
               LockManager.ABORTED)).
Proof.
  apply (C7_lock_shared_failures (world_of [txn_new 1 LockManager.READ_UNCOMMITTED]) 1 rid_a
           (txn_new 1 LockManager.READ_UNCOMMITTED)).
  - reflexivity.
  - reflexivity.
  - split; [reflexivity|]. right; left.
    repeat split; try reflexivity; try discriminate.
Defined.

(** C7 fails at the deadlock of scenario 5.  Transaction 2, growing and at
    repeatable-read, calls [LockShared] on row a and goes to sleep; the
    detector aborts it; woken up, the call raises with reason deadlock and
    row a is not in its shared lock set.  The same reason is raised at once
    when an aborted transaction calls [LockShared]. *)
Lemma C7_deadlock_counterexample :
  (w ← deadlocked;
   txn ← LockManager.txn_map w !! 2;
   '(o_call, w) ← LockManager.LockShared w 2 rid_a;
   w ← LockManager.RunCycleDetection 4 4 w 0;
   '(o_wake, w) ← LockManager.LockShared_wait w 2 rid_a 3;
   txn' ← LockManager.txn_map w !! 2;
   Some (LockManager.state_ txn, LockManager.isolation_level_ txn, o_call, o_wake,
         LockManager.IsSharedLocked txn' rid_a)) =
    Some (LockManager.GROWING, LockManager.REPEATABLE_READ, LockManager.Blocks 3,
          LockManager.Throws 2 LockManager.DEADLOCK, false) ∧
  fst <$> LockManager.LockShared
            (world_of [LockManager.mkTxn 5 LockManager.REPEATABLE_READ
                         LockManager.ABORTED ∅ ∅]) 5 rid_a =
    Some (LockManager.Throws 5 LockManager.DEADLOCK).
Proof. split; vm_compute; reflexivity. Qed.


(** The scan of [two_rows] that slept on row a, from its wake-up on, with
    the transaction snapshots left out: the call of [LockShared] that put it
    to sleep is the one before the read of row a. *)
Lemma scan_woken_trace :
  ('(w, st, node) ← scan_woken;
   r ← SeqScan.Next_wake above_15 (λ v : Z, v) 1 w st node;
   Some (SeqScan.trace st, r.1.1,
         (λ e, match e with
               | SeqScan.EvRead rid _ => SeqScan.EvRead rid (txn_new 1 LockManager.READ_COMMITTED)
               | e => e
               end) <$> SeqScan.trace r.2)) =
  Some ([SeqScan.EvLockShared rid_a],
        SeqScan.Produced 20 rid_b,
        [SeqScan.EvLockShared rid_a;
         SeqScan.EvRead rid_a (txn_new 1 LockManager.READ_COMMITTED);
         SeqScan.EvPredicate rid_a false;
         SeqScan.EvUnlock rid_a;
         SeqScan.EvLockShared rid_b;
         SeqScan.EvRead rid_b (txn_new 1 LockManager.READ_COMMITTED);
         SeqScan.EvPredicate rid_b true;
         SeqScan.EvProject rid_b;
         SeqScan.EvUnlock rid_b]).
Proof. vm_compute. reflexivity. Qed.

(** The scan of [two_rows] at read-committed, with the transaction
    snapshots left out: the first row fails the predicate and is released,
    the second one is produced and released. *)
Lemma scan_two_rows_trace :
  (λ r, (r.1.1,
         (λ e, match e with
               | SeqScan.EvRead rid _ => SeqScan.EvRead rid (txn_new 1 LockManager.READ_COMMITTED)
               | e => e
               end) <$> SeqScan.trace r.2)) <$>
    SeqScan.scan above_15 (λ v : Z, v) 1 two_rows
      (world_of [txn_new 1 LockManager.READ_COMMITTED]) [] =
  Some (SeqScan.Produced 20 rid_b,
        [SeqScan.EvLockShared rid_a;
         SeqScan.EvRead rid_a (txn_new 1 LockManager.READ_COMMITTED);
         SeqScan.EvPredicate rid_a false;
         SeqScan.EvUnlock rid_a;
         SeqScan.EvLockShared rid_b;
         SeqScan.EvRead rid_b (txn_new 1 LockManager.READ_COMMITTED);
         SeqScan.EvPredicate rid_b true;
         SeqScan.EvProject rid_b;
         SeqScan.EvUnlock rid_b]).
Proof. vm_compute. reflexivity. Qed.

Lemma int_comparator_lt a b : int_comparator a b < 0 ↔ a < b.
Proof. unfold int_comparator. destruct (Z.compare_spec a b); lia. Qed.

Lemma int_comparator_eq a b : int_comparator a b = 0 ↔ a = b.
Proof. unfold int_comparator. destruct (Z.compare_spec a b); lia. Qed.

(** The tree of scenario 3 is a search tree of height 2 that stores key 7
    with the Rid (7, 0); a second insertion of key 7 is refused. *)
Lemma nine_keys_search_tree :
  match nine_keys with
  | Some tr =>
      BPlusTree.search_tree (λ k, k) 2 tr (BPlusTree.root_page_id_ tr) None None = true ∧
      BPlusTree.stored (λ k, k) 2 tr (BPlusTree.root_page_id_ tr) 7 (7, 0) ∧
      ∃ txn', BPlusTree.Insert int_comparator 8 tr 7 (0, 0) no_latches = Some (false, tr, txn')
  | None => False
  end.
Proof.
  destruct nine_keys as [tr|] eqn:Htr; [|vm_compute in Htr; discriminate].
  vm_compute in Htr. injection Htr as <-.
  match goal with |- ?S ∧ _ => assert (Hok : S) by (vm_compute; reflexivity) end.
  split; [exact Hok|].
  match goal with |- ?S ∧ _ => assert (Hst : S) end.
  { simpl. eexists _, 6. split; [vm_compute; reflexivity|]. split; [set_solver|].
    eexists _, 2. split; [vm_compute; reflexivity|]. split; [set_solver|].
    eexists _, 7. split; [vm_compute; reflexivity|]. split; [set_solver|done]. }
  split; [exact Hst|].
  eapply (Insert_stored_key int_comparator (λ k, k) int_comparator_lt int_comparator_eq 2 8);
    [lia|done|by apply Is_true_true|exact Hst].
Qed.

(** Scenario 3 of the specification on the model: after the nine
    insertions and the removal of 1, 9 and 5 the leaf chain holds
    2, 3, 4, 6, 7, 8. *)
Lemma scenario_3_leaf_chain :
  (tr ← nine_keys;
   tr ← foldl (λ acc k, tr ← acc;
                        '(tr, _) ← BPlusTree.Remove int_comparator 0 8 tr k no_latches;
                        Some tr) (Some tr) [1; 9; 5];
   '(leaf, _) ← BPlusTree.FindLeafPage int_comparator 8 tr 0 true BPlusTree.READ no_latches;
   chain ← BPlusTree.leaf_chain 8 tr leaf;
   Some chain.*1) = Some [2; 3; 4; 6; 7; 8].
Proof. vm_compute. reflexivity. Qed.

End Witnesses.

(* ===================================================================== *)
(** ** The eviction order of the replacer *)
(* ===================================================================== *)

Section ReplacerOrder.
Import LRUReplacer.

Lemma filter_ne_absent (f : Z) (l : list Z) : f ∉ l → filter (λ x, x ≠ f) l = l.
Proof.
  induction l as [|y l IH]; [done|]. intros Hnot.
  rewrite filter_cons, decide_True by set_solver. f_equal. apply IH. set_solver.
Qed.

Lemma erase_node_filter (f : Z) (l : list Z) :
  NoDup l → erase_node f l = filter (λ x, x ≠ f) l.
Proof.
  induction 1 as [|y l Hy Hl IH]; simpl; [done|].
  rewrite filter_cons. case_decide as Hyf.
  - subst. rewrite decide_False by tauto. by rewrite filter_ne_absent.
  - rewrite decide_True by done. by rewrite IH.
Qed.

(** Frames unpinned one after the other, none of them twice and no more
    than the replacer holds, are listed newest first. *)
Lemma list_after_unpins (fs : list Z) (r : t) :
  wf r → NoDup fs → (∀ f, f ∈ fs → f ∉ list_ r) →
  (length fs + Size r ≤ num_pages_ r)%nat →
  list_ (foldl Unpin r fs) = reverse fs ++ list_ r.
Proof.
  revert r. induction fs as [|f fs IH]; intros r Hwf Hnd Hnew Hroom; [done|].
  apply NoDup_cons in Hnd as [Hf Hnd]. simpl in Hroom.
  assert (Hstep : Unpin r f = {| num_pages_ := num_pages_ r; list_ := f :: list_ r;
                                  map_ := {[f]} ∪ map_ r |}).
  { unfold Unpin. rewrite decide_False; [done|].
    intros [Hfull|Hin]; [lia|]. destruct Hwf as [_ Hmap]. apply Hmap in Hin.
    by apply (Hnew f); [left|]. }
  simpl. rewrite IH.
  - rewrite Hstep. simpl. rewrite reverse_cons, <- app_assoc. done.
  - by apply Unpin_wf.
  - done.
  - intros g Hg. rewrite Hstep. simpl. rewrite not_elem_of_cons. split.
    + intros ->. done.
    + apply Hnew. by right.
  - rewrite Hstep. unfold Size in *. simpl. lia.
Qed.

(** [Victim] takes the listed frames from the back. *)
Lemma victims_reverse (k : nat) (r : t) :
  (length (list_ r) < k)%nat → victims k r = reverse (list_ r).
Proof.
  revert r. induction k as [|k IH]; intros r Hk; [lia|].
  simpl. unfold Victim, Size.
  destruct (list_ r) as [|x l _] eqn:Hl using rev_ind.
  - by rewrite decide_True.
  - rewrite length_app in Hk. simpl in Hk.
    rewrite decide_False by (rewrite length_app; simpl; lia).
    rewrite last_last, removelast_last.
    rewrite IH by (simpl; lia).
    simpl. by rewrite reverse_snoc.
Qed.

(** X1.  The replacer evicts in the order of the [Unpin] calls: after
    frames [fs], all different and no more than the replacer was created
    for, were unpinned on a new replacer, [Victim] returns them one by one
    in that order, oldest first, and then finds nothing. *)
Theorem victims_in_unpin_order (n : nat) (fs : list Z) :
  NoDup fs → (length fs ≤ n)%nat →
  victims (S (length fs)) (foldl Unpin (create n) fs) = fs.
Proof.
  intros Hnd Hlen.
  assert (Hlist : list_ (foldl Unpin (create n) fs) = reverse fs ++ []).
  { apply list_after_unpins; [|done| |unfold Size; simpl; lia].
    - split; [constructor|]. intros f. simpl. set_solver.
    - intros f _. simpl. set_solver. }
  rewrite app_nil_r in Hlist.
  rewrite victims_reverse by (rewrite Hlist, length_reverse; lia).
  by rewrite Hlist, reverse_involutive.
Qed.

(** X2.  The representation invariant of the replacer and its capacity
    bound hold for a new replacer and are kept by [Pin], [Unpin] and
    [Victim], none of which changes the capacity. *)
Theorem replacer_invariant (r : t) (f : Z) :
  wf r → (Size r ≤ num_pages_ r)%nat →
  (∀ n, wf (create n) ∧ Size (create n) = 0%nat ∧ num_pages_ (create n) = n) ∧
  (wf (Pin r f) ∧ (Size (Pin r f) ≤ Size r)%nat ∧ num_pages_ (Pin r f) = num_pages_ r) ∧
  (wf (Unpin r f) ∧ (Size (Unpin r f) ≤ num_pages_ r)%nat ∧
   num_pages_ (Unpin r f) = num_pages_ r) ∧
  (∀ x ok v r', Victim r x = (ok, v, r') →
     wf r' ∧ (Size r' ≤ Size r)%nat ∧ num_pages_ r' = num_pages_ r ∧
     (ok = false ↔ Size r = 0%nat) ∧
     (ok = true → v ∈ list_ r ∧ (v ∉ list_ r') ∧ Size r = S (Size r'))).
Proof.
  intros Hwf Hcap. split; [|split; [|split]].
  - intros n. split; [|done]. split; [constructor|]. intros x; simpl. set_solver.
  - split; [by apply Pin_wf|]. unfold Pin. case_decide; simpl; [|done].
    split; [|done]. unfold Size; simpl.
    rewrite erase_node_filter by apply Hwf. apply length_filter.
  - split; [by apply Unpin_wf|]. unfold Unpin. case_decide as Hc; simpl; [done|].
    split; [|done]. unfold Size in *; simpl.
    assert (length (list_ r) ≠ num_pages_ r) by tauto. lia.
  - intros x ok v r' Hv.
    destruct (Victim_wf _ _ _ _ _ Hwf Hv) as (Hwf' & Hn & Hsub).
    split; [done|]. revert Hv. unfold Victim. case_decide as Hsz.
    { intros [= <- <- <-]. repeat split; try done. }
    intros [= <- <- <-]. unfold Size in *. simpl in *.
    destruct (list_ r) as [|y l] eqn:Hl using rev_ind; [done|]. clear IHl.
    rewrite last_last, removelast_last in *. rewrite length_app. simpl.
    split; [lia|]. split; [done|]. split; [split; [done|lia]|].
    intros _. split; [set_solver|]. split; [|lia].
    destruct Hwf as [Hnd _]. rewrite Hl in Hnd.
    apply NoDup_app in Hnd as (_ & Hdisj & _). intros Hin. eapply Hdisj; [done|set_solver].
Qed.

(** X3.  [Pin] takes exactly the pinned frame out of the eviction order,
    so that [Victim] cannot return it, and keeps the order of the others;
    [Unpin] of a frame that is already listed leaves it at its place, and
    a second [Unpin] of a frame never changes anything. *)
Theorem Pin_Unpin_listing (r : t) (f : Z) :
  wf r →
  list_ (Pin r f) = filter (λ x, x ≠ f) (list_ r) ∧
  (∀ x ok v r', Victim (Pin r f) x = (ok, v, r') → ok = true → v ≠ f) ∧
  (f ∈ list_ r → Unpin r f = r) ∧
  Unpin (Unpin r f) f = Unpin r f.
Proof.
  intros Hwf. split; [|split; [|split]].
  - unfold Pin. case_decide as Hin; simpl.
    + apply erase_node_filter, Hwf.
    + symmetry. apply filter_ne_absent. by rewrite <- (proj2 Hwf).
  - intros x ok v r' Hv ->.
    pose proof (Pin_not_elem r f Hwf) as Hnot.
    revert Hv. unfold Victim, Size. case_decide as Hsz; [done|].
    intros [= <- _]. intros Heq. apply Hnot.
    destruct (list_ (Pin r f)) as [|y l] eqn:Hl using rev_ind; [done|].
    rewrite last_last in Heq. set_solver.
  - intros Hin. unfold Unpin. rewrite decide_True; [done|]. right. by apply Hwf.
  - unfold Unpin. destruct (decide (Size r = num_pages_ r ∨ f ∈ map_ r)) as [Hc|Hc].
    + by rewrite decide_True.
    + rewrite decide_True; [done|]. right. simpl. set_solver.
Qed.

End ReplacerOrder.

(* ===================================================================== *)
(** ** The invariant of the buffer pool *)
(* ===================================================================== *)

Section PoolInvariant.
Import BufferPool.
Context {D : Type}.
Variable zero : D.
Implicit Types (b : BufferPool.t (D:=D)) (pg : Page (D:=D)).

Lemma frame_at_pages b b' f : pages_ b' = pages_ b → frame_at b' f = frame_at b f.
Proof. unfold frame_at. by intros ->. Qed.

Lemma frame_at_insert b b' f pg' g :
  pages_ b' = <[Z.to_nat f := pg']> (pages_ b) → is_Some (frame_at b f) →
  frame_at b' g = if decide (g = f) then Some pg' else frame_at b g.
Proof.
  intros Hp [pg Hfr]. pose proof (frame_at_lt _ _ _ Hfr) as Hlt.
  unfold frame_at. rewrite Hp. destruct (decide (g = f)) as [->|Hgf].
  - rewrite decide_True by lia. apply list_lookup_insert_eq. lia.
  - case_decide; [|done]. rewrite list_lookup_insert_ne; [done|]. lia.
Qed.

Lemma create_inv (n : nat) (dm : DiskManager D) :
  0 ≤ next_page_id_ dm → inv (create zero n dm).
Proof.
  intros Hnext. split; [apply create_wf|]. split; [done|].
  assert (Hfresh : ∀ f pg, frame_at (create zero n dm) f = Some pg → pg = fresh_page zero).
  { intros f pg. unfold frame_at; simpl. case_decide; [|done].
    intros Hl. apply lookup_replicate in Hl as [-> _]. done. }
  split_and!.
  - intros p f Hlk. simpl in Hlk. by rewrite lookup_empty in Hlk.
  - intros f pg Hfr Hvalid. apply Hfresh in Hfr as ->. done.
  - intros f Hf. simpl in Hf. by apply elem_of_nil in Hf.
  - intros f pg Hfr Hvalid. apply Hfresh in Hfr as ->. done.
  - simpl. apply NoDup_fmap; [intros x y; lia|]. apply NoDup_seq.
  - intros f Hf. simpl in Hf. apply list_elem_of_fmap in Hf as (k & -> & Hk).
    apply elem_of_seq in Hk. exists (fresh_page zero). split; [|done].
    unfold frame_at; simpl. case_decide; [|lia].
    rewrite Nat2Z.id. apply lookup_replicate. split; [done|lia].
  - intros f pg Hfr _. simpl. apply list_elem_of_fmap. exists (Z.to_nat f).
    apply frame_at_lt in Hfr. simpl in Hfr. rewrite length_replicate in Hfr.
    split; [lia|]. apply elem_of_seq. lia.
Qed.

(** A frame that holds a page is not on the free list. *)
Lemma inv_resident_not_free b p f :
  inv b → page_table_ b !! p = Some f → f ∉ free_list_ b.
Proof.
  intros (_ & _ & Hpt & _ & _ & _ & _ & Hfree & _) Hlk Hin.
  destruct (Hpt _ _ Hlk) as (Hrange & pg & Hfr & Hid).
  destruct (Hfree _ Hin) as (pg' & Hfr' & Hid' & _).
  rewrite Hfr in Hfr'. injection Hfr' as <-. unfold INVALID_PAGE_ID in Hid'. lia.
Qed.

(** The frame [GetVictimFrameId] hands out is unpinned, and it is taken
    off the list it came from. *)
Lemma victim_facts b f b1 :
  inv b → GetVictimFrameId b = (f, b1) → f ≠ INVALID_PAGE_ID →
  ∃ pg, frame_at b f = Some pg ∧ pin_count_ pg = 0 ∧
    (free_list_ b = [] ∨ (page_id_ pg = INVALID_PAGE_ID ∧ is_dirty_ pg = false)) ∧
    NoDup (free_list_ b1) ∧ (f ∉ free_list_ b1) ∧
    (∀ g, g ∈ free_list_ b1 → g ∈ free_list_ b) ∧
    (∀ g, g ∈ LRUReplacer.list_ (replacer_ b1) → g ∈ LRUReplacer.list_ (replacer_ b)) ∧
    (∀ g, g ≠ f → g ∈ free_list_ b → g ∈ free_list_ b1) ∧
    (∀ g, g ≠ f → g ∈ LRUReplacer.list_ (replacer_ b) →
          g ∈ LRUReplacer.list_ (replacer_ b1)).
Proof.
  intros (Hwf & _ & _ & _ & Hrepl & _ & Hnd & Hfree & _).
  unfold GetVictimFrameId. destruct (free_list_ b) as [|g rest] eqn:Hfl.
  - destruct (LRUReplacer.Victim _ _) as [[ok v] r] eqn:Hv. intros [= <- <-] Hvalid.
    destruct Hwf as (Hr & _).
    destruct (Victim_wf _ _ _ _ _ Hr Hv) as (_ & _ & Hsub).
    revert Hv. unfold LRUReplacer.Victim. case_decide as Hsz; [by intros [= _ <- _]|].
    intros [= _ Hlast Hr'].
    assert (Hsplit : LRUReplacer.list_ (replacer_ b) = LRUReplacer.list_ r ++ [v]).
    { rewrite <- Hlast, <- Hr'. simpl. unfold LRUReplacer.Size in Hsz.
      destruct (LRUReplacer.list_ (replacer_ b)) as [|y l _] eqn:Hl using rev_ind; [done|].
      by rewrite last_last, removelast_last. }
    assert (Hin : v ∈ LRUReplacer.list_ (replacer_ b)) by (rewrite Hsplit; set_solver).
    destruct (Hrepl _ Hin) as (pg & Hfr & Hpin). exists pg. simpl. rewrite Hfl.
    split_and!; [done|done|by left|constructor|set_solver|done|done|done|].
    intros g Hne. rewrite Hsplit. set_solver.
  - intros [= <- <-] _. apply NoDup_cons in Hnd as [Hg Hnd].
    destruct (Hfree g) as (pg & Hfr & Hid & Hpin & Hclean); [by left|].
    exists pg. simpl. split_and!; [done|done|by right|done|done|set_solver|done| |done].
    intros x Hne. set_solver.
Qed.

Lemma Pin_other (r : LRUReplacer.t) (f x : Z) :
  x ≠ f → x ∈ LRUReplacer.list_ r → x ∈ LRUReplacer.list_ (LRUReplacer.Pin r f).
Proof.
  intros Hne Hx. unfold LRUReplacer.Pin. case_decide; simpl; [|done].
  by apply erase_node_other.
Qed.

(** The state after a frame was taken for a page that was not resident. *)
Lemma inv_reuse b b1 f pg0 b' q pg' :
  inv b → GetVictimFrameId b = (f, b1) → f ≠ INVALID_PAGE_ID →
  frame_at b f = Some pg0 →
  page_table_ b !! q = None → 0 ≤ q < next_page_id_ (disk_manager_ b') →
  next_page_id_ (disk_manager_ b) ≤ next_page_id_ (disk_manager_ b') →
  pages_ b' = <[Z.to_nat f := pg']> (pages_ b1) →
  page_table_ b' = <[q := f]> (delete (page_id_ pg0) (page_table_ b1)) →
  free_list_ b' = free_list_ b1 →
  replacer_ b' = LRUReplacer.Pin (replacer_ b1) f →
  page_id_ pg' = q → pin_count_ pg' = 1 →
  wf b' → inv b'.
Proof.
  intros Hinv Hv Hvalid Hfr0 Hq Hqr Hnext Hpages Htable Hfl Hrp Hid' Hpin' Hwf'.
  destruct (GetVictimFrameId_pages _ _ _ Hv) as (Hp1 & Ht1 & _).
  rewrite Hp1 in Hpages. rewrite Ht1 in Htable.
  assert (Hwf1 : wf b1) by (eapply GetVictimFrameId_wf; [done|apply Hinv]).
  destruct (victim_facts _ _ _ Hinv Hv Hvalid)
    as (pg0' & Hfr0' & Hpin0 & _ & Hnd1 & Hnot1 & Hsub1 & Hrsub & Hfkeep & Hrkeep).
  rewrite Hfr0 in Hfr0'. injection Hfr0' as <-.
  destruct Hinv as (Hwf & Hn0 & Hpt & Hfp & Hrepl & Hlisted & Hnd & Hfree & Hholds).
  assert (Hframe : ∀ g, frame_at b' g = if decide (g = f) then Some pg' else frame_at b g).
  { intros g. by apply frame_at_insert. }
  split; [done|]. split; [lia|]. split_and!.
  - intros p g. rewrite Htable. destruct (decide (q = p)) as [->|Hne].
    + rewrite lookup_insert_eq. intros [= <-]. split; [done|].
      exists pg'. rewrite Hframe, decide_True by done. done.
    + rewrite lookup_insert_ne by done. intros Hd.
      apply lookup_delete_Some in Hd as [Hno Hlk].
      destruct (Hpt _ _ Hlk) as (Hrange & pg & Hfr & Hid).
      split; [lia|]. exists pg. rewrite Hframe.
      rewrite decide_False; [done|]. intros ->. rewrite Hfr0 in Hfr. by injection Hfr as ->.
  - intros g pg. rewrite Hframe. destruct (decide (g = f)) as [->|Hne].
    + intros [= <-] _. rewrite Htable, Hid'. apply lookup_insert_eq.
    + intros Hfr Hval. pose proof (Hfp _ _ Hfr Hval) as Hlk.
      rewrite Htable. rewrite lookup_insert_ne by (intros Hqe; rewrite <- Hqe in Hlk; congruence).
      rewrite lookup_delete_ne; [done|]. intros Heq.
      assert (page_table_ b !! page_id_ pg0 = Some f) as Hlk0.
      { apply Hfp; [done|]. by rewrite Heq. }
      rewrite Heq in Hlk0. congruence.
  - intros x. rewrite Hrp. intros Hx.
    assert (x ≠ f).
    { intros ->. revert Hx. apply Pin_not_elem. apply Hwf1. }
    apply Pin_subset, Hrsub, Hrepl in Hx as (pg & Hfr & Hpin).
    exists pg. by rewrite Hframe, decide_False.
  - intros g pg. rewrite Hframe, Hrp. destruct (decide (g = f)) as [->|Hne].
    + intros [= <-] _ Hz. lia.
    + intros Hfr Hval Hz. apply Pin_other; [done|]. apply Hrkeep; [done|]. by eapply Hlisted.
  - by rewrite Hfl.
  - intros g. rewrite Hfl. intros Hg.
    assert (g ≠ f) by (by intros ->).
    destruct (Hfree g (Hsub1 _ Hg)) as (pg & Hfr & Hrest).
    exists pg. by rewrite Hframe, decide_False.
  - intros g pg. rewrite Hframe, Hfl. destruct (decide (g = f)) as [->|Hne].
    + intros [= <-] Hbad. unfold INVALID_PAGE_ID in Hbad. lia.
    + intros Hfr Hbad. apply Hfkeep; [done|]. by eapply Hholds.
Qed.

(** The state after the metadata of a frame that holds a page changed. *)
Lemma inv_update_frame b f pg b' pg' :
  inv b → frame_at b f = Some pg → page_id_ pg ≠ INVALID_PAGE_ID →
  page_id_ pg' = page_id_ pg →
  pages_ b' = <[Z.to_nat f := pg']> (pages_ b) →
  page_table_ b' = page_table_ b →
  free_list_ b' = free_list_ b →
  next_page_id_ (disk_manager_ b') = next_page_id_ (disk_manager_ b) →
  (∀ x, x ∈ LRUReplacer.list_ (replacer_ b') →
     (x = f ∧ pin_count_ pg' = 0) ∨ (x ≠ f ∧ x ∈ LRUReplacer.list_ (replacer_ b))) →
  (∀ x, x ≠ f → x ∈ LRUReplacer.list_ (replacer_ b) →
        x ∈ LRUReplacer.list_ (replacer_ b')) →
  (pin_count_ pg' = 0 → f ∈ LRUReplacer.list_ (replacer_ b')) →
  wf b' → inv b'.
Proof.
  intros (Hwf & Hn0 & Hpt & Hfp & Hrepl & Hlisted & Hnd & Hfree & Hholds) Hfr0 Hval Hid' Hpages Htable Hfl
    Hnext Hrp Hrkeep Hrf Hwf'.
  assert (Hframe : ∀ g, frame_at b' g = if decide (g = f) then Some pg' else frame_at b g).
  { intros g. by apply frame_at_insert. }
  split; [done|]. split; [lia|]. split_and!.
  - intros p g. rewrite Htable, Hnext. intros Hlk.
    destruct (Hpt _ _ Hlk) as (Hrange & pg1 & Hfr & Hid). split; [done|].
    rewrite Hframe. destruct (decide (g = f)) as [->|Hne]; [|by exists pg1].
    exists pg'. split; [done|]. rewrite Hfr0 in Hfr. injection Hfr as <-. congruence.
  - intros g pg1. rewrite Hframe, Htable. destruct (decide (g = f)) as [->|Hne].
    + intros [= <-] _. rewrite Hid'. by apply Hfp.
    + apply Hfp.
  - intros x Hx. rewrite Hframe. destruct (Hrp _ Hx) as [[-> Hpin]|[Hne Hin]].
    + exists pg'. by rewrite decide_True.
    + rewrite decide_False by done. by apply Hrepl.
  - intros g pg1. rewrite Hframe. destruct (decide (g = f)) as [->|Hne].
    + intros [= <-] _ Hz. by apply Hrf.
    + intros Hfr Hv1 Hz. apply Hrkeep; [done|]. by eapply Hlisted.
  - by rewrite Hfl.
  - intros g. rewrite Hfl. intros Hg.
    destruct (Hfree g Hg) as (pg1 & Hfr & Hidg & Hrest).
    exists pg1. rewrite Hframe. rewrite decide_False; [done|].
    intros ->. rewrite Hfr0 in Hfr. injection Hfr as <-. done.
  - intros g pg1. rewrite Hframe, Hfl. destruct (decide (g = f)) as [->|Hne].
    + intros [= <-] Hbad. congruence.
    + apply Hholds.
Qed.


Lemma inv_fields b b' :
  pages_ b' = pages_ b → page_table_ b' = page_table_ b → free_list_ b' = free_list_ b →
  replacer_ b' = replacer_ b → disk_manager_ b' = disk_manager_ b →
  inv b → inv b'.
Proof.
  intros Hp Ht Hf Hr Hd. unfold inv, wf, frame_at. by rewrite Hp, Ht, Hf, Hr, Hd.
Qed.

(** When [GetVictimFrameId] finds no frame, it leaves the pool as it is. *)
Lemma no_victim b b1 :
  inv b → GetVictimFrameId b = (INVALID_PAGE_ID, b1) →
  b1 = b ∧ free_list_ b = [] ∧ LRUReplacer.list_ (replacer_ b) = [].
Proof.
  intros Hinv. pose proof Hinv as (Hwf & _ & _ & _ & _ & _ & _ & Hfree & _).
  unfold GetVictimFrameId. destruct (free_list_ b) as [|g rest] eqn:Hfl.
  - unfold LRUReplacer.Victim. case_decide as Hsz.
    + intros [= <-]. split; [by destruct b|]. split; [done|].
      unfold LRUReplacer.Size in Hsz. by destruct (LRUReplacer.list_ (replacer_ b)).
    + intros [= Hlast _]. exfalso.
      destruct Hwf as (_ & _ & Hrange & _).
      assert (Hin : INVALID_PAGE_ID ∈ LRUReplacer.list_ (replacer_ b)).
      { rewrite <- Hlast at 1. unfold LRUReplacer.Size in Hsz.
        destruct (LRUReplacer.list_ (replacer_ b)) as [|y l _] using rev_ind; [done|].
        rewrite last_last. set_solver. }
      apply Hrange in Hin. unfold INVALID_PAGE_ID in Hin. lia.
  - intros [= -> _]. exfalso.
    destruct (Hfree INVALID_PAGE_ID) as (pg & Hfr & _); [by left|].
    apply frame_at_lt in Hfr. unfold INVALID_PAGE_ID in Hfr. lia.
Qed.

Lemma inv_FetchPageImpl b q :
  inv b → 0 ≤ q < next_page_id_ (disk_manager_ b) →
  ∃ r b', FetchPageImpl zero b q = Some (r, b') ∧ inv b'.
Proof.
  intros Hinv Hq. pose proof Hinv as (Hwf & Hn0 & Hpt & Hfp & Hrepl & Hlisted & Hnd & Hfree & Hholds).
  destruct (FetchPageImpl zero b q) as [[r b']|] eqn:Hrun.
  - exists r, b'. split; [done|].
    assert (Hwf' : wf b') by (by eapply (proj1 (wf_preserved zero b Hwf))).
    revert Hrun. unfold FetchPageImpl.
    destruct (page_table_ b !! q) as [f|] eqn:Hlk.
    + destruct (Hpt _ _ Hlk) as (_ & pg & Hfr & Hid). rewrite Hfr. simpl.
      intros [= <- <-].
      assert (Hpin : 0 ≤ pin_count_ pg).
      { destruct Hwf as (_ & _ & _ & Hp). destruct (Hp _ _ Hlk) as (pg1 & Hfr1 & ?).
        congruence. }
      eapply (inv_update_frame b f pg _ (set_pin_count pg (pin_count_ pg + 1)));
        try done.
      * unfold INVALID_PAGE_ID. lia.
      * simpl. intros x Hx. right. split.
        -- intros ->. revert Hx. apply Pin_not_elem, Hwf.
        -- by eapply Pin_subset.
      * simpl. intros x Hne Hx. by apply Pin_other.
      * simpl. lia.
    + destruct (GetVictimFrameId b) as [f b1] eqn:Hv.
      case_decide as Hf.
      { intros [= <- <-]. subst f. by destruct (no_victim _ _ Hinv Hv) as (-> & _). }
      destruct (victim_facts _ _ _ Hinv Hv Hf) as (pg0 & Hfr0 & _).
      destruct (GetVictimFrameId_pages _ _ _ Hv) as (Hp1 & Ht1 & Hd1).
      rewrite (frame_at_pages b b1) by done. rewrite Hfr0. simpl.
      intros [= <- <-]. revert Hwf'. unfold write_back_if_dirty.
      destruct (is_dirty_ pg0); intros Hwf';
        (eapply (inv_reuse b b1 f pg0 _ q); try exact Hwf'; try done;
         simpl; rewrite ?Hd1; (done || lia)).
  - exfalso. revert Hrun. unfold FetchPageImpl.
    destruct (page_table_ b !! q) as [f|] eqn:Hlk.
    + destruct (Hpt _ _ Hlk) as (_ & pg & Hfr & Hid). by rewrite Hfr.
    + destruct (GetVictimFrameId b) as [f b1] eqn:Hv.
      case_decide as Hf; [done|].
      destruct (victim_facts _ _ _ Hinv Hv Hf) as (pg0 & Hfr0 & _).
      destruct (GetVictimFrameId_pages _ _ _ Hv) as (Hp1 & Ht1 & Hd1).
      rewrite (frame_at_pages b b1) by done. by rewrite Hfr0.
Qed.


Lemma inv_NewPageImpl b :
  inv b → ∃ r b', NewPageImpl zero b = Some (r, b') ∧ inv b'.
Proof.
  intros Hinv. pose proof Hinv as (Hwf & Hn0 & Hpt & Hfp & Hrepl & Hlisted & Hnd & Hfree & Hholds).
  assert (Hnew : page_table_ b !! next_page_id_ (disk_manager_ b) = None).
  { destruct (page_table_ b !! next_page_id_ (disk_manager_ b)) as [g|] eqn:Hlk; [|done].
    destruct (Hpt _ _ Hlk) as (Hrange & _). lia. }
  unfold NewPageImpl.
  destruct (GetVictimFrameId b) as [f b1] eqn:Hv.
  case_decide as Hf.
  { subst f. destruct (no_victim _ _ Hinv Hv) as (-> & _). by eexists _, _. }
  destruct (victim_facts _ _ _ Hinv Hv Hf) as (pg0 & Hfr0 & _).
  destruct (GetVictimFrameId_pages _ _ _ Hv) as (Hp1 & Ht1 & Hd1).
  rewrite (frame_at_pages b b1) by done. rewrite Hfr0. simpl.
  eexists _, _. split; [reflexivity|].
  match goal with |- inv ?b' =>
    assert (Hwf' : wf b');
    [eapply (proj1 (proj2 (proj2 (wf_preserved zero b Hwf))));
     unfold NewPageImpl; rewrite Hv; rewrite decide_False by done;
     rewrite (frame_at_pages b b1) by done; rewrite Hfr0; reflexivity|]
  end.
  revert Hwf'. unfold write_back_if_dirty.
  destruct (is_dirty_ pg0); intros Hwf';
    (eapply (inv_reuse b b1 f pg0 _ (next_page_id_ (disk_manager_ b)));
     try exact Hwf'; try done; simpl; rewrite ?Hd1; (done || lia)).
Qed.

Lemma inv_not_listed_when_pinned b f pg :
  inv b → frame_at b f = Some pg → pin_count_ pg ≠ 0 →
  (f ∉ LRUReplacer.list_ (replacer_ b)) ∧ (f ∉ free_list_ b).
Proof.
  intros (_ & _ & _ & _ & Hrepl & _ & _ & Hfree & _) Hfr Hpin. split.
  - intros Hin. destruct (Hrepl _ Hin) as (pg' & Hfr' & Hpin'). congruence.
  - intros Hin. destruct (Hfree _ Hin) as (pg' & Hfr' & _ & Hpin' & _). congruence.
Qed.

Lemma inv_UnpinPageImpl b p d :
  inv b → ∃ r b', UnpinPageImpl b p d = Some (r, b') ∧ inv b'.
Proof.
  intros Hinv. pose proof Hinv as (Hwf & Hn0 & Hpt & Hfp & Hrepl & Hlisted & Hnd & Hfree & Hholds).
  destruct (UnpinPageImpl b p d) as [[r b']|] eqn:Hrun.
  - exists r, b'. split; [done|].
    assert (Hwf' : wf b') by (by eapply (proj1 (proj2 (wf_preserved zero b Hwf)))).
    revert Hrun. unfold UnpinPageImpl.
    destruct (page_table_ b !! p) as [f|] eqn:Hlk; [|by intros [= <- <-]].
    destruct (Hpt _ _ Hlk) as (Hrange & pg & Hfr & Hid). rewrite Hfr. simpl.
    case_decide as Hpin; [by intros [= <- <-]|].
    destruct (inv_not_listed_when_pinned _ _ _ Hinv Hfr) as [Hnotr _]; [lia|].
    intros Hrun.
    eapply (inv_update_frame b f pg b'
              (set_pin_count (set_dirty pg (is_dirty_ pg || d)) (pin_count_ pg - 1)));
      try done.
    + unfold INVALID_PAGE_ID. lia.
    + revert Hrun. case_decide; by intros [= <- <-].
    + revert Hrun. case_decide; by intros [= <- <-].
    + revert Hrun. case_decide; by intros [= <- <-].
    + revert Hrun. case_decide; by intros [= <- <-].
    + intros x. revert Hrun. simpl. case_decide as Hz; intros [= <- <-]; simpl.
      * unfold LRUReplacer.Unpin. case_decide; simpl.
        -- intros Hx. right. split; [by intros ->|done].
        -- rewrite elem_of_cons. intros [->|Hx]; [by left|].
           right. split; [by intros ->|done].
      * intros Hx. right. split; [by intros ->|done].
    + intros x Hne Hx. revert Hrun. simpl. case_decide as Hz; intros [= <- <-]; simpl; [|done].
      unfold LRUReplacer.Unpin. case_decide; simpl; [done|]. by right.
    + revert Hrun. simpl. case_decide as Hz; intros [= <- <-]; simpl; [|done].
      intros _. destruct Hwf as (Hr & Hn & Hrg & _).
      apply Unpin_elem; [done| |].
      * intros x Hx. rewrite Hn. by apply Hrg.
      * rewrite Hn. by eapply frame_at_lt.
  - exfalso. revert Hrun. unfold UnpinPageImpl.
    destruct (page_table_ b !! p) as [f|] eqn:Hlk; [|done].
    destruct (Hpt _ _ Hlk) as (Hrange & pg & Hfr & Hid). rewrite Hfr. simpl.
    by repeat case_decide.
Qed.

Lemma wf_update_frame b b' f pg pg' :
  wf b → frame_at b f = Some pg → 0 ≤ pin_count_ pg' →
  pages_ b' = <[Z.to_nat f := pg']> (pages_ b) →
  page_table_ b' = page_table_ b → replacer_ b' = replacer_ b → wf b'.
Proof.
  intros (Hr & Hn & Hrange & Hpt) Hfr Hpin Hp Ht Hrp.
  assert (Hframe : ∀ g, frame_at b' g = if decide (g = f) then Some pg' else frame_at b g).
  { intros g. by apply frame_at_insert. }
  unfold wf. rewrite Hrp, Ht, Hp, length_insert. split; [done|]. split; [done|].
  split; [done|]. intros p g Hlk. rewrite Hframe.
  destruct (decide (g = f)) as [->|Hne]; [by exists pg'|by eapply Hpt].
Qed.

Lemma inv_DeletePageImpl b p :
  inv b → ∃ r b', DeletePageImpl zero b p = Some (r, b') ∧ inv b'.
Proof.
  intros Hinv. pose proof Hinv as (Hwf & Hn0 & Hpt & Hfp & Hrepl & Hlisted & Hnd & Hfree & Hholds).
  unfold DeletePageImpl.
  destruct (page_table_ b !! p) as [f|] eqn:Hlk; [|by eexists _, _].
  destruct (Hpt _ _ Hlk) as (Hrange & pg & Hfr & Hid). rewrite Hfr. simpl.
  case_decide as Hpin; [by eexists _, _|].
  eexists _, _. split; [reflexivity|].
  match goal with |- inv ?b' =>
    assert (Hwf' : wf b');
    [eapply (proj2 (proj2 (proj2 (wf_preserved zero b Hwf))) p);
     unfold DeletePageImpl; rewrite Hlk, Hfr; simpl; rewrite decide_False by done;
     reflexivity|];
    assert (Hframe : ∀ g, frame_at b' g =
              if decide (g = f) then Some (update zero pg INVALID_PAGE_ID 0 false false)
              else frame_at b g)
      by (intros g; by apply (frame_at_insert b))
  end.
  split; [done|]. split; [done|]. split_and!; simpl.
  - intros p' g Hd. apply lookup_delete_Some in Hd as [Hno Hlk'].
    destruct (Hpt _ _ Hlk') as (Hrange' & pg1 & Hfr1 & Hid1). split; [done|].
    exists pg1. rewrite Hframe. rewrite decide_False; [done|].
    intros ->. rewrite Hfr in Hfr1. injection Hfr1 as <-. done.
  - intros g pg1. rewrite Hframe. destruct (decide (g = f)) as [->|Hne].
    + by intros [= <-].
    + intros Hfr1 Hval. pose proof (Hfp _ _ Hfr1 Hval) as Hlk1.
      rewrite lookup_delete_ne; [done|]. intros Heq. rewrite <- Heq, Hid in Hlk1. congruence.
  - intros x Hx. rewrite Hframe. destruct (decide (x = f)) as [->|Hne]; [by eexists|].
    by apply Hrepl.
  - intros g pg1. rewrite Hframe. destruct (decide (g = f)) as [->|Hne].
    + by intros [= <-].
    + apply Hlisted.
  - apply NoDup_app. split; [done|]. split; [|apply NoDup_singleton].
    intros x Hx Hxf. apply list_elem_of_singleton in Hxf as ->.
    by eapply inv_resident_not_free.
  - intros g Hg. rewrite Hframe. destruct (decide (g = f)) as [->|Hne]; [by eexists|].
    apply elem_of_app in Hg as [Hg|Hg]; [by apply Hfree|].
    by apply list_elem_of_singleton in Hg.
  - intros g pg1. rewrite Hframe, elem_of_app. destruct (decide (g = f)) as [->|Hne].
    + intros _ _. right. by apply list_elem_of_singleton.
    + intros Hfr1 Hbad. left. by eapply Hholds.
Qed.

Lemma inv_FlushPageImpl b p :
  inv b → ∃ r b', FlushPageImpl b p = Some (r, b') ∧ inv b'.
Proof.
  intros Hinv. pose proof Hinv as (Hwf & Hn0 & Hpt & Hfp & Hrepl & Hlisted & Hnd & Hfree & Hholds).
  unfold FlushPageImpl.
  destruct (page_table_ b !! p) as [f|] eqn:Hlk; [|by eexists _, _].
  destruct (Hpt _ _ Hlk) as (Hrange & pg & Hfr & Hid). rewrite Hfr. simpl.
  eexists _, _. split; [reflexivity|].
  assert (Hpin : 0 ≤ pin_count_ pg).
  { destruct Hwf as (_ & _ & _ & Hp). destruct (Hp _ _ Hlk) as (pg1 & Hfr1 & ?). congruence. }
  eapply (inv_update_frame b f pg _ (set_dirty pg false)); try done.
  - unfold INVALID_PAGE_ID. lia.
  - simpl. intros x Hx. destruct (decide (x = f)) as [->|Hne]; [|by right].
    left. split; [done|]. destruct (Hrepl _ Hx) as (pg1 & Hfr1 & ?). simpl. congruence.
  - simpl. intros Hz. eapply Hlisted; [done| |done]. unfold INVALID_PAGE_ID. lia.
  - by eapply (wf_update_frame b _ f pg (set_dirty pg false)).
Qed.


(** Two resident pages do not share a frame. *)
Lemma inv_table_inj b p1 p2 f :
  inv b → page_table_ b !! p1 = Some f → page_table_ b !! p2 = Some f → p1 = p2.
Proof.
  intros (_ & _ & Hpt & _) H1 H2.
  destruct (Hpt _ _ H1) as (_ & pg1 & Hfr1 & Hid1).
  destruct (Hpt _ _ H2) as (_ & pg2 & Hfr2 & Hid2). congruence.
Qed.

(** What one step of [FlushAllPagesImpl] does to a resident page. *)
Lemma flush_one_spec b p f pg :
  inv b → page_table_ b !! p = Some f → frame_at b f = Some pg →
  ∃ b', flush_one b (p, f) = Some b' ∧ inv b' ∧
    page_table_ b' = page_table_ b ∧ free_list_ b' = free_list_ b ∧
    replacer_ b' = replacer_ b ∧
    (∀ g, frame_at b' g = if decide (g = f) then Some (set_dirty pg false) else frame_at b g) ∧
    disk_pages (disk_manager_ b') =
      (if is_dirty_ pg then <[p := data_ pg]> (disk_pages (disk_manager_ b))
       else disk_pages (disk_manager_ b)).
Proof.
  intros Hinv Hlk Hfr. pose proof Hinv as (Hwf & Hn0 & Hpt & Hfp & Hrepl & Hlisted & Hnd & Hfree & Hholds).
  destruct (Hpt _ _ Hlk) as (Hrange & pg1 & Hfr1 & Hid).
  rewrite Hfr in Hfr1. injection Hfr1 as <-.
  unfold flush_one. simpl. rewrite Hfr. simpl. destruct (is_dirty_ pg) eqn:Hdirty.
  - eexists. split; [reflexivity|]. simpl. split_and!; try done.
    + assert (Hpin : 0 ≤ pin_count_ pg).
      { destruct Hwf as (_ & _ & _ & Hp). destruct (Hp _ _ Hlk) as (pg1 & Hfr1 & ?). congruence. }
      eapply (inv_update_frame b f pg _ (set_dirty pg false)); try done.
      * unfold INVALID_PAGE_ID. lia.
      * simpl. intros x Hx. destruct (decide (x = f)) as [->|Hne]; [|by right].
        left. split; [done|]. destruct (Hrepl _ Hx) as (pg1 & Hfr1 & ?). simpl. congruence.
      * simpl. intros Hz. eapply Hlisted; [done| |done]. unfold INVALID_PAGE_ID. lia.
      * by eapply (wf_update_frame b _ f pg (set_dirty pg false)).
    + intros g. by apply (frame_at_insert b).
  - eexists. split; [reflexivity|]. split_and!; try done.
    intros g. case_decide as Hg; [|done]. subst g. rewrite Hfr. f_equal.
    destruct pg; simpl in *. by subst.
Qed.

Lemma flush_entries (l : list (Z * Z)) b :
  inv b → NoDup l.*1 → (∀ p f, (p, f) ∈ l → page_table_ b !! p = Some f) →
  ∃ b', foldl (λ acc e, b ← acc; flush_one b e) (Some b) l = Some b' ∧ inv b' ∧
    page_table_ b' = page_table_ b ∧ free_list_ b' = free_list_ b ∧
    replacer_ b' = replacer_ b ∧
    (∀ g pg, frame_at b g = Some pg →
       frame_at b' g = Some (if bool_decide (g ∈ l.*2) then set_dirty pg false else pg)) ∧
    (∀ p, disk_pages (disk_manager_ b') !! p =
       if bool_decide (p ∈ l.*1) then
         match page_table_ b !! p ≫= frame_at b with
         | Some pg => if is_dirty_ pg then Some (data_ pg)
                      else disk_pages (disk_manager_ b) !! p
         | None => disk_pages (disk_manager_ b) !! p
         end
       else disk_pages (disk_manager_ b) !! p).
Proof.
  revert b. induction l as [|[p f] l IH]; intros b Hinv Hnd Hin.
  { exists b. simpl. split_and!; try done. }
  apply NoDup_cons in Hnd as [Hp Hnd]. simpl in Hp.
  assert (Hlk : page_table_ b !! p = Some f) by (apply Hin; by left).
  pose proof Hinv as (_ & _ & Hpt & _).
  destruct (Hpt _ _ Hlk) as (_ & pg & Hfr & _).
  destruct (flush_one_spec b p f pg Hinv Hlk Hfr)
    as (b1 & Hstep & Hinv1 & Ht1 & Hf1 & Hr1 & Hfr1 & Hd1).
  destruct (IH b1 Hinv1 Hnd) as (b' & Hrun & Hinv' & Ht' & Hf' & Hr' & Hfr' & Hd').
  { intros p' f' Hin'. rewrite Ht1. apply Hin. by right. }
  exists b'. split; [simpl; rewrite Hstep; exact Hrun|]. split; [done|].
  split; [congruence|]. split; [congruence|]. split; [congruence|].
  rewrite !fmap_cons. cbn [fst snd]. split.
  - intros g pg1 Hg. rewrite (Hfr' g (if decide (g = f) then set_dirty pg false else pg1)).
    2:{ rewrite Hfr1. case_decide; [done|exact Hg]. }
    f_equal. destruct (decide (g = f)) as [->|Hne].
    + rewrite Hfr in Hg. injection Hg as <-.
      rewrite (bool_decide_eq_true_2 (f ∈ f :: l.*2)) by (by left).
      by destruct (bool_decide _).
    + assert (Heq : bool_decide (g ∈ f :: l.*2) = bool_decide (g ∈ l.*2)).
      { apply bool_decide_ext. rewrite elem_of_cons. naive_solver. }
      by rewrite Heq.
  - intros p'. rewrite Hd'. rewrite Ht1.
    destruct (decide (p' = p)) as [->|Hne].
    + rewrite (bool_decide_eq_false_2 (p ∈ l.*1)) by done.
      rewrite (bool_decide_eq_true_2 (p ∈ p :: l.*1)) by (by left).
      rewrite Hlk. simpl. rewrite Hfr, Hd1. destruct (is_dirty_ pg); [|done].
      apply lookup_insert_eq.
    + assert (Hdisk : disk_pages (disk_manager_ b1) !! p' =
                      disk_pages (disk_manager_ b) !! p').
      { rewrite Hd1. destruct (is_dirty_ pg); [|done]. by rewrite lookup_insert_ne. }
      rewrite Hdisk.
      assert (Hsame : bool_decide (p' ∈ p :: l.*1) = bool_decide (p' ∈ l.*1)).
      { apply bool_decide_ext. rewrite elem_of_cons. naive_solver. }
      rewrite Hsame. destruct (bool_decide (p' ∈ l.*1)); [|done].
      destruct (page_table_ b !! p') as [f'|] eqn:Hlk'; simpl; [|done].
      rewrite Hfr1. rewrite decide_False; [done|].
      intros Heq. subst f'. apply Hne. exact (inv_table_inj b p' p f Hinv Hlk' Hlk).
Qed.


(** X4.  The pool invariant holds for a new pool and is kept by every
    operation, each of which completes: in the states the pool reaches no
    operation indexes [pages_] out of range.  [FetchPageImpl] is given the
    id of an allocated page. *)
Theorem pool_invariant b :
  inv b →
  (∀ q, 0 ≤ q < next_page_id_ (disk_manager_ b) →
     ∃ r b', FetchPageImpl zero b q = Some (r, b') ∧ inv b') ∧
  (∀ p d, ∃ r b', UnpinPageImpl b p d = Some (r, b') ∧ inv b') ∧
  (∃ r b', NewPageImpl zero b = Some (r, b') ∧ inv b') ∧
  (∀ p, ∃ r b', DeletePageImpl zero b p = Some (r, b') ∧ inv b') ∧
  (∀ p, ∃ r b', FlushPageImpl b p = Some (r, b') ∧ inv b') ∧
  (∃ b', FlushAllPagesImpl b = Some b' ∧ inv b') ∧
  (∀ n dm, 0 ≤ next_page_id_ dm → inv (create zero n dm)).
Proof.
  intros Hinv. split_and!.
  - intros q Hq. by apply inv_FetchPageImpl.
  - intros p d. by apply inv_UnpinPageImpl.
  - by apply inv_NewPageImpl.
  - intros p. by apply inv_DeletePageImpl.
  - intros p. by apply inv_FlushPageImpl.
  - destruct (flush_entries (map_to_list (page_table_ b)) b Hinv)
      as (b' & Hrun & Hinv' & _).
    + apply NoDup_fst_map_to_list.
    + intros p f Hin. by apply elem_of_map_to_list.
    + by exists b'.
  - intros n dm. apply create_inv.
Qed.

(** The page id a frame that is being reused held is not the id of a page
    that lives in another frame. *)
Lemma inv_other_page b p f g pg0 :
  inv b → page_table_ b !! p = Some f → frame_at b g = Some pg0 → g ≠ f →
  page_id_ pg0 ≠ p.
Proof.
  intros (_ & _ & Hpt & Hfp & _) Hlk Hfr Hne Heq.
  destruct (Hpt _ _ Hlk) as (Hrange & _).
  assert (page_table_ b !! page_id_ pg0 = Some g) as Hlk0.
  { apply Hfp; [done|]. unfold INVALID_PAGE_ID. lia. }
  rewrite Heq in Hlk0. congruence.
Qed.

(** X5.  A pinned page is never evicted: while its pin count is positive, a
    resident page stays in its frame with the same bytes, dirty flag and
    pin count whatever other page is fetched, created, unpinned or deleted,
    and [DeletePageImpl] on the page itself refuses and changes nothing. *)
Theorem pinned_page_stays b p f pg :
  inv b → resident b p f pg → 0 < pin_count_ pg →
  (∀ q r b', q ≠ p → FetchPageImpl zero b q = Some (r, b') → resident b' p f pg) ∧
  (∀ r b', NewPageImpl zero b = Some (r, b') → resident b' p f pg) ∧
  (∀ q d r b', q ≠ p → UnpinPageImpl b q d = Some (r, b') → resident b' p f pg) ∧
  (∀ q r b', q ≠ p → DeletePageImpl zero b q = Some (r, b') → resident b' p f pg) ∧
  DeletePageImpl zero b p = Some (false, b).
Proof.
  intros Hinv [Hlk Hfr] Hpin.
  pose proof Hinv as (Hwf & Hn0 & Hpt & Hfp & Hrepl & Hlisted & Hnd & Hfree & Hholds).
  destruct (inv_not_listed_when_pinned _ _ _ Hinv Hfr) as [Hnotr Hnotf]; [lia|].
  assert (Hvictim : ∀ v b1, GetVictimFrameId b = (v, b1) → v ≠ INVALID_PAGE_ID →
            ∃ pg0, frame_at b1 v = Some pg0 ∧ v ≠ f ∧ page_id_ pg0 ≠ p ∧
                   page_table_ b1 = page_table_ b ∧ pages_ b1 = pages_ b).
  { intros v b1 Hv Hvalid.
    destruct (victim_facts _ _ _ Hinv Hv Hvalid) as (pg0 & Hfr0 & Hpin0 & _).
    destruct (GetVictimFrameId_pages _ _ _ Hv) as (Hp1 & Ht1 & _).
    exists pg0. rewrite (frame_at_pages b b1) by done.
    assert (v ≠ f) by (intros ->; rewrite Hfr in Hfr0; injection Hfr0 as <-; lia).
    split_and!; try done. by eapply inv_other_page. }
  assert (Hreuse : ∀ v b1 b' q pg0 pg',
            GetVictimFrameId b = (v, b1) → v ≠ INVALID_PAGE_ID → frame_at b1 v = Some pg0 →
            q ≠ p →
            pages_ b' = <[Z.to_nat v := pg']> (pages_ b1) →
            page_table_ b' = <[q := v]> (delete (page_id_ pg0) (page_table_ b1)) →
            resident b' p f pg).
  { intros v b1 b' q pg0 pg' Hv Hvalid Hfr0 Hq Hpages Htable.
    destruct (Hvictim _ _ Hv Hvalid) as (pg0' & Hfr0' & Hvf & Hpid & Ht1 & Hp1).
    rewrite Hfr0 in Hfr0'. injection Hfr0' as <-.
    split.
    - rewrite Htable, Ht1. rewrite lookup_insert_ne by done.
      by rewrite lookup_delete_ne.
    - rewrite (frame_at_insert b1 b' v pg' f Hpages) by (by rewrite Hfr0).
      rewrite decide_False by done. by rewrite (frame_at_pages b b1). }
  split_and!.
  - intros q r b' Hq. unfold FetchPageImpl.
    destruct (page_table_ b !! q) as [g|] eqn:Hlkq.
    + destruct (Hpt _ _ Hlkq) as (_ & pgq & Hfrq & Hidq). rewrite Hfrq. simpl.
      intros [= <- <-]. split; [done|].
      assert (g ≠ f) by (intros ->; apply Hq; by eapply inv_table_inj).
      rewrite (frame_at_insert b _ g (set_pin_count pgq (pin_count_ pgq + 1)) f);
        [by rewrite decide_False|done|by rewrite Hfrq].
    + destruct (GetVictimFrameId b) as [v b1] eqn:Hv.
      case_decide as Hvalid.
      { intros [= <- <-]. subst v. destruct (no_victim _ _ Hinv Hv) as (-> & _). done. }
      destruct (Hvictim _ _ eq_refl Hvalid) as (pg0 & Hfr0 & _). rewrite Hfr0. simpl.
      intros [= <- <-]. unfold write_back_if_dirty.
      destruct (is_dirty_ pg0); by eapply (Hreuse v b1 _ q pg0 _ eq_refl).
  - intros r b'. unfold NewPageImpl.
    destruct (GetVictimFrameId b) as [v b1] eqn:Hv.
    case_decide as Hvalid.
    { intros [= <- <-]. subst v. destruct (no_victim _ _ Hinv Hv) as (-> & _). done. }
    destruct (Hvictim _ _ eq_refl Hvalid) as (pg0 & Hfr0 & _ & _ & _ & Hp1). rewrite Hfr0. simpl.
    destruct (GetVictimFrameId_pages _ _ _ Hv) as (_ & _ & Hd1).
    assert (Hqp : next_page_id_ (disk_manager_ b) ≠ p).
    { destruct (Hpt _ _ Hlk) as (Hrange & _). lia. }
    intros [= <- <-]. unfold write_back_if_dirty.
    destruct (is_dirty_ pg0);
      (eapply (Hreuse v b1 _ (next_page_id_ (disk_manager_ b)) pg0 _ eq_refl); try done;
       simpl; by rewrite Hd1).
  - intros q d r b' Hq. unfold UnpinPageImpl.
    destruct (page_table_ b !! q) as [g|] eqn:Hlkq; [|by intros [= <- <-]].
    destruct (Hpt _ _ Hlkq) as (_ & pgq & Hfrq & Hidq). rewrite Hfrq. simpl.
    case_decide; [by intros [= <- <-]|].
    assert (g ≠ f) by (intros ->; apply Hq; by eapply inv_table_inj).
    assert (Hkeep : ∀ b', pages_ b' = <[Z.to_nat g :=
                set_pin_count (set_dirty pgq (is_dirty_ pgq || d)) (pin_count_ pgq - 1)]>
                (pages_ b) → page_table_ b' = page_table_ b → resident b' p f pg).
    { intros b2 Hp2 Ht2. split; [by rewrite Ht2|].
      rewrite (frame_at_insert b b2 g _ f Hp2) by (by rewrite Hfrq).
      by rewrite decide_False. }
    simpl. case_decide; intros [= <- <-]; by apply Hkeep.
  - intros q r b' Hq. unfold DeletePageImpl.
    destruct (page_table_ b !! q) as [g|] eqn:Hlkq; [|by intros [= <- <-]].
    destruct (Hpt _ _ Hlkq) as (_ & pgq & Hfrq & Hidq). rewrite Hfrq. simpl.
    case_decide; [by intros [= <- <-]|]. intros [= <- <-].
    assert (g ≠ f) by (intros ->; apply Hq; by eapply inv_table_inj).
    split; simpl.
    + rewrite lookup_delete_ne; [done|]. congruence.
    + rewrite (frame_at_insert b _ g (update zero pgq INVALID_PAGE_ID 0 false false) f);
        [by rewrite decide_False|done|by rewrite Hfrq].
  - unfold DeletePageImpl. rewrite Hlk, Hfr. simpl. by rewrite decide_True by lia.
Qed.

(** X6.  [NewPageImpl], and [FetchPageImpl] for a page that is not
    resident, come back with [nullptr] exactly when every frame of the pool
    is pinned, and they then leave the pool as it was: no page id is
    allocated and nothing is written. *)
Theorem no_frame_iff_all_pinned b :
  inv b →
  let all_pinned := ∀ f pg, frame_at b f = Some pg → 0 < pin_count_ pg in
  (all_pinned → NewPageImpl zero b = Some (None, b)) ∧
  (∀ b', NewPageImpl zero b = Some (None, b') → all_pinned) ∧
  (∀ q, page_table_ b !! q = None →
     (all_pinned → FetchPageImpl zero b q = Some (None, b)) ∧
     (∀ b', FetchPageImpl zero b q = Some (None, b') → all_pinned)).
Proof.
  intros Hinv all_pinned.
  pose proof Hinv as (Hwf & Hn0 & Hpt & Hfp & Hrepl & Hlisted & Hnd & Hfree & Hholds).
  assert (Hnone : all_pinned → GetVictimFrameId b = (INVALID_PAGE_ID, b)).
  { intros Hall. unfold GetVictimFrameId.
    destruct (free_list_ b) as [|g rest] eqn:Hfl.
    - unfold LRUReplacer.Victim. rewrite decide_True; [by destruct b|].
      unfold LRUReplacer.Size.
      destruct (LRUReplacer.list_ (replacer_ b)) as [|x l] eqn:Hl; [done|].
      destruct (Hrepl x) as (pg & Hfr & Hpin); [by left|].
      apply Hall in Hfr. lia.
    - destruct (Hfree g) as (pg & Hfr & _ & Hpin & _); [by left|].
      apply Hall in Hfr. lia. }
  assert (Hall : ∀ b1, GetVictimFrameId b = (INVALID_PAGE_ID, b1) → all_pinned).
  { intros b1 Hv f pg Hfr. destruct (no_victim _ _ Hinv Hv) as (_ & Hfl & Hl).
    destruct (decide (page_id_ pg = INVALID_PAGE_ID)) as [Hbad|Hval].
    { apply (Hholds _ _ Hfr) in Hbad. rewrite Hfl in Hbad. by apply elem_of_nil in Hbad. }
    destruct (decide (pin_count_ pg = 0)) as [Hz|Hnz].
    { pose proof (Hlisted _ _ Hfr Hval Hz) as Hin. rewrite Hl in Hin.
      by apply elem_of_nil in Hin. }
    destruct Hwf as (_ & _ & _ & Hp).
    destruct (Hp _ _ (Hfp _ _ Hfr Hval)) as (pg1 & Hfr1 & Hpos). 
    rewrite Hfr in Hfr1. injection Hfr1 as <-. lia. }
  assert (Hsome : ∀ v b1, GetVictimFrameId b = (v, b1) → v ≠ INVALID_PAGE_ID →
            is_Some (frame_at b1 v)).
  { intros v b1 Hv Hvalid. destruct (victim_facts _ _ _ Hinv Hv Hvalid) as (pg0 & Hfr0 & _).
    destruct (GetVictimFrameId_pages _ _ _ Hv) as (Hp1 & _).
    rewrite (frame_at_pages b b1) by done. eauto. }
  split_and!.
  - intros Ha. unfold NewPageImpl. rewrite (Hnone Ha). by rewrite decide_True.
  - intros b'. unfold NewPageImpl. destruct (GetVictimFrameId b) as [v b1] eqn:Hv.
    case_decide as Hvalid; [subst v; intros _; by eapply (Hall _ eq_refl)|].
    destruct (Hsome _ _ eq_refl Hvalid) as [pg0 ->]. done.
  - intros q Hq. split.
    + intros Ha. unfold FetchPageImpl. rewrite Hq, (Hnone Ha). by rewrite decide_True.
    + intros b'. unfold FetchPageImpl. rewrite Hq.
      destruct (GetVictimFrameId b) as [v b1] eqn:Hv.
      case_decide as Hvalid; [subst v; intros _; by eapply (Hall _ eq_refl)|].
      destruct (Hsome _ _ eq_refl Hvalid) as [pg0 ->]. simpl. done.
Qed.


(** What a [FetchPageImpl] that has to take a frame does. *)
Lemma FetchPageImpl_miss b q v b' :
  inv b → page_table_ b !! q = None →
  FetchPageImpl zero b q = Some (Some v, b') →
  ∃ pg0,
    frame_at b v = Some pg0 ∧ pin_count_ pg0 = 0 ∧
    page_table_ b' = <[q := v]> (delete (page_id_ pg0) (page_table_ b)) ∧
    disk_pages (disk_manager_ b') =
      (if is_dirty_ pg0 then <[page_id_ pg0 := data_ pg0]> (disk_pages (disk_manager_ b))
       else disk_pages (disk_manager_ b)) ∧
    frame_at b' v =
      Some {| page_id_ := q; pin_count_ := 1; is_dirty_ := false;
              data_ := default zero (disk_pages (disk_manager_ b') !! q) |}.
Proof.
  intros Hinv Hq. unfold FetchPageImpl. rewrite Hq.
  destruct (GetVictimFrameId b) as [f b1] eqn:Hv.
  case_decide as Hvalid; [done|].
  destruct (victim_facts _ _ _ Hinv Hv Hvalid) as (pg0 & Hfr0 & Hpin0 & _).
  destruct (GetVictimFrameId_pages _ _ _ Hv) as (Hp1 & Ht1 & Hd1).
  rewrite (frame_at_pages b b1) by done. rewrite Hfr0. simpl.
  intros [= <- <-]. exists pg0. split; [done|]. split; [done|].
  pose proof (frame_at_lt _ _ _ Hfr0) as Hlt.
  unfold write_back_if_dirty. destruct (is_dirty_ pg0); simpl; rewrite ?Ht1, ?Hd1;
    (split; [done|]; split; [done|]);
    unfold frame_at; simpl; rewrite decide_True by lia;
    rewrite list_lookup_insert_eq by (rewrite Hp1; lia); done.
Qed.

(** X7.  A dirty page that is evicted is not lost.  When [FetchPageImpl]
    of another page takes the frame of a resident page whose bytes are
    dirty or already on disk, the page is no longer resident and the disk
    holds its bytes; a later [FetchPageImpl] of the page brings exactly
    these bytes back, pinned once and clean. *)
Theorem evicted_page_comes_back b p f pg q b1 g b2 :
  inv b → resident b p f pg →
  is_dirty_ pg = true ∨ disk_pages (disk_manager_ b) !! p = Some (data_ pg) →
  page_table_ b !! q = None → 0 ≤ q < next_page_id_ (disk_manager_ b) →
  FetchPageImpl zero b q = Some (Some f, b1) →
  FetchPageImpl zero b1 p = Some (Some g, b2) →
  page_table_ b1 !! p = None ∧
  disk_pages (disk_manager_ b1) !! p = Some (data_ pg) ∧
  frame_at b2 g =
    Some {| page_id_ := p; pin_count_ := 1; is_dirty_ := false; data_ := data_ pg |}.
Proof.
  intros Hinv [Hlk Hfr] Hbytes Hq Hqr Hrun1 Hrun2.
  assert (Hinv1 : inv b1).
  { destruct (inv_FetchPageImpl b q Hinv Hqr) as (r & b' & Hrun & Hinv').
    rewrite Hrun1 in Hrun. by injection Hrun as <- <-. }
  pose proof Hinv as (_ & _ & Hpt & _).
  destruct (Hpt _ _ Hlk) as (Hrange & pg' & Hfr' & Hid).
  rewrite Hfr in Hfr'. injection Hfr' as <-.
  assert (Hqp : q ≠ p) by congruence.
  destruct (FetchPageImpl_miss _ _ _ _ Hinv Hq Hrun1) as (pg0 & Hfr0 & _ & Ht1 & Hd1 & _).
  rewrite Hfr in Hfr0. injection Hfr0 as <-.
  assert (Hgone : page_table_ b1 !! p = None).
  { rewrite Ht1, lookup_insert_ne by done. rewrite Hid. apply lookup_delete_eq. }
  assert (Hdisk : disk_pages (disk_manager_ b1) !! p = Some (data_ pg)).
  { rewrite Hd1, Hid. destruct (is_dirty_ pg); [apply lookup_insert_eq|].
    by destruct Hbytes. }
  split; [done|]. split; [done|].
  destruct (FetchPageImpl_miss _ _ _ _ Hinv1 Hgone Hrun2) as (pg2 & Hfr2 & _ & _ & Hd2 & ->).
  assert (Hother : page_id_ pg2 ≠ p).
  { destruct Hinv1 as (_ & _ & _ & Hfp1 & _). intros Heq.
    assert (page_table_ b1 !! page_id_ pg2 = Some g) as Hlk2.
    { apply Hfp1; [done|]. unfold INVALID_PAGE_ID. lia. }
    rewrite Heq in Hlk2. congruence. }
  do 2 f_equal. rewrite Hd2.
  destruct (is_dirty_ pg2); [rewrite lookup_insert_ne by done|]; by rewrite Hdisk.
Qed.

(** X8.  [FlushAllPagesImpl] makes every resident page clean and leaves
    its frame, page id, pin count and bytes alone; afterwards the disk holds
    the bytes of every resident page that was dirty, and every other disk
    page is what it was.  The page table, the free list and the replacer
    do not change. *)
Theorem FlushAllPagesImpl_spec b :
  inv b →
  ∃ b', FlushAllPagesImpl b = Some b' ∧
    page_table_ b' = page_table_ b ∧ free_list_ b' = free_list_ b ∧
    replacer_ b' = replacer_ b ∧
    (∀ p f pg, resident b p f pg →
       resident b' p f (set_dirty pg false) ∧
       disk_pages (disk_manager_ b') !! p =
         (if is_dirty_ pg then Some (data_ pg) else disk_pages (disk_manager_ b) !! p)) ∧
    (∀ p, page_table_ b !! p = None →
       disk_pages (disk_manager_ b') !! p = disk_pages (disk_manager_ b) !! p).
Proof.
  intros Hinv.
  destruct (flush_entries (map_to_list (page_table_ b)) b Hinv)
    as (b' & Hrun & Hinv' & Ht & Hf & Hr & Hfr' & Hd').
  { apply NoDup_fst_map_to_list. }
  { intros p f Hin. by apply elem_of_map_to_list. }
  exists b'. split; [done|]. split; [done|]. split; [done|]. split; [done|]. split.
  - intros p f pg [Hlk Hfr].
    assert (Hin : (p, f) ∈ map_to_list (page_table_ b)) by (by apply elem_of_map_to_list).
    split; [split|].
    + by rewrite Ht.
    + rewrite (Hfr' _ _ Hfr). rewrite bool_decide_eq_true_2; [done|].
      apply list_elem_of_fmap. by exists (p, f).
    + rewrite Hd'. rewrite bool_decide_eq_true_2.
      2:{ apply list_elem_of_fmap. by exists (p, f). }
      rewrite Hlk. simpl. by rewrite Hfr.
  - intros p Hnone. rewrite Hd'. rewrite bool_decide_eq_false_2; [done|].
    intros Hin. apply list_elem_of_fmap in Hin as ([p' f] & -> & Hin).
    apply elem_of_map_to_list in Hin. simpl in Hnone. congruence.
Qed.

(** Writing bytes into a frame that holds a page keeps the invariant. *)
Lemma inv_write_bytes b f pg d :
  inv b → frame_at b f = Some pg → page_id_ pg ≠ INVALID_PAGE_ID →
  inv (write_bytes b f d).
Proof.
  intros Hinv Hfr Hid. pose proof Hinv as (Hwf & _ & _ & _ & Hrepl & Hlisted & _).
  unfold write_bytes. rewrite Hfr.
  assert (Hpin : 0 ≤ pin_count_ pg).
  { destruct Hinv as (_ & _ & _ & Hfp & _). specialize (Hfp _ _ Hfr Hid).
    destruct Hwf as (_ & _ & _ & Hpt). destruct (Hpt _ _ Hfp) as (pg' & Hfr' & Hp). congruence. }
  eapply (inv_update_frame b f pg _ {| page_id_ := page_id_ pg; pin_count_ := pin_count_ pg; is_dirty_ := is_dirty_ pg; data_ := d |}); try done.
  - intros x Hx. destruct (decide (x = f)) as [->|Hne]; [left|by right].
    split; [done|]. destruct (Hrepl _ Hx) as (pg' & Hfr' & Hp). simpl. congruence.
  - simpl. intros Hp. by eapply Hlisted.
  - eapply (wf_update_frame b _ f pg); [done|done| |reflexivity..]. simpl. done.
Qed.
End PoolInvariant.

Section PoolWitnesses.
Import BufferPool Examples.

Lemma victims_in_unpin_order_witness :
  LRUReplacer.victims 4 (foldl LRUReplacer.Unpin (LRUReplacer.create 3) [2; 0; 1]) = [2; 0; 1].
Proof.
  apply (victims_in_unpin_order 3 [2; 0; 1]).
  - repeat (apply NoDup_cons; split; [set_solver|]). apply NoDup_nil_2.
  - simpl. lia.
Defined.

Lemma replacer_invariant_witness :
  LRUReplacer.wf (LRUReplacer.Unpin (LRUReplacer.create 2) 0) ∧
  (LRUReplacer.Size (LRUReplacer.Unpin (LRUReplacer.create 2) 0) ≤ 2)%nat.
Proof.
  destruct (replacer_invariant (LRUReplacer.create 2) 0) as (_ & _ & (Hwf & Hsz & _) & _).
  - split; [constructor|]. intros x; simpl. set_solver.
  - unfold LRUReplacer.Size; simpl. lia.
  - split; [exact Hwf|exact Hsz].
Defined.

Lemma Pin_Unpin_listing_witness :
  LRUReplacer.list_
    (LRUReplacer.Pin (LRUReplacer.Unpin (LRUReplacer.Unpin (LRUReplacer.create 3) 1) 2) 1)
  = [2].
Proof.
  destruct (Pin_Unpin_listing
              (LRUReplacer.Unpin (LRUReplacer.Unpin (LRUReplacer.create 3) 1) 2) 1)
    as (Hlist & _).
  - do 2 apply Unpin_wf. split; [constructor|]. intros x; simpl. set_solver.
  - rewrite Hlist. reflexivity.
Defined.

Lemma pool0_inv : inv pool0.
Proof. apply create_inv. simpl. lia. Qed.

Lemma pool_invariant_witness :
  ∃ r b', NewPageImpl 0 pool0 = Some (r, b') ∧ inv b'.
Proof.
  destruct (pool_invariant 0 pool0 pool0_inv) as (_ & _ & Hnew & _). exact Hnew.
Defined.

(** [pool0] after [NewPage]: page 0 sits in frame 0, the only frame, pinned
    once. *)
Lemma pool0_new_page :
  ∃ b1, NewPageImpl 0 pool0 = Some (Some (0, 0), b1) ∧ inv b1 ∧
        resident b1 0 0 {| page_id_ := 0; pin_count_ := 1; is_dirty_ := false; data_ := 0 |} ∧
        pages_ b1 = [{| page_id_ := 0; pin_count_ := 1; is_dirty_ := false; data_ := 0 |}].
Proof.
  destruct (inv_NewPageImpl 0 pool0 pool0_inv) as (r & b1 & Hrun & Hinv).
  exists b1. assert (Hr : r = Some (0, 0)).
  { revert Hrun. vm_compute. by intros [= <- _]. }
  subst r. split; [done|]. split; [done|].
  revert Hrun. vm_compute. intros [= <-]. split; [split|]; reflexivity.
Qed.

Lemma pinned_page_stays_witness :
  ∃ b1, NewPageImpl 0 pool0 = Some (Some (0, 0), b1) ∧
        DeletePageImpl 0 b1 0 = Some (false, b1).
Proof.
  destruct pool0_new_page as (b1 & Hrun & Hinv & Hres & _).
  exists b1. split; [exact Hrun|].
  apply (pinned_page_stays 0 b1 0 0 _ Hinv Hres). simpl. lia.
Defined.

Lemma no_frame_iff_all_pinned_witness :
  ∃ b1, NewPageImpl 0 pool0 = Some (Some (0, 0), b1) ∧
        NewPageImpl 0 b1 = Some (None, b1).
Proof.
  destruct pool0_new_page as (b1 & Hrun & Hinv & Hres & Hpages).
  exists b1. split; [exact Hrun|].
  apply (no_frame_iff_all_pinned 0 b1 Hinv).
  intros f pg. unfold frame_at. rewrite Hpages. case_decide; [|done].
  destruct (Z.to_nat f) as [|n]; simpl; [|done].
  intros [= <-]. simpl. lia.
Defined.

(** The state [pool2_run] ends in. *)
Lemma pool2_run_inv :
  ∃ b, pool2_run = Some b ∧ inv b ∧
       resident b 1 1 {| page_id_ := 1; pin_count_ := 0; is_dirty_ := true; data_ := 7 |} ∧
       page_table_ b !! 0 = None ∧ next_page_id_ (disk_manager_ b) = 3.
Proof.
  assert (H0 : inv pool2) by (apply create_inv; simpl; lia).
  destruct (inv_NewPageImpl 0 _ H0) as (r1 & b1 & R1 & H1).
  vm_compute in R1. injection R1 as <- <-.
  destruct (inv_UnpinPageImpl 0 _ 0 false H1) as (r2 & b2 & R2 & H2).
  vm_compute in R2. injection R2 as <- <-.
  destruct (inv_NewPageImpl 0 _ H2) as (r3 & b3 & R3 & H3).
  vm_compute in R3. injection R3 as <- <-.
  eapply (inv_write_bytes _ 1 _ 7) in H3; [|reflexivity|done].
  destruct (inv_UnpinPageImpl 0 _ 1 true H3) as (r4 & b4 & R4 & H4).
  vm_compute in R4. injection R4 as <- <-.
  destruct (inv_NewPageImpl 0 _ H4) as (r5 & b5 & R5 & H5).
  vm_compute in R5. injection R5 as <- <-.
  destruct (inv_UnpinPageImpl 0 _ 2 false H5) as (r6 & b6 & R6 & H6).
  vm_compute in R6. injection R6 as <- <-.
  eexists. split; [vm_compute; reflexivity|]. split; [exact H6|].
  split; [split; reflexivity|]. split; reflexivity.
Qed.

Lemma evicted_page_comes_back_witness :
  ∃ b b1 b2, pool2_run = Some b ∧
    FetchPageImpl 0 b 0 = Some (Some 1, b1) ∧
    FetchPageImpl 0 b1 1 = Some (Some 0, b2) ∧
    page_table_ b1 !! 1 = None ∧
    disk_pages (disk_manager_ b1) !! 1 = Some 7 ∧
    frame_at b2 0 = Some {| page_id_ := 1; pin_count_ := 1; is_dirty_ := false; data_ := 7 |}.
Proof.
  destruct pool2_run_inv as (b & Hrun & Hinv & Hres & Hq & Hnext).
  destruct (inv_FetchPageImpl 0 b 0 Hinv) as (r1 & b1 & R1 & H1); [lia|].
  assert (r1 = Some 1) as ->.
  { revert Hrun R1. vm_compute. intros [= <-] [= <- _]. done. }
  destruct (inv_FetchPageImpl 0 b1 1 H1) as (r2 & b2 & R2 & H2).
  { revert Hrun R1. vm_compute. intros [= <-] [= <-]. done. }
  assert (r2 = Some 0) as ->.
  { revert Hrun R1 R2. vm_compute. intros [= <-] [= <-] [= <- _]. done. }
  exists b, b1, b2. split; [done|]. split; [done|]. split; [done|].
  apply (evicted_page_comes_back 0 b 1 1 _ 0 b1 0 b2 Hinv Hres); try done.
  - by left.
  - lia.
Defined.

Lemma FlushAllPagesImpl_spec_witness :
  ∃ b b', pool2_run = Some b ∧ FlushAllPagesImpl b = Some b' ∧
    resident b' 1 1 {| page_id_ := 1; pin_count_ := 0; is_dirty_ := false; data_ := 7 |} ∧
    disk_pages (disk_manager_ b') !! 1 = Some 7.
Proof.
  destruct pool2_run_inv as (b & Hrun & Hinv & Hres & Hq & Hnext).
  destruct (FlushAllPagesImpl_spec b Hinv) as (b' & Hflush & _ & _ & _ & Hpages & _).
  exists b, b'. split; [done|]. split; [done|]. exact (Hpages _ _ _ Hres).
Defined.

End PoolWitnesses.
